(** * ITEasier landing page: the behaviour layer of [main.js]

    A shallow embedding of [src/main.js] (smooth scroll, mobile menu,
    header and scroll-top watchers, scroll reveal, contact form) together
    with the properties its specification states about it.

    The page is a store of elements addressed by identifiers; every
    listener of the script is a function in a state-and-exception monad
    over that store, so that what a listener has already written stays
    written when a later statement throws. *)

From Stdlib Require Import Strings.Byte ZArith QArith Lia.
From stdpp Require Import gmap strings list.

Local Open Scope Z_scope.

(** ** Completions

    A JavaScript call either returns or throws.  Three kinds of exception
    can arise in the script: reading a property of [null] ([TypeError]),
    [encodeURIComponent] on an unpaired surrogate ([URIError]) and
    [document.querySelector] on a malformed selector ([SyntaxError]). *)

Inductive JsError : Type := TypeError | URIError | SyntaxError.

Inductive completion (A : Type) : Type :=
  | Normal (a : A)
  | Throw (e : JsError).

Arguments Normal {A} a.
Arguments Throw {A} e.

Definition completion_map {A B} (f : A -> B) (c : completion A) : completion B :=
  match c with
  | Normal a => Normal (f a)
  | Throw e => Throw e
  end.

(** ** JavaScript strings

    A string is a sequence of 16-bit code units.  A unit is kept as its
    two bytes (high, low), so the type has exactly 2^16 inhabitants;
    [code] gives its numeric value. *)

Module JsString.

Definition unit16 : Type := byte * byte.

Abbreviation jsstring := (list unit16).

Definition code (u : unit16) : Z :=
  256 * Z.of_N (Byte.to_N (fst u)) + Z.of_N (Byte.to_N (snd u)).

Definition byte_of_Z (n : Z) : byte :=
  match Byte.of_N (Z.to_N (n mod 256)) with
  | Some b => b
  | None => x00
  end.

Definition unit_of (n : Z) : unit16 := (byte_of_Z (n / 256), byte_of_Z n).

(** Source literals are written as Rocq strings, which hold the UTF-8
    bytes of the text; [lit] turns them into code units.  Every literal of
    [main.js] lies in the Basic Multilingual Plane, where a character is
    one unit and at most three UTF-8 bytes. *)

Fixpoint units_of_utf8 (bs : list Z) : jsstring :=
  match bs with
  | [] => []
  | b :: rest =>
      if b <? 0x80 then unit_of b :: units_of_utf8 rest
      else if b <? 0xE0 then
        match rest with
        | c :: rest' =>
            unit_of ((b - 0xC0) * 64 + (c - 0x80)) :: units_of_utf8 rest'
        | [] => []
        end
      else
        match rest with
        | c :: d :: rest' =>
            unit_of ((b - 0xE0) * 4096 + (c - 0x80) * 64 + (d - 0x80))
              :: units_of_utf8 rest'
        | _ => []
        end
  end.

Definition lit (s : string) : jsstring :=
  units_of_utf8
    (map (fun a => Z.of_N (Ascii.N_of_ascii a)) (String.list_ascii_of_string s)).

(** [WhiteSpace] and [LineTerminator] of ECMAScript: what
    [String.prototype.trim] strips and what [\s] matches. *)

Definition isWhiteSpace (u : unit16) : bool :=
  let c := code u in
  (9 <=? c) && (c <=? 13)
  || (c =? 0x20) || (c =? 0xA0) || (c =? 0x1680)
  || (0x2000 <=? c) && (c <=? 0x200A)
  || (c =? 0x2028) || (c =? 0x2029) || (c =? 0x202F)
  || (c =? 0x205F) || (c =? 0x3000) || (c =? 0xFEFF).

Fixpoint trimStart (s : jsstring) : jsstring :=
  match s with
  | [] => []
  | u :: rest => if isWhiteSpace u then trimStart rest else s
  end.

Definition trimEnd (s : jsstring) : jsstring := rev (trimStart (rev s)).

Definition trim (s : jsstring) : jsstring := trimEnd (trimStart s).

(** Truthiness of a string: only the empty string is falsy. *)

Definition truthy (s : jsstring) : bool :=
  match s with
  | [] => false
  | _ :: _ => true
  end.

(** [s.includes(t)], used to state what a decoded body contains. *)

Fixpoint startsWith (t s : jsstring) : bool :=
  match t, s with
  | [], _ => true
  | _ :: _, [] => false
  | a :: t', b :: s' =>
      if decide (code a = code b) then startsWith t' s' else false
  end.

Fixpoint includes (s t : jsstring) : bool :=
  startsWith t s
  || match s with
     | [] => false
     | _ :: s' => includes s' t
     end.

(** *** [encodeURIComponent]

    The [Encode] operation of ECMAScript with the unreserved set of
    [encodeURIComponent]: letters, digits and [- _ . ! ~ * ' ( )] stay,
    every other code point is written as the percent-escaped bytes of its
    UTF-8 form, and an unpaired surrogate throws [URIError]. *)

Definition isAlpha (c : Z) : bool :=
  (0x41 <=? c) && (c <=? 0x5A) || (0x61 <=? c) && (c <=? 0x7A).

Definition isDigit (c : Z) : bool := (0x30 <=? c) && (c <=? 0x39).

Definition isMark (c : Z) : bool :=
  (c =? 0x2D) || (c =? 0x5F) || (c =? 0x2E) || (c =? 0x21) || (c =? 0x7E)
  || (c =? 0x2A) || (c =? 0x27) || (c =? 0x28) || (c =? 0x29).

Definition uriUnescaped (c : Z) : bool := isAlpha c || isDigit c || isMark c.

Definition isHighSurrogate (c : Z) : bool := (0xD800 <=? c) && (c <=? 0xDBFF).

Definition isLowSurrogate (c : Z) : bool := (0xDC00 <=? c) && (c <=? 0xDFFF).

Definition pairCodePoint (hi lo : Z) : Z :=
  (hi - 0xD800) * 0x400 + (lo - 0xDC00) + 0x10000.

Definition utf8 (cp : Z) : list Z :=
  if cp <? 0x80 then [cp]
  else if cp <? 0x800 then [0xC0 + cp / 64; 0x80 + cp mod 64]
  else if cp <? 0x10000 then
    [0xE0 + cp / 4096; 0x80 + (cp / 64) mod 64; 0x80 + cp mod 64]
  else
    [0xF0 + cp / 262144; 0x80 + (cp / 4096) mod 64;
     0x80 + (cp / 64) mod 64; 0x80 + cp mod 64].

(** A Unicode scalar value: a code point that is not a surrogate. *)

Definition scalar (cp : Z) : Prop :=
  0 <= cp <= 0x10FFFF /\ ~ (0xD800 <= cp <= 0xDFFF).

Definition hexDigit (n : Z) : unit16 :=
  unit_of (if n <? 10 then 0x30 + n else 0x37 + n).

Definition percent (b : Z) : jsstring :=
  [unit_of 0x25; hexDigit (b / 16); hexDigit (b mod 16)].

Definition escape (cp : Z) : jsstring := flat_map percent (utf8 cp).

Fixpoint encodeURIComponent (s : jsstring) : completion jsstring :=
  match s with
  | [] => Normal []
  | u :: rest =>
      let c := code u in
      if uriUnescaped c then completion_map (cons u) (encodeURIComponent rest)
      else if isHighSurrogate c then
        match rest with
        | l :: rest' =>
            if isLowSurrogate (code l) then
              completion_map (app (escape (pairCodePoint c (code l))))
                (encodeURIComponent rest')
            else Throw URIError
        | [] => Throw URIError
        end
      else if isLowSurrogate c then Throw URIError
      else completion_map (app (escape c)) (encodeURIComponent rest)
  end.

(** [String.prototype.isWellFormed]: no unpaired surrogate. *)

Fixpoint isWellFormed (s : jsstring) : bool :=
  match s with
  | [] => true
  | u :: rest =>
      if isHighSurrogate (code u) then
        match rest with
        | l :: rest' => isLowSurrogate (code l) && isWellFormed rest'
        | [] => false
        end
      else negb (isLowSurrogate (code u)) && isWellFormed rest
  end.

(** *** [decodeURIComponent]

    The script never decodes; the mail client that receives the link does.
    This is the [Decode] operation of ECMAScript with an empty reserved
    set, in two passes: the text is cut into literal units and
    percent-escaped octets, then runs of octets are read as UTF-8.  Any
    malformed escape or octet sequence throws [URIError]. *)

Inductive token : Type :=
  | Lit (u : unit16)
  | Octet (b : Z).

Definition hexValue (u : unit16) : option Z :=
  let c := code u in
  if (0x30 <=? c) && (c <=? 0x39) then Some (c - 0x30)
  else if (0x41 <=? c) && (c <=? 0x46) then Some (c - 0x37)
  else if (0x61 <=? c) && (c <=? 0x66) then Some (c - 0x57)
  else None.

Fixpoint tokens (s : jsstring) : completion (list token) :=
  match s with
  | [] => Normal []
  | c :: rest =>
      if code c =? 0x25 then
        match rest with
        | h1 :: h2 :: rest' =>
            match hexValue h1, hexValue h2 with
            | Some a, Some b =>
                completion_map (cons (Octet (16 * a + b))) (tokens rest')
            | _, _ => Throw URIError
            end
        | _ => Throw URIError
        end
      else completion_map (cons (Lit c)) (tokens rest)
  end.

Definition isContinuation (b : Z) : bool := (0x80 <=? b) && (b <=? 0xBF).

Definition utf16 (cp : Z) : jsstring :=
  if cp <? 0x10000 then [unit_of cp]
  else [unit_of (0xD800 + (cp - 0x10000) / 0x400);
        unit_of (0xDC00 + (cp - 0x10000) mod 0x400)].

Fixpoint utf8Decode (ts : list token) : completion jsstring :=
  match ts with
  | [] => Normal []
  | Lit u :: rest => completion_map (cons u) (utf8Decode rest)
  | Octet b1 :: rest =>
      if b1 <? 0x80 then completion_map (cons (unit_of b1)) (utf8Decode rest)
      else if (0xC0 <=? b1) && (b1 <? 0xE0) then
        match rest with
        | Octet b2 :: rest' =>
            let cp := (b1 - 0xC0) * 64 + (b2 - 0x80) in
            if isContinuation b2 && (0x80 <=? cp)
            then completion_map (app (utf16 cp)) (utf8Decode rest')
            else Throw URIError
        | _ => Throw URIError
        end
      else if (0xE0 <=? b1) && (b1 <? 0xF0) then
        match rest with
        | Octet b2 :: Octet b3 :: rest' =>
            let cp := (b1 - 0xE0) * 4096 + (b2 - 0x80) * 64 + (b3 - 0x80) in
            if isContinuation b2 && isContinuation b3 && (0x800 <=? cp)
               && negb ((0xD800 <=? cp) && (cp <=? 0xDFFF))
            then completion_map (app (utf16 cp)) (utf8Decode rest')
            else Throw URIError
        | _ => Throw URIError
        end
      else if (0xF0 <=? b1) && (b1 <? 0xF8) then
        match rest with
        | Octet b2 :: Octet b3 :: Octet b4 :: rest' =>
            let cp := (b1 - 0xF0) * 262144 + (b2 - 0x80) * 4096
                      + (b3 - 0x80) * 64 + (b4 - 0x80) in
            if isContinuation b2 && isContinuation b3 && isContinuation b4
               && (0x10000 <=? cp) && (cp <=? 0x10FFFF)
            then completion_map (app (utf16 cp)) (utf8Decode rest')
            else Throw URIError
        | _ => Throw URIError
        end
      else Throw URIError
  end.

Definition decodeURIComponent (s : jsstring) : completion jsstring :=
  match tokens s with
  | Normal ts => utf8Decode ts
  | Throw e => Throw e
  end.

End JsString.

Import JsString.

(** ** Regular expressions

    The one pattern of the script, [/^[^\s@]+@[^\s@]+\.[^\s@]+$/], uses
    character classes, concatenation and [+], anchored at both ends and
    without flags, so [test] asks whether the whole string of code units
    belongs to the language of the pattern.  [test] decides that by
    derivatives; [Alt], [Star] and [Void] are there because derivatives of
    [Seq] and [Plus] need them. *)

Module Regex.

Inductive regex : Type :=
  | Void
  | Eps
  | Class (p : unit16 -> bool)
  | Seq (r1 r2 : regex)
  | Alt (r1 r2 : regex)
  | Star (r : regex)
  | Plus (r : regex).

Fixpoint nullable (r : regex) : bool :=
  match r with
  | Void => false
  | Eps => true
  | Class _ => false
  | Seq r1 r2 => nullable r1 && nullable r2
  | Alt r1 r2 => nullable r1 || nullable r2
  | Star _ => true
  | Plus r => nullable r
  end.

Fixpoint derive (u : unit16) (r : regex) : regex :=
  match r with
  | Void => Void
  | Eps => Void
  | Class p => if p u then Eps else Void
  | Seq r1 r2 =>
      if nullable r1 then Alt (Seq (derive u r1) r2) (derive u r2)
      else Seq (derive u r1) r2
  | Alt r1 r2 => Alt (derive u r1) (derive u r2)
  | Star r => Seq (derive u r) (Star r)
  | Plus r => Seq (derive u r) (Star r)
  end.

Fixpoint test (r : regex) (s : jsstring) : bool :=
  match s with
  | [] => nullable r
  | u :: rest => test (derive u r) rest
  end.

(** The language of a pattern. *)

Inductive matches : regex -> jsstring -> Prop :=
  | matches_eps : matches Eps []
  | matches_class p u : p u = true -> matches (Class p) [u]
  | matches_seq r1 r2 s1 s2 :
      matches r1 s1 -> matches r2 s2 -> matches (Seq r1 r2) (s1 ++ s2)
  | matches_alt_l r1 r2 s : matches r1 s -> matches (Alt r1 r2) s
  | matches_alt_r r1 r2 s : matches r2 s -> matches (Alt r1 r2) s
  | matches_star_nil r : matches (Star r) []
  | matches_star_app r s1 s2 :
      matches r s1 -> matches (Star r) s2 -> matches (Star r) (s1 ++ s2)
  | matches_plus r s1 s2 :
      matches r s1 -> matches (Star r) s2 -> matches (Plus r) (s1 ++ s2).

(** [[^\s@]], a literal character, and the pattern of [validateField]. *)

Definition notSpaceOrAt (u : unit16) : bool :=
  negb (isWhiteSpace u || (code u =? 0x40)).

Definition char (c : Z) : regex := Class (fun u => code u =? c).

Definition emailRegex : regex :=
  Seq (Plus (Class notSpaceOrAt))
    (Seq (char 0x40)
       (Seq (Plus (Class notSpaceOrAt))
          (Seq (char 0x2E) (Plus (Class notSpaceOrAt))))).

End Regex.

Import Regex.

(** The pattern as the specification words it: some characters that are
    neither whitespace nor ["@"], then ["@"], then some such characters,
    then ["."], then some such characters; "some" is one or more. *)

Definition plain (s : jsstring) : Prop :=
  s <> [] /\ Forall (fun u => isWhiteSpace u = false /\ code u <> 0x40) s.

Definition email_shaped (s : jsstring) : Prop :=
  exists l d t : jsstring,
    s = l ++ lit "@" ++ d ++ lit "." ++ t /\ plain l /\ plain d /\ plain t.

(** ** The page

    Elements live in a store indexed by identifiers, so that two lookups
    of the script that reach the same element see each other's writes.
    Class tokens and attribute names are the ASCII literals of the script
    and are kept as Rocq strings; attribute values, input values and text
    are JavaScript strings. *)

#[global] Instance byte_eq_decision : EqDecision byte := Byte.byte_eq_dec.

Module Dom.

Abbreviation elem := nat.

Record Element : Type := mkElement {
  classList : gset string;
  attributes : gmap string jsstring;
  value : jsstring;
  textContent : jsstring;
  offsetTop : Z;
  offsetHeight : Z
}.

Definition blank : Element := mkElement ∅ ∅ [] [] 0 0.

Definition with_classList (f : gset string -> gset string) (el : Element) : Element :=
  mkElement (f (classList el)) (attributes el) (value el) (textContent el)
    (offsetTop el) (offsetHeight el).

Definition with_attributes
    (f : gmap string jsstring -> gmap string jsstring) (el : Element) : Element :=
  mkElement (classList el) (f (attributes el)) (value el) (textContent el)
    (offsetTop el) (offsetHeight el).

Definition with_textContent (t : jsstring) (el : Element) : Element :=
  mkElement (classList el) (attributes el) (value el) t
    (offsetTop el) (offsetHeight el).

(** What the script looks up in the document.  The markup is not part of
    the script, so every lookup is a parameter: the elements the
    constants of lines 13-19 are bound to ([None] for [null]), the
    in-page anchors of [setupSmoothScroll], [document.querySelector], the
    form controls of [setupContactForm], the submit button of
    [showFormSuccess], and, for a field, its closest [.form-group]
    ancestor and the first [.form-error] inside a group.  The script
    changes no identifier, no [form-group] or [form-error] class and
    inserts nothing that these selectors match, so the lookups are fixed
    while it runs. *)

Record Document : Type := mkDocument {
  prefersReducedMotion : bool;
  header : option elem;
  menuToggle : option elem;
  mainNav : option elem;
  scrollTopBtn : option elem;
  contactForm : option elem;
  navLinks : list elem;
  animatedElements : list elem;
  anchors : list elem;
  querySelector : jsstring -> completion (option elem);
  nameInput : option elem;
  emailInput : option elem;
  phoneInput : option elem;
  messageInput : option elem;
  submitBtn : option elem;
  closestFormGroup : elem -> option elem;
  formError : elem -> option elem
}.

Inductive ScrollBehavior : Type := BehaviorAuto | BehaviorSmooth.

(** Calls that leave the script, in the order they are made. *)

Inductive Effect : Type :=
  | PreventDefault
  | ScrollTo (top : Z) (behavior : ScrollBehavior)
  | Focus (target : elem)
  | Navigate (href : jsstring)
  | SetTimeout (ms : Z) (notice : nat).

Inductive FrameCallback : Type := UpdateHeader | UpdateScrollTopVisibility.

(** The mutable state: the element store, [document.body.style.overflow],
    the window's scroll offset and viewport height, the closure variables
    of the two scroll watchers, the pending animation-frame callbacks,
    the targets of the intersection observer, the success notices
    inserted so far (true while attached), and the effects. *)

Record State : Type := mkState {
  store : gmap elem Element;
  bodyOverflow : jsstring;
  scrollY : Q;
  innerHeight : Z;
  headerTicking : bool;
  lastScrollY : Q;
  scrollTopTicking : bool;
  frames : list FrameCallback;
  observed : gset elem;
  notices : list bool;
  effects : list Effect
}.

Definition with_store (f : gmap elem Element -> gmap elem Element) (st : State) : State :=
  mkState (f (store st)) (bodyOverflow st) (scrollY st) (innerHeight st)
    (headerTicking st) (lastScrollY st) (scrollTopTicking st) (frames st)
    (observed st) (notices st) (effects st).

Definition with_bodyOverflow (v : jsstring) (st : State) : State :=
  mkState (store st) v (scrollY st) (innerHeight st)
    (headerTicking st) (lastScrollY st) (scrollTopTicking st) (frames st)
    (observed st) (notices st) (effects st).

Definition with_scrollY (y : Q) (st : State) : State :=
  mkState (store st) (bodyOverflow st) y (innerHeight st)
    (headerTicking st) (lastScrollY st) (scrollTopTicking st) (frames st)
    (observed st) (notices st) (effects st).

Definition with_headerTicking (b : bool) (st : State) : State :=
  mkState (store st) (bodyOverflow st) (scrollY st) (innerHeight st)
    b (lastScrollY st) (scrollTopTicking st) (frames st)
    (observed st) (notices st) (effects st).

Definition with_lastScrollY (y : Q) (st : State) : State :=
  mkState (store st) (bodyOverflow st) (scrollY st) (innerHeight st)
    (headerTicking st) y (scrollTopTicking st) (frames st)
    (observed st) (notices st) (effects st).

Definition with_scrollTopTicking (b : bool) (st : State) : State :=
  mkState (store st) (bodyOverflow st) (scrollY st) (innerHeight st)
    (headerTicking st) (lastScrollY st) b (frames st)
    (observed st) (notices st) (effects st).

Definition with_frames (f : list FrameCallback -> list FrameCallback) (st : State) : State :=
  mkState (store st) (bodyOverflow st) (scrollY st) (innerHeight st)
    (headerTicking st) (lastScrollY st) (scrollTopTicking st) (f (frames st))
    (observed st) (notices st) (effects st).

Definition with_observed (f : gset elem -> gset elem) (st : State) : State :=
  mkState (store st) (bodyOverflow st) (scrollY st) (innerHeight st)
    (headerTicking st) (lastScrollY st) (scrollTopTicking st) (frames st)
    (f (observed st)) (notices st) (effects st).

Definition with_notices (f : list bool -> list bool) (st : State) : State :=
  mkState (store st) (bodyOverflow st) (scrollY st) (innerHeight st)
    (headerTicking st) (lastScrollY st) (scrollTopTicking st) (frames st)
    (observed st) (f (notices st)) (effects st).

Definition with_effect (e : Effect) (st : State) : State :=
  mkState (store st) (bodyOverflow st) (scrollY st) (innerHeight st)
    (headerTicking st) (lastScrollY st) (scrollTopTicking st) (frames st)
    (observed st) (notices st) (effects st ++ [e]).

(** *** The monad of listeners: state that survives an exception *)

Definition M (A : Type) : Type := State -> completion A * State.

#[global] Instance M_ret : MRet M := fun A a st => (Normal a, st).

#[global] Instance M_bind : MBind M := fun A B k m st =>
  match m st with
  | (Normal a, st') => k a st'
  | (Throw e, st') => (Throw e, st')
  end.

Definition throw {A} (e : JsError) : M A := fun st => (Throw e, st).

Definition gets {A} (f : State -> A) : M A := fun st => (Normal (f st), st).

Definition modify (f : State -> State) : M unit := fun st => (Normal tt, f st).

Definition lift {A} (c : completion A) : M A := fun st => (c, st).

Definition when (b : bool) (m : M unit) : M unit := if b then m else mret tt.

Fixpoint forEach {A} (l : list A) (f : A -> M unit) : M unit :=
  match l with
  | [] => mret tt
  | a :: rest => f a;; forEach rest f
  end.

(** The state a computation leaves and the completion it ends with. *)

Definition exec {A} (m : M A) (st : State) : State := snd (m st).

Definition outcome {A} (m : M A) (st : State) : completion A := fst (m st).

(** *** Element access *)

(** [x.p] for a lookup [x] of the document: a [TypeError] on [null]. *)

Definition deref (x : option elem) : M elem :=
  match x with
  | Some e => mret e
  | None => throw TypeError
  end.

Definition element (e : elem) (st : State) : Element :=
  default blank (store st !! e).

Definition updated (e : elem) (f : Element -> Element) (st : State) : State :=
  with_store (insert e (f (element e st))) st.

Definition update (e : elem) (f : Element -> Element) : M unit :=
  modify (updated e f).

Definition classList_contains (e : elem) (c : string) : M bool :=
  gets (fun st => bool_decide (c ∈ classList (element e st))).

Definition classList_add (e : elem) (c : string) : M unit :=
  update e (with_classList (fun cs => cs ∪ {[c]})).

Definition classList_remove (e : elem) (c : string) : M unit :=
  update e (with_classList (fun cs => cs ∖ {[c]})).

Definition getAttribute (e : elem) (k : string) : M (option jsstring) :=
  gets (fun st => attributes (element e st) !! k).

Definition hasAttribute (e : elem) (k : string) : M bool :=
  gets (fun st => bool_decide (is_Some (attributes (element e st) !! k))).

Definition setAttribute (e : elem) (k : string) (v : jsstring) : M unit :=
  update e (with_attributes (insert k v)).

Definition setTextContent (e : elem) (t : jsstring) : M unit :=
  update e (with_textContent t).

Definition effect (e : Effect) : M unit := modify (with_effect e).

End Dom.

Import Dom.

(** ** The script

    Each function of [main.js] in source order.  A [setup...] function
    does two things: it acts at once ([start]) and it registers listeners
    ([listeners] gives, for an event, those it registered that the event
    reaches, in registration order).  An event names the element whose
    own listeners run; propagation through ancestors is outside the
    model. *)

Module Script.

Record Entry : Type := mkEntry { target : elem; isIntersecting : bool }.

Inductive Event : Type :=
  | Click (on : elem)
  | KeyDown (key : jsstring)
  | Scroll (y : Q)
  | AnimationFrame
  | Intersect (entries : list Entry)
  | Blur (on : elem)
  | Input (on : elem)
  | Submit (on : elem)
  | Timeout (notice : nat).

Record Component : Type := mkComponent {
  start : M unit;
  listeners : Event -> list (M unit)
}.

Definition idle : Component := mkComponent (mret tt) (fun _ => []).

(** [a > b] on the numbers of the scroll watchers.  A scroll offset is a
    finite double and the viewport height an integer, so the comparison,
    and the halving of the height, are exact on rationals. *)

Definition Qgtb (a b : Q) : bool := negb (Qle_bool a b).

Definition nl : jsstring := [unit_of 0x0A].

Section Script.

Context (doc : Document).

(** [prefersReducedMotion ? 'auto' : 'smooth'] *)

Definition behavior : ScrollBehavior :=
  if prefersReducedMotion doc then BehaviorAuto else BehaviorSmooth.

(** *** Mobile menu (lines 97-119) *)

Definition openMobileMenu : M unit :=
  nav ← deref (mainNav doc);
  classList_add nav "is-open";;
  toggle ← deref (menuToggle doc);
  setAttribute toggle "aria-expanded" (lit "true");;
  setAttribute toggle "aria-label" (lit "Zamknij menu");;
  modify (with_bodyOverflow (lit "hidden")).

Definition closeMobileMenu : M unit :=
  nav ← deref (mainNav doc);
  classList_remove nav "is-open";;
  toggle ← deref (menuToggle doc);
  setAttribute toggle "aria-expanded" (lit "false");;
  setAttribute toggle "aria-label" (lit "Otwórz menu");;
  modify (with_bodyOverflow (lit "")).

Definition toggleMobileMenu : M unit :=
  nav ← deref (mainNav doc);
  isOpen ← classList_contains nav "is-open";
  if isOpen : bool then closeMobileMenu else openMobileMenu.

(** *** Smooth scroll (lines 36-70)

    [getAttribute] gives [null] for a missing attribute, which
    [querySelector] reads as the selector ["null"]. *)

Definition anchorClick (this : elem) : M unit :=
  targetId ← getAttribute this "href";
  if decide (targetId = Some (lit "#")) then
    effect PreventDefault;;
    effect (ScrollTo 0 behavior)
  else
    targetElement ← lift (querySelector doc (default (lit "null") targetId));
    match targetElement : option elem with
    | Some targetElement =>
        effect PreventDefault;;
        nav ← deref (mainNav doc);
        isOpen ← classList_contains nav "is-open";
        when isOpen closeMobileMenu;;
        h ← deref (header doc);
        headerHeight ← gets (fun st => offsetHeight (element h st));
        targetTop ← gets (fun st => offsetTop (element targetElement st));
        let targetPosition := targetTop - headerHeight in
        effect (ScrollTo targetPosition behavior);;
        setAttribute targetElement "tabindex" (lit "-1");;
        effect (Focus targetElement)
    | None => mret tt
    end.

Definition setupSmoothScroll : Component :=
  mkComponent (mret tt) (fun ev =>
    match ev with
    | Click on => if decide (on ∈ anchors doc) then [anchorClick on] else []
    | _ => []
    end).

(** *** Mobile menu wiring (lines 75-95) *)

Definition menuKeydown (key : jsstring) : M unit :=
  if decide (key = lit "Escape") then
    nav ← deref (mainNav doc);
    isOpen ← classList_contains nav "is-open";
    when isOpen closeMobileMenu
  else mret tt.

Definition navLinkClick : M unit :=
  nav ← deref (mainNav doc);
  isOpen ← classList_contains nav "is-open";
  when isOpen closeMobileMenu.

Definition setupMobileMenu : Component :=
  match menuToggle doc, mainNav doc with
  | Some toggle, Some _ =>
      mkComponent (mret tt) (fun ev =>
        match ev with
        | Click on =>
            (if decide (on = toggle) then [toggleMobileMenu] else [])
            ++ (if decide (on ∈ navLinks doc) then [navLinkClick] else [])
        | KeyDown key => [menuKeydown key]
        | _ => []
        end)
  | _, _ => idle
  end.

(** *** Header scroll watcher (lines 124-153) *)

Definition updateHeader : M unit :=
  y ← gets scrollY;
  h ← deref (header doc);
  (if Qgtb y 50 then classList_add h "header--scrolled"
   else classList_remove h "header--scrolled");;
  modify (with_lastScrollY y);;
  modify (with_headerTicking false).

Definition headerScroll : M unit :=
  ticking ← gets headerTicking;
  if negb ticking then
    modify (with_frames (fun q => q ++ [UpdateHeader]));;
    modify (with_headerTicking true)
  else mret tt.

Definition setupHeaderScroll : Component :=
  match header doc with
  | None => idle
  | Some _ =>
      mkComponent
        (y ← gets scrollY;
         modify (with_lastScrollY y);;
         modify (with_headerTicking false);;
         updateHeader)
        (fun ev => match ev with Scroll _ => [headerScroll] | _ => [] end)
  end.

(** *** Scroll-to-top button (lines 158-192) *)

Definition updateScrollTopVisibility : M unit :=
  y ← gets scrollY;
  h ← gets innerHeight;
  let threshold := (inject_Z h * (1 # 2))%Q in
  btn ← deref (scrollTopBtn doc);
  (if Qgtb y threshold then classList_add btn "is-visible"
   else classList_remove btn "is-visible");;
  modify (with_scrollTopTicking false).

Definition scrollTopScroll : M unit :=
  ticking ← gets scrollTopTicking;
  if negb ticking then
    modify (with_frames (fun q => q ++ [UpdateScrollTopVisibility]));;
    modify (with_scrollTopTicking true)
  else mret tt.

Definition scrollTopClick : M unit := effect (ScrollTo 0 behavior).

Definition setupScrollToTop : Component :=
  match scrollTopBtn doc with
  | None => idle
  | Some btn =>
      mkComponent
        (modify (with_scrollTopTicking false);;
         updateScrollTopVisibility)
        (fun ev =>
           match ev with
           | Scroll _ => [scrollTopScroll]
           | Click on => if decide (on = btn) then [scrollTopClick] else []
           | _ => []
           end)
  end.

(** *** Scroll reveal (lines 197-220) *)

Definition observerCallback (entries : list Entry) : M unit :=
  forEach entries (fun entry =>
    if isIntersecting entry then
      classList_add (target entry) "is-visible";;
      modify (with_observed (fun o => o ∖ {[target entry]}))
    else mret tt).

Definition setupScrollAnimations : Component :=
  if prefersReducedMotion doc || (length (animatedElements doc) =? 0)%nat then
    mkComponent
      (forEach (animatedElements doc) (fun el => classList_add el "is-visible"))
      (fun _ => [])
  else
    mkComponent
      (forEach (animatedElements doc) (fun el =>
         modify (with_observed (fun o => o ∪ {[el]}))))
      (fun ev =>
         match ev with
         | Intersect entries => [observerCallback entries]
         | _ => []
         end).

(** *** Contact form (lines 225-379) *)

Definition errorElementOf (field : elem) : option elem :=
  match closestFormGroup doc field with
  | Some formGroup => formError doc formGroup
  | None => None
  end.

Definition showFieldError (field : elem) (message : jsstring) : M unit :=
  let errorElement := errorElementOf field in
  classList_add field "is-invalid";;
  match errorElement with
  | Some errorElement => setTextContent errorElement message
  | None => mret tt
  end.

Definition clearFieldError (field : elem) : M unit :=
  let errorElement := errorElementOf field in
  classList_remove field "is-invalid";;
  match errorElement with
  | Some errorElement => setTextContent errorElement []
  | None => mret tt
  end.

(** The [errorMessage] that lines 284-298 compute from a field. *)

Definition errorMessageOf (el : Element) : jsstring :=
  let value := trim (value el) in
  let fieldName := default [] (attributes el !! "name") in
  if bool_decide (is_Some (attributes el !! "required")) && negb (truthy value)
  then lit "To pole jest wymagane"
  else if bool_decide (fieldName = lit "email") && truthy value then
    if negb (test emailRegex value) then lit "Podaj prawidłowy adres e-mail"
    else []
  else [].

Definition validateField (field : option elem) : M bool :=
  match field with
  | None => mret true
  | Some field =>
      errorMessage ← gets (fun st => errorMessageOf (element field st));
      if truthy errorMessage then
        showFieldError field errorMessage;;
        mret false
      else
        clearFieldError field;;
        mret true
  end.

Definition buildEmailBody (name email phone message : jsstring)
  : completion jsstring :=
  let body := lit "Imię i nazwisko: " ++ name ++ nl in
  let body := body ++ lit "E-mail: " ++ email ++ nl in
  let body := if truthy phone then body ++ lit "Telefon: " ++ phone ++ nl else body in
  let body := body ++ nl ++ lit "Wiadomość:" ++ nl ++ message in
  encodeURIComponent body.

Definition showFormSuccess : M unit :=
  form ← deref (contactForm doc);
  match submitBtn doc with
  | Some _ =>
      i ← gets (fun st => length (notices st));
      modify (with_notices (fun ns => ns ++ [true]));;
      effect (SetTimeout 10000 i)
  | None => mret tt
  end.

Definition removeNotice (i : nat) : M unit :=
  modify (with_notices (fun ns =>
    match ns !! i with
    | Some true => <[i := false]> ns
    | _ => ns
    end)).

Definition trimmedValue (input : option elem) : M jsstring :=
  field ← deref input;
  gets (fun st => trim (value (element field st))).

(** The branch taken when all three fields passed (lines 258-273). *)

Definition openMailClient : M unit :=
  subject ← lift (encodeURIComponent (lit "Zapytanie ze strony ITEasier"));
  name ← trimmedValue (nameInput doc);
  email ← trimmedValue (emailInput doc);
  phone ← match phoneInput doc with
          | Some _ => trimmedValue (phoneInput doc)
          | None => mret []
          end;
  message ← trimmedValue (messageInput doc);
  body ← lift (buildEmailBody name email phone message);
  let mailtoLink :=
    lit "mailto:kontakt@iteasier.pl?subject=" ++ subject ++ lit "&body=" ++ body in
  effect (Navigate mailtoLink);;
  showFormSuccess.

Definition submitListener : M unit :=
  effect PreventDefault;;
  let isValid := true in
  v ← validateField (nameInput doc);
  let isValid := if negb v then false else isValid in
  v ← validateField (emailInput doc);
  let isValid := if negb v then false else isValid in
  v ← validateField (messageInput doc);
  let isValid := if negb v then false else isValid in
  if isValid then openMailClient else mret tt.

Definition blurListener (this : elem) : M unit :=
  validateField (Some this);; mret tt.

Definition inputListener (this : elem) : M unit := clearFieldError this.

Definition setupContactForm : Component :=
  match contactForm doc with
  | None => idle
  | Some form =>
      let inputs :=
        omap id [nameInput doc; emailInput doc; messageInput doc] in
      mkComponent (mret tt) (fun ev =>
        match ev with
        | Blur on =>
            flat_map (fun input =>
              if decide (input = on) then [blurListener on] else []) inputs
        | Input on =>
            flat_map (fun input =>
              if decide (input = on) then [inputListener on] else []) inputs
        | Submit on => if decide (on = form) then [submitListener] else []
        | _ => []
        end)
  end.

(** *** Initialisation (lines 24-31) and the event loop *)

Definition components : list Component :=
  [setupSmoothScroll; setupMobileMenu; setupHeaderScroll; setupScrollToTop;
   setupScrollAnimations; setupContactForm].

Definition init : M unit := forEach components start.

Definition frameCallback (cb : FrameCallback) : M unit :=
  match cb with
  | UpdateHeader => updateHeader
  | UpdateScrollTopVisibility => updateScrollTopVisibility
  end.

(** What the browser does on its own before it calls the script: it has
    moved the scroll offset, it empties the frame queue it is about to
    run. *)

Definition browser (ev : Event) (st : State) : State :=
  match ev with
  | Scroll y => with_scrollY y st
  | AnimationFrame => with_frames (fun _ => []) st
  | _ => st
  end.

Definition callbacks (ev : Event) (st : State) : list (M unit) :=
  match ev with
  | AnimationFrame => map frameCallback (frames st)
  | Timeout i => [removeNotice i]
  | _ => flat_map (fun c => listeners c ev) components
  end.

(** A listener that throws is reported and the next one still runs. *)

Definition runListener (r : list JsError * State) (l : M unit)
  : list JsError * State :=
  match l (snd r) with
  | (Normal _, st) => (fst r, st)
  | (Throw e, st) => (fst r ++ [e], st)
  end.

Definition dispatch (ev : Event) (st : State) : list JsError * State :=
  foldl runListener ([], browser ev st) (callbacks ev st).

Definition run (evs : list Event) (st : State) : list JsError * State :=
  foldl (fun r ev =>
           let r' := dispatch ev (snd r) in (fst r ++ fst r', snd r'))
        ([], st) evs.

End Script.

End Script.

Import Script.

(** ** Vocabulary of the specification *)

(** The three inputs of the mobile menu and the listener each one runs
    (lines 78, 81-85 and 88-94). *)

Inductive MenuInput : Type :=
  | ToggleClick
  | Key (key : jsstring)
  | NavLinkClick.

Definition menuListener (doc : Document) (i : MenuInput) : M unit :=
  match i with
  | ToggleClick => toggleMobileMenu doc
  | Key key => menuKeydown doc key
  | NavLinkClick => navLinkClick doc
  end.

Definition menuRun (doc : Document) (inputs : list MenuInput) (st : State)
  : list JsError * State :=
  foldl runListener ([], st) (map (menuListener doc) inputs).

Definition hasClass (c : string) (e : elem) (st : State) : Prop :=
  c ∈ classList (element e st).

Definition menuOpen (nav : elem) (st : State) : Prop := hasClass "is-open" nav st.

Definition scrollLocked (st : State) : Prop := bodyOverflow st = lit "hidden".

Definition revealed (e : elem) (st : State) : Prop := hasClass "is-visible" e st.

Definition markedInvalid (field : elem) (st : State) : Prop :=
  hasClass "is-invalid" field st.

(** A computation keeps a property of the state: it holds afterwards if
    it held before, whether the computation returns or throws. *)

Definition keeps {A} (P : State -> Prop) (m : M A) : Prop :=
  forall st, P st -> P (snd (m st)).

(** A field is valid when the checks of [validateField] find no error. *)

Definition fieldValid (input : option elem) (st : State) : bool :=
  match input with
  | Some field => negb (truthy (errorMessageOf (element field st)))
  | None => true
  end.

(** The message a field displays: the text of its error container. *)

Definition displays (doc : Document) (field : elem) (message : jsstring)
    (st : State) : Prop :=
  exists e, errorElementOf doc field = Some e /\ textContent (element e st) = message.

(** The field has an error container and neither of the other two inputs
    writes to it. *)

Definition ownContainer (doc : Document) (field : elem) : Prop :=
  is_Some (errorElementOf doc field)
  /\ forall other,
       In (Some other) [nameInput doc; emailInput doc; messageInput doc] ->
       other <> field -> errorElementOf doc other <> errorElementOf doc field.

Definition navigated (href : jsstring) (st : State) : Prop :=
  In (Navigate href) (effects st).

(** The text of the mail as the specification describes it: a labelled
    name line, a labelled e-mail line, a labelled phone line when the
    phone is not empty, and the labelled message. *)

Definition bodyText (name email phone message : jsstring) : jsstring :=
  lit "Imię i nazwisko: " ++ name ++ nl
  ++ lit "E-mail: " ++ email ++ nl
  ++ (if truthy phone then lit "Telefon: " ++ phone ++ nl else [])
  ++ nl ++ lit "Wiadomość:" ++ nl ++ message.

Definition valueOf (input : option elem) (st : State) : jsstring :=
  match input with
  | Some field => trim (value (element field st))
  | None => []
  end.

Definition mailText (doc : Document) (st : State) : jsstring :=
  bodyText (valueOf (nameInput doc) st) (valueOf (emailInput doc) st)
    (valueOf (phoneInput doc) st) (valueOf (messageInput doc) st).

Definition linkPrefix : jsstring :=
  lit "mailto:kontakt@iteasier.pl?subject=Zapytanie%20ze%20strony%20ITEasier&body=".

(** A submit opens the mail client on a link whose body is the
    percent-encoding of the mail text and decodes back to it. *)

Definition opensMail (doc : Document) (st : State) : Prop :=
  exists body,
    navigated (linkPrefix ++ body) (exec (submitListener doc) st)
    /\ encodeURIComponent (mailText doc st) = Normal body
    /\ decodeURIComponent body = Normal (mailText doc st).

(** The state in which the submit listener takes its decision: the
    default action prevented and the three fields validated in turn. *)

Definition validated (doc : Document) (st : State) : State :=
  exec (validateField doc (messageInput doc))
    (exec (validateField doc (emailInput doc))
       (exec (validateField doc (nameInput doc))
          (with_effect PreventDefault st))).

Definition allPresent (doc : Document) : Prop :=
  is_Some (nameInput doc) /\ is_Some (emailInput doc) /\ is_Some (messageInput doc).

Definition allValid (doc : Document) (st : State) : Prop :=
  fieldValid (nameInput doc) st = true
  /\ fieldValid (emailInput doc) st = true
  /\ fieldValid (messageInput doc) st = true.

(** After a submit that started in [st], the field shows the verdict on
    it: the marker exactly when it failed and, when it has a container
    that is only its own, its message there (the empty text if it
    passed). *)

Definition settled (doc : Document) (st : State) (field : elem) (s : State)
  : Prop :=
  (markedInvalid field s <-> fieldValid (Some field) st = false)
  /\ (ownContainer doc field ->
      displays doc field (errorMessageOf (element field st)) s).

(** *** Three statements of the specification, word for word

    Each is met on pages and inputs like the sample below and missed on
    others; the properties at the end of the file say where. *)

(** "Whenever the three fields validate, the link's decoded body is the
    mail text."  The words ask for no more than the three verdicts, and
    [validateField] passes an input the page has not. *)

Definition mailClaim (doc : Document) (st : State) : Prop :=
  allValid doc st -> opensMail doc st.

(** "An invalid field carries an error marker and its message, a valid
    field carries none." *)

Definition carriesError (doc : Document) (field : elem) (message : jsstring)
    (st : State) : Prop :=
  markedInvalid field st /\ displays doc field message st.

Definition carriesNothing (doc : Document) (field : elem) (st : State) : Prop :=
  ~ markedInvalid field st
  /\ forall e, errorElementOf doc field = Some e -> textContent (element e st) = [].

Definition invalidSubmitClaim (doc : Document) (st : State) : Prop :=
  ~ allValid doc st ->
  let st' := exec (submitListener doc) st in
  effects st' = effects st ++ [PreventDefault]
  /\ notices st' = notices st
  /\ forall f,
       In (Some f) [nameInput doc; emailInput doc; messageInput doc] ->
       if fieldValid (Some f) st then carriesNothing doc f st'
       else carriesError doc f (errorMessageOf (element f st)) st'.

(** "A required field that is empty when blurred is marked invalid with
    the required message." *)


(** *** Further vocabulary *)

(** A computation returns: from no state does it throw. *)

Definition returns {A} (m : M A) : Prop :=
  forall st, exists a, fst (m st) = Normal a.

(** What the toggle and the body say when the panel is open, and when it
    is closed. *)

Definition shownOpen (toggle : elem) (st : State) : Prop :=
  attributes (element toggle st) !! "aria-expanded" = Some (lit "true")
  /\ attributes (element toggle st) !! "aria-label" = Some (lit "Zamknij menu")
  /\ bodyOverflow st = lit "hidden".

Definition shownClosed (toggle : elem) (st : State) : Prop :=
  attributes (element toggle st) !! "aria-expanded" = Some (lit "false")
  /\ attributes (element toggle st) !! "aria-label" = Some (lit "Otwórz menu")
  /\ bodyOverflow st = [].

Definition menuMirrored (toggle nav : elem) (st : State) : Prop :=
  (menuOpen nav st -> shownOpen toggle st)
  /\ (~ menuOpen nav st -> shownClosed toggle st).

(** A recomputation is pending when it sits in the frame queue.  The
    queue is coalesced when it holds each recomputation at most once,
    each watcher's [ticking] flag says whether its recomputation is
    pending, and only watchers that exist have one pending. *)

Definition pending (cb : FrameCallback) (st : State) : Prop := In cb (frames st).

Definition coalesced (doc : Document) (st : State) : Prop :=
  NoDup (frames st)
  /\ (headerTicking st = true <-> pending UpdateHeader st)
  /\ (scrollTopTicking st = true <-> pending UpdateScrollTopVisibility st)
  /\ (pending UpdateHeader st -> is_Some (header doc))
  /\ (pending UpdateScrollTopVisibility st -> is_Some (scrollTopBtn doc)).

(** Every scroll asked for so far has the behaviour the motion
    preference allows. *)

Definition allowed (doc : Document) (x : Effect) : Prop :=
  forall top b, x = ScrollTo top b -> b = behavior doc.

Definition gentle (doc : Document) (st : State) : Prop :=
  forall x, In x (effects st) -> allowed doc x.

(** A code unit that may stand in a URI component as it is, or the
    percent sign of an escape. *)

Definition urlSafe (u : unit16) : Prop :=
  uriUnescaped (code u) = true \/ code u = 0x25.

(** The inputs the form validates: those of the three that exist. *)

Definition validatedInputs (doc : Document) : list elem :=
  omap id [nameInput doc; emailInput doc; messageInput doc].

(** The targets a batch of intersection entries reports as visible. *)

Definition intersecting (entries : list Entry) : list elem :=
  map target (List.filter isIntersecting entries).

(** An event is guarded when it is neither a click on an in-page link nor
    a submit of the form: every listener it reaches was registered by a
    set-up function that first tested for the elements the listener
    uses. *)

Definition guarded (doc : Document) (ev : Event) : Prop :=
  match ev with
  | Click on => on ∉ anchors doc
  | Submit on => contactForm doc <> Some on
  | _ => True
  end.

(** ** A sample page

    Header 1, menu toggle 2, navigation panel 3, scroll-top button 4, the
    form 5 with inputs 6 to 9 and submit button 10, form groups 11 to 14
    with error containers 31 to 34, navigation links 20 and 21, a section
    30 reached by ["#kontakt"], animated elements 40 and 41. *)

Module Sample.

Definition field (name : string) (required : bool) (v : jsstring) : Element :=
  mkElement ∅
    (if required then <["required" := []]> {["name" := lit name]}
     else {["name" := lit name]})
    v [] 0 0.

Definition anchor (href : string) : Element :=
  mkElement ∅ {["href" := lit href]} [] [] 0 0.

Definition block (top height : Z) : Element := mkElement ∅ ∅ [] [] top height.

Definition pageWith (hdr nav name : option elem) (group : elem -> option elem)
  : Document :=
  {| prefersReducedMotion := false;
     header := hdr;
     menuToggle := Some 2%nat;
     mainNav := nav;
     scrollTopBtn := Some 4%nat;
     contactForm := Some 5%nat;
     navLinks := [20; 21]%nat;
     animatedElements := [40; 41]%nat;
     anchors := [20; 21]%nat;
     querySelector := fun selector =>
       if decide (selector = lit "#kontakt") then Normal (Some 30%nat)
       else Normal None;
     nameInput := name;
     emailInput := Some 7%nat;
     phoneInput := Some 8%nat;
     messageInput := Some 9%nat;
     submitBtn := Some 10%nat;
     closestFormGroup := group;
     formError := fun g => Some (g + 20)%nat |}.

(** Every input in a form group of its own; no form groups at all; the
    four inputs in one group. *)

Definition ownGroup (f : elem) : option elem :=
  if bool_decide (f ∈ [6; 7; 8; 9]%nat) then Some (f + 5)%nat else None.

Definition noGroup (f : elem) : option elem := None.

Definition oneGroup (f : elem) : option elem := Some 11%nat.

Definition page : Document :=
  pageWith (Some 1%nat) (Some 3%nat) (Some 6%nat) ownGroup.

(** The same page without form groups, with one form group for all
    inputs, without the navigation panel, without the header, and without
    the name input. *)

Definition bare : Document :=
  pageWith (Some 1%nat) (Some 3%nat) (Some 6%nat) noGroup.

Definition shared : Document :=
  pageWith (Some 1%nat) (Some 3%nat) (Some 6%nat) oneGroup.

Definition noPanel : Document := pageWith (Some 1%nat) None (Some 6%nat) ownGroup.

Definition noHeader : Document := pageWith None (Some 3%nat) (Some 6%nat) ownGroup.

Definition noName : Document := pageWith (Some 1%nat) (Some 3%nat) None ownGroup.

Definition filled (name email phone message : jsstring) : State :=
  {| store :=
       list_to_map
         [(1%nat, block 0 80); (20%nat, anchor "#kontakt"); (21%nat, anchor "#");
          (30%nat, block 1200 600);
          (6%nat, field "name" true name); (7%nat, field "email" true email);
          (8%nat, field "phone" false phone);
          (9%nat, field "message" true message)];
     bodyOverflow := [];
     scrollY := 0;
     innerHeight := 800;
     headerTicking := false;
     lastScrollY := 0;
     scrollTopTicking := false;
     frames := [];
     observed := ∅;
     notices := [];
     effects := [] |}.

Definition loaded : State := filled [] [] [] [].

End Sample.

(* ================================================================= *)
(** * Properties *)

(** ** Sanity checks of the string primitives *)

Example lit_bmp : map code (lit "ę@ł") = [0x119; 0x40; 0x142].
Proof. reflexivity. Qed.

Example trim_both : trim (lit "  Jan Kowalski 	") = lit "Jan Kowalski".
Proof. reflexivity. Qed.

Example encode_greeting :
  encodeURIComponent (lit "Cześć, a b") = Normal (lit "Cze%C5%9B%C4%87%2C%20a%20b").
Proof. reflexivity. Qed.

Example decode_greeting :
  decodeURIComponent (lit "Cze%C5%9B%c4%87%2C%20a%20b") = Normal (lit "Cześć, a b").
Proof. reflexivity. Qed.

Example encode_lone_surrogate :
  encodeURIComponent [unit_of 0xD83D] = Throw URIError.
Proof. reflexivity. Qed.

Example encode_pair :
  encodeURIComponent [unit_of 0xD83D; unit_of 0xDE00] = Normal (lit "%F0%9F%98%80").
Proof. reflexivity. Qed.

(** ** Code units and bytes *)

Section CodeUnits.

Lemma byte_bounds (b : byte) : 0 <= Z.of_N (Byte.to_N b) < 256.
Proof. pose proof (Byte.to_N_bounded b). lia. Qed.

Lemma byte_of_Z_value (n : Z) : Z.of_N (Byte.to_N (byte_of_Z n)) = n mod 256.
Proof.
  unfold byte_of_Z.
  assert (Hr : 0 <= n mod 256 < 256) by (apply Z.mod_pos_bound; lia).
  pose proof (Byte.to_of_N_option_map (Z.to_N (n mod 256))) as Hm.
  destruct (Byte.of_N (Z.to_N (n mod 256))) as [b|]; simpl in Hm.
  - destruct (Z.to_N (n mod 256) <=? 255)%N; [|discriminate].
    injection Hm as ->. lia.
  - destruct (N.leb_spec (Z.to_N (n mod 256)) 255); [discriminate | lia].
Qed.

Lemma byte_of_Z_to_N (b : byte) : byte_of_Z (Z.of_N (Byte.to_N b)) = b.
Proof.
  unfold byte_of_Z. pose proof (byte_bounds b).
  rewrite Z.mod_small, N2Z.id, Byte.of_to_N by lia. reflexivity.
Qed.

Lemma code_range (u : unit16) : 0 <= code u < 65536.
Proof.
  destruct u as [h l]. unfold code; simpl.
  pose proof (byte_bounds h). pose proof (byte_bounds l). lia.
Qed.

Lemma code_unit_of (n : Z) : 0 <= n < 65536 -> code (unit_of n) = n.
Proof.
  intros Hn. unfold code, unit_of; simpl. rewrite !byte_of_Z_value.
  Z.div_mod_to_equations. lia.
Qed.

Lemma unit_of_code (u : unit16) : unit_of (code u) = u.
Proof.
  destruct u as [h l]. unfold unit_of, code; simpl.
  pose proof (byte_bounds h) as Hh. pose proof (byte_bounds l) as Hl.
  f_equal.
  - replace ((256 * Z.of_N (Byte.to_N h) + Z.of_N (Byte.to_N l)) / 256)
      with (Z.of_N (Byte.to_N h)) by (Z.div_mod_to_equations; lia).
    apply byte_of_Z_to_N.
  - rewrite <- (byte_of_Z_to_N l) at 2. unfold byte_of_Z.
    replace ((256 * Z.of_N (Byte.to_N h) + Z.of_N (Byte.to_N l)) mod 256)
      with (Z.of_N (Byte.to_N l) mod 256) by (Z.div_mod_to_equations; lia).
    reflexivity.
Qed.

Lemma code_inj (u v : unit16) : code u = code v -> u = v.
Proof. intros H. rewrite <- (unit_of_code u), <- (unit_of_code v), H. reflexivity. Qed.

End CodeUnits.

(** ** Percent-encoding round trip *)

Ltac bool_arith :=
  rewrite ?andb_true_iff, ?orb_true_iff, ?negb_true_iff, ?andb_false_iff,
    ?orb_false_iff, ?negb_false_iff, ?Z.ltb_lt, ?Z.leb_le, ?Z.eqb_eq,
    ?Z.ltb_ge, ?Z.leb_gt, ?Z.eqb_neq in *.

Ltac arith := bool_arith; Z.div_mod_to_equations; lia.

Ltac decide_test :=
  match goal with
  | |- context [if ?c then _ else _] =>
      first [ replace c with true by (symmetry; arith)
            | replace c with false by (symmetry; arith) ]
  end.

Section RoundTrip.

Lemma list_pair_ind {A} (P : list A -> Prop) :
  P [] ->
  (forall a, P [a]) ->
  (forall a b l, P l -> P (b :: l) -> P (a :: b :: l)) ->
  forall l, P l.
Proof.
  intros Hnil Hone Hstep l.
  enough (P l /\ forall a, P (a :: l)) by tauto.
  induction l as [|b l [IH1 IH2]]; split; auto.
Qed.

Lemma completion_map_compose {A B C} (f : A -> B) (g : B -> C) c :
  completion_map g (completion_map f c) = completion_map (fun a => g (f a)) c.
Proof. destruct c; reflexivity. Qed.

Lemma completion_map_ext {A B} (f g : A -> B) c :
  (forall a, f a = g a) -> completion_map f c = completion_map g c.
Proof. intros H. destruct c; simpl; [rewrite H|]; reflexivity. Qed.

Lemma hexValue_hexDigit (n : Z) : 0 <= n < 16 -> hexValue (hexDigit n) = Some n.
Proof.
  intros Hn. unfold hexValue, hexDigit.
  destruct (Z.ltb_spec n 10); rewrite code_unit_of by lia.
  - decide_test. f_equal. lia.
  - do 2 decide_test. f_equal. lia.
Qed.

Lemma tokens_percent (b : Z) (s : jsstring) :
  0 <= b < 256 ->
  tokens (percent b ++ s) = completion_map (cons (Octet b)) (tokens s).
Proof.
  intros Hb. unfold percent. cbn [app tokens].
  change (code (unit_of 37) =? 37) with true. cbv iota.
  rewrite !hexValue_hexDigit by arith.
  replace (16 * (b / 16) + b mod 16) with b by arith. reflexivity.
Qed.

Lemma tokens_escape (cp : Z) (s : jsstring) :
  0 <= cp <= 0x10FFFF ->
  tokens (escape cp ++ s) = completion_map (app (map Octet (utf8 cp))) (tokens s).
Proof.
  intros Hcp. unfold escape, utf8.
  destruct (Z.ltb_spec cp 0x80); [|destruct (Z.ltb_spec cp 0x800);
    [|destruct (Z.ltb_spec cp 0x10000)]];
    cbn [flat_map map]; rewrite <- ?app_assoc;
    rewrite ?tokens_percent by arith; cbn [app];
    rewrite ?tokens_percent by arith;
    rewrite ?completion_map_compose; reflexivity.
Qed.

Lemma utf8Decode_utf8 (cp : Z) (ts : list token) :
  scalar cp ->
  utf8Decode (map Octet (utf8 cp) ++ ts)
  = completion_map (app (utf16 cp)) (utf8Decode ts).
Proof.
  intros [Hcp Hs]. unfold utf8.
  destruct (Z.ltb_spec cp 0x80); [|destruct (Z.ltb_spec cp 0x800);
    [|destruct (Z.ltb_spec cp 0x10000)]]; cbn [map app utf8Decode].
  - decide_test. unfold utf16. decide_test. reflexivity.
  - do 2 decide_test.
    replace ((0xC0 + cp / 64 - 0xC0) * 64 + (0x80 + cp mod 64 - 0x80))
      with cp by arith.
    unfold isContinuation. decide_test. reflexivity.
  - do 3 decide_test.
    replace ((0xE0 + cp / 4096 - 0xE0) * 4096
             + (0x80 + (cp / 64) mod 64 - 0x80) * 64 + (0x80 + cp mod 64 - 0x80))
      with cp by arith.
    unfold isContinuation. decide_test. reflexivity.
  - do 4 decide_test.
    replace ((0xF0 + cp / 262144 - 0xF0) * 262144
             + (0x80 + (cp / 4096) mod 64 - 0x80) * 4096
             + (0x80 + (cp / 64) mod 64 - 0x80) * 64 + (0x80 + cp mod 64 - 0x80))
      with cp by arith.
    unfold isContinuation. decide_test. reflexivity.
Qed.

Lemma decode_escape (cp : Z) (e : jsstring) :
  scalar cp ->
  decodeURIComponent (escape cp ++ e)
  = completion_map (app (utf16 cp)) (decodeURIComponent e).
Proof.
  intros Hcp. unfold decodeURIComponent.
  rewrite tokens_escape by (destruct Hcp; lia).
  destruct (tokens e) as [ts|]; simpl; [|reflexivity].
  apply utf8Decode_utf8, Hcp.
Qed.

Lemma decode_unescaped (u : unit16) (e : jsstring) :
  uriUnescaped (code u) = true ->
  decodeURIComponent (u :: e) = completion_map (cons u) (decodeURIComponent e).
Proof.
  intros Hu. unfold decodeURIComponent. cbn [tokens].
  replace (code u =? 37) with false
    by (symmetry; unfold uriUnescaped, isAlpha, isDigit, isMark in Hu; arith).
  destruct (tokens e); reflexivity.
Qed.

Lemma utf16_unit (u : unit16) : utf16 (code u) = [u].
Proof.
  unfold utf16. pose proof (code_range u).
  decide_test. rewrite unit_of_code. reflexivity.
Qed.

Lemma utf16_pair (h l : unit16) :
  isHighSurrogate (code h) = true -> isLowSurrogate (code l) = true ->
  utf16 (pairCodePoint (code h) (code l)) = [h; l].
Proof.
  unfold isHighSurrogate, isLowSurrogate, utf16, pairCodePoint. intros Hh Hl.
  decide_test.
  replace (0xD800 + ((code h - 0xD800) * 0x400 + (code l - 0xDC00) + 0x10000 - 0x10000) / 0x400)
    with (code h) by arith.
  replace (0xDC00 + ((code h - 0xD800) * 0x400 + (code l - 0xDC00) + 0x10000 - 0x10000) mod 0x400)
    with (code l) by arith.
  rewrite !unit_of_code. reflexivity.
Qed.

Lemma scalar_pair (h l : Z) :
  isHighSurrogate h = true -> isLowSurrogate l = true -> scalar (pairCodePoint h l).
Proof. unfold isHighSurrogate, isLowSurrogate, scalar, pairCodePoint. arith. Qed.

Lemma scalar_unit (u : unit16) :
  isHighSurrogate (code u) = false -> isLowSurrogate (code u) = false ->
  scalar (code u).
Proof.
  pose proof (code_range u).
  unfold isHighSurrogate, isLowSurrogate, scalar. arith.
Qed.

(** Whatever [encodeURIComponent] returns, [decodeURIComponent] reads back. *)

Lemma decode_encode (s e : jsstring) :
  encodeURIComponent s = Normal e -> decodeURIComponent e = Normal s.
Proof.
  revert e. induction s as [|u|u l s IH1 IH2] using list_pair_ind; intros e.
  - simpl. intros [= <-]. reflexivity.
  - cbn [encodeURIComponent].
    destruct (uriUnescaped (code u)) eqn:Hu.
    + intros [= <-]. rewrite decode_unescaped by assumption. reflexivity.
    + destruct (isHighSurrogate (code u)) eqn:Hh; [discriminate|].
      destruct (isLowSurrogate (code u)) eqn:Hl; [discriminate|].
      intros [= <-]. rewrite decode_escape by (apply scalar_unit; assumption).
      simpl. rewrite utf16_unit. reflexivity.
  - change (encodeURIComponent (u :: l :: s)) with
      (let c := code u in
       if uriUnescaped c then completion_map (cons u) (encodeURIComponent (l :: s))
       else if isHighSurrogate c then
         if isLowSurrogate (code l) then
           completion_map (app (escape (pairCodePoint c (code l))))
             (encodeURIComponent s)
         else Throw URIError
       else if isLowSurrogate c then Throw URIError
       else completion_map (app (escape c)) (encodeURIComponent (l :: s))).
    cbv zeta.
    destruct (uriUnescaped (code u)) eqn:Hu.
    + destruct (encodeURIComponent (l :: s)) as [e'|] eqn:He; [|discriminate].
      intros [= <-]. rewrite decode_unescaped, (IH2 e') by auto. reflexivity.
    + destruct (isHighSurrogate (code u)) eqn:Hh.
      * destruct (isLowSurrogate (code l)) eqn:Hl; [|discriminate].
        destruct (encodeURIComponent s) as [e'|] eqn:He; [|discriminate].
        intros [= <-].
        rewrite decode_escape, (IH1 e') by (auto using scalar_pair).
        simpl. rewrite utf16_pair by assumption. reflexivity.
      * destruct (isLowSurrogate (code u)) eqn:Hl; [discriminate|].
        destruct (encodeURIComponent (l :: s)) as [e'|] eqn:He; [|discriminate].
        intros [= <-].
        rewrite decode_escape, (IH2 e') by (auto using scalar_unit).
        simpl. rewrite utf16_unit. reflexivity.
Qed.

(** [encodeURIComponent] returns exactly on the well-formed strings. *)

Lemma encode_well_formed (s : jsstring) :
  isWellFormed s = true <-> exists e, encodeURIComponent s = Normal e.
Proof.
  induction s as [|u|u l s IH1 IH2] using list_pair_ind.
  - simpl. split; eauto.
  - cbn [encodeURIComponent isWellFormed].
    destruct (uriUnescaped (code u)) eqn:Hu.
    + replace (isHighSurrogate (code u)) with false
        by (symmetry; unfold uriUnescaped, isAlpha, isDigit, isMark, isHighSurrogate in *; arith).
      replace (isLowSurrogate (code u)) with false
        by (symmetry; unfold uriUnescaped, isAlpha, isDigit, isMark, isLowSurrogate in *; arith).
      simpl. split; eauto.
    + destruct (isHighSurrogate (code u)); [split; [discriminate|intros [? [=]]]|].
      destruct (isLowSurrogate (code u)); simpl; split; eauto; try discriminate.
      intros [? [=]].
  - change (isWellFormed (u :: l :: s)) with
      (if isHighSurrogate (code u)
       then isLowSurrogate (code l) && isWellFormed s
       else negb (isLowSurrogate (code u)) && isWellFormed (l :: s)).
    change (encodeURIComponent (u :: l :: s)) with
      (let c := code u in
       if uriUnescaped c then completion_map (cons u) (encodeURIComponent (l :: s))
       else if isHighSurrogate c then
         if isLowSurrogate (code l) then
           completion_map (app (escape (pairCodePoint c (code l))))
             (encodeURIComponent s)
         else Throw URIError
       else if isLowSurrogate c then Throw URIError
       else completion_map (app (escape c)) (encodeURIComponent (l :: s))).
    cbv zeta.
    destruct (uriUnescaped (code u)) eqn:Hu.
    + replace (isHighSurrogate (code u)) with false
        by (symmetry; unfold uriUnescaped, isAlpha, isDigit, isMark, isHighSurrogate in *; arith).
      replace (isLowSurrogate (code u)) with false
        by (symmetry; unfold uriUnescaped, isAlpha, isDigit, isMark, isLowSurrogate in *; arith).
      cbn [negb andb]. rewrite IH2.
      destruct (encodeURIComponent (l :: s)); cbn [completion_map];
        split; eauto; intros [? [=]].
    + destruct (isHighSurrogate (code u)).
      * destruct (isLowSurrogate (code l)); cbn [andb];
          [|split; [discriminate|intros [? [=]]]].
        rewrite IH1.
        destruct (encodeURIComponent s); cbn [completion_map];
          split; eauto; intros [? [=]].
      * destruct (isLowSurrogate (code u)); cbn [negb andb];
          [split; [discriminate|intros [? [=]]]|].
        rewrite IH2.
        destruct (encodeURIComponent (l :: s)); cbn [completion_map];
          split; eauto; intros [? [=]].
Qed.

Lemma isWellFormed_app (a b : jsstring) :
  isWellFormed a = true -> isWellFormed b = true -> isWellFormed (a ++ b) = true.
Proof.
  intros Ha Hb. revert Ha.
  induction a as [|u|u l a IH1 IH2] using list_pair_ind.
  - auto.
  - cbn [isWellFormed app].
    destruct (isHighSurrogate (code u)); [discriminate|].
    rewrite andb_true_r. intros ->.
    destruct b; [reflexivity|]. simpl. exact Hb.
  - change (isWellFormed (u :: l :: a)) with
      (if isHighSurrogate (code u)
       then isLowSurrogate (code l) && isWellFormed a
       else negb (isLowSurrogate (code u)) && isWellFormed (l :: a)).
    change (isWellFormed ((u :: l :: a) ++ b)) with
      (if isHighSurrogate (code u)
       then isLowSurrogate (code l) && isWellFormed (a ++ b)
       else negb (isLowSurrogate (code u)) && isWellFormed ((l :: a) ++ b)).
    destruct (isHighSurrogate (code u)); rewrite !andb_true_iff;
      intros [? ?]; split; auto.
Qed.

(** On the other strings it throws [URIError]. *)

Lemma encode_throws s :
  isWellFormed s = false -> encodeURIComponent s = Throw URIError.
Proof.
  induction s as [|u|u l s IH1 IH2] using list_pair_ind.
  - discriminate.
  - cbn [encodeURIComponent isWellFormed].
    destruct (uriUnescaped (code u)) eqn:Hu.
    + replace (isHighSurrogate (code u)) with false
        by (symmetry; unfold uriUnescaped, isAlpha, isDigit, isMark, isHighSurrogate in *; arith).
      replace (isLowSurrogate (code u)) with false
        by (symmetry; unfold uriUnescaped, isAlpha, isDigit, isMark, isLowSurrogate in *; arith).
      discriminate.
    + destruct (isHighSurrogate (code u)); [reflexivity|].
      destruct (isLowSurrogate (code u)); [reflexivity | discriminate].
  - intros Hw. destruct (encodeURIComponent (u :: l :: s)) as [e|err] eqn:He.
    + assert (isWellFormed (u :: l :: s) = true)
        by (apply encode_well_formed; eauto).
      congruence.
    + revert He.
      change (encodeURIComponent (u :: l :: s)) with
        (let c := code u in
         if uriUnescaped c then completion_map (cons u) (encodeURIComponent (l :: s))
         else if isHighSurrogate c then
           if isLowSurrogate (code l) then
             completion_map (app (escape (pairCodePoint c (code l))))
               (encodeURIComponent s)
           else Throw URIError
         else if isLowSurrogate c then Throw URIError
         else completion_map (app (escape c)) (encodeURIComponent (l :: s))).
      cbv zeta.
      assert (H2 : forall f : jsstring -> jsstring,
                 completion_map f (encodeURIComponent (l :: s)) = Throw err ->
                 err = URIError).
      { intros f Hf. destruct (encodeURIComponent (l :: s)) as [|e2] eqn:E2;
          [discriminate|]. injection Hf as <-.
        destruct (isWellFormed (l :: s)) eqn:W2.
        - apply encode_well_formed in W2 as [? W2]. congruence.
        - specialize (IH2 eq_refl). congruence. }
      assert (H1 : forall f : jsstring -> jsstring,
                 completion_map f (encodeURIComponent s) = Throw err ->
                 err = URIError).
      { intros f Hf. destruct (encodeURIComponent s) as [|e1] eqn:E1;
          [discriminate|]. injection Hf as <-.
        destruct (isWellFormed s) eqn:W1.
        - apply encode_well_formed in W1 as [? W1]. congruence.
        - specialize (IH1 eq_refl). congruence. }
      destruct (uriUnescaped (code u)); [intros Hf; f_equal; eapply H2, Hf|].
      destruct (isHighSurrogate (code u)).
      * destruct (isLowSurrogate (code l)); [|congruence].
        intros Hf; f_equal; eapply H1, Hf.
      * destruct (isLowSurrogate (code u)); [congruence|].
        intros Hf; f_equal; eapply H2, Hf.
Qed.

End RoundTrip.

(** ** The matcher decides the language of a pattern *)

Section RegexFacts.

Lemma matches_void_inv s : ~ matches Void s.
Proof. intros H. inversion H. Qed.

Lemma matches_eps_inv s : matches Eps s -> s = [].
Proof. intros H. inversion H. reflexivity. Qed.

Lemma matches_class_inv p s :
  matches (Class p) s -> exists u, s = [u] /\ p u = true.
Proof. intros H. inversion H; subst. eauto. Qed.

Lemma matches_seq_inv r1 r2 s :
  matches (Seq r1 r2) s ->
  exists s1 s2, s = s1 ++ s2 /\ matches r1 s1 /\ matches r2 s2.
Proof. intros H. inversion H; subst. eauto. Qed.

Lemma matches_alt_inv r1 r2 s :
  matches (Alt r1 r2) s -> matches r1 s \/ matches r2 s.
Proof. intros H. inversion H; subst; auto. Qed.

Lemma matches_plus_inv r s :
  matches (Plus r) s ->
  exists s1 s2, s = s1 ++ s2 /\ matches r s1 /\ matches (Star r) s2.
Proof. intros H. inversion H; subst. eauto. Qed.

(** A non-empty word of a starred language starts with a non-empty word
    of the language. *)

Lemma matches_star_cons_inv r u s :
  matches (Star r) (u :: s) ->
  exists s1 s2, s = s1 ++ s2 /\ matches r (u :: s1) /\ matches (Star r) s2.
Proof.
  intros H. remember (Star r) as r' eqn:Hr. remember (u :: s) as w eqn:Hw.
  revert u s Hw.
  induction H as [| | | | | |r0 s1 s2 H1 _ H2 IH2|]; intros v t Hw;
    try discriminate.
  injection Hr as ->. destruct s1 as [|w s1]; simpl in Hw.
  - apply IH2; auto.
  - injection Hw as -> <-. eauto.
Qed.

Lemma nullable_spec r : nullable r = true <-> matches r [].
Proof.
  induction r as [| |p|r1 IH1 r2 IH2|r1 IH1 r2 IH2|r IH|r IH]; simpl.
  - split; [discriminate | intros H; inversion H].
  - split; [constructor | reflexivity].
  - split; [discriminate | intros H; inversion H].
  - rewrite andb_true_iff, IH1, IH2. split.
    + intros [H1 H2]. change (@nil unit16) with (@nil unit16 ++ []).
      constructor; assumption.
    + intros H. apply matches_seq_inv in H as (s1 & s2 & Hs & H1 & H2).
      symmetry in Hs. apply app_eq_nil in Hs as [-> ->]. auto.
  - rewrite orb_true_iff, IH1, IH2. split.
    + intros [H|H]; [apply matches_alt_l | apply matches_alt_r]; assumption.
    + apply matches_alt_inv.
  - split; [constructor | reflexivity].
  - rewrite IH. split.
    + intros H. change (@nil unit16) with (@nil unit16 ++ []).
      constructor; [assumption | constructor].
    + intros H. apply matches_plus_inv in H as (s1 & s2 & Hs & H1 & H2).
      symmetry in Hs. apply app_eq_nil in Hs as [-> ->]. assumption.
Qed.

Lemma derive_spec u r s : matches (derive u r) s <-> matches r (u :: s).
Proof.
  revert s.
  induction r as [| |p|r1 IH1 r2 IH2|r1 IH1 r2 IH2|r IH|r IH]; intros s; simpl.
  - split; intros H; inversion H.
  - split; intros H; inversion H.
  - destruct (p u) eqn:Hp; split; intros H.
    + apply matches_eps_inv in H as ->. constructor. assumption.
    + apply matches_class_inv in H as (v & [= <- ->] & _). constructor.
    + inversion H.
    + apply matches_class_inv in H as (v & [= <- ->] & Hv). congruence.
  - assert (Hseq : matches (Seq (derive u r1) r2) s ->
                   matches (Seq r1 r2) (u :: s)).
    { intros H. apply matches_seq_inv in H as (s1 & s2 & -> & H1 & H2).
      change (u :: s1 ++ s2) with ((u :: s1) ++ s2).
      constructor; [apply IH1|]; assumption. }
    assert (Hinv : matches (Seq r1 r2) (u :: s) ->
                   matches (Seq (derive u r1) r2) s
                   \/ (matches r1 [] /\ matches r2 (u :: s))).
    { intros H. apply matches_seq_inv in H as (s1 & s2 & Hs & H1 & H2).
      destruct s1 as [|v s1]; simpl in Hs.
      - subst s2. auto.
      - injection Hs as <- ->. left. constructor; [apply IH1|]; assumption. }
    destruct (nullable r1) eqn:Hn; split; intros H.
    + apply matches_alt_inv in H as [H|H]; [auto|].
      change (u :: s) with ([] ++ u :: s).
      constructor; [apply nullable_spec | apply IH2]; assumption.
    + destruct (Hinv H) as [H'|[_ H']];
        [apply matches_alt_l | apply matches_alt_r, IH2]; assumption.
    + auto.
    + destruct (Hinv H) as [H'|[H' _]]; [assumption|].
      apply nullable_spec in H'. congruence.
  - split; intros H.
    + apply matches_alt_inv in H as [H|H];
        [apply matches_alt_l, IH1 | apply matches_alt_r, IH2]; assumption.
    + apply matches_alt_inv in H as [H|H];
        [apply matches_alt_l, IH1 | apply matches_alt_r, IH2]; assumption.
  - split; intros H.
    + apply matches_seq_inv in H as (s1 & s2 & -> & H1 & H2).
      change (u :: s1 ++ s2) with ((u :: s1) ++ s2).
      constructor; [apply IH|]; assumption.
    + apply matches_star_cons_inv in H as (s1 & s2 & -> & H1 & H2).
      constructor; [apply IH|]; assumption.
  - split; intros H.
    + apply matches_seq_inv in H as (s1 & s2 & -> & H1 & H2).
      change (u :: s1 ++ s2) with ((u :: s1) ++ s2).
      constructor; [apply IH|]; assumption.
    + apply matches_plus_inv in H as (s1 & s2 & Hs & H1 & H2).
      destruct s1 as [|v s1]; simpl in Hs.
      * subst s2.
        apply matches_star_cons_inv in H2 as (t1 & t2 & -> & Ht1 & Ht2).
        constructor; [apply IH|]; assumption.
      * injection Hs as <- ->. constructor; [apply IH|]; assumption.
Qed.

Lemma test_spec r s : test r s = true <-> matches r s.
Proof.
  revert r. induction s as [|u s IH]; intros r; simpl.
  - apply nullable_spec.
  - rewrite IH. apply derive_spec.
Qed.

Lemma matches_class_star p s :
  matches (Star (Class p)) s <-> Forall (fun u => p u = true) s.
Proof.
  split.
  - intros H. remember (Star (Class p)) as r eqn:Hr.
    induction H as [| | | | | |r0 s1 s2 H1 _ H2 IH2|]; try discriminate.
    + constructor.
    + injection Hr as ->.
      apply matches_class_inv in H1 as (u & -> & Hu).
      constructor; auto.
  - intros H. induction H as [|u s Hu _ IH]; [constructor|].
    change (u :: s) with ([u] ++ s). constructor; [constructor|]; assumption.
Qed.

Lemma matches_class_plus p s :
  matches (Plus (Class p)) s <-> s <> [] /\ Forall (fun u => p u = true) s.
Proof.
  split.
  - intros H. apply matches_plus_inv in H as (s1 & s2 & -> & H1 & H2).
    apply matches_class_inv in H1 as (u & -> & Hu).
    apply matches_class_star in H2. split; [discriminate|].
    constructor; assumption.
  - intros [Hne H]. destruct H as [|u s Hu H]; [congruence|].
    change (u :: s) with ([u] ++ s).
    constructor; [constructor | apply matches_class_star]; assumption.
Qed.

Lemma notSpaceOrAt_spec u :
  notSpaceOrAt u = true <-> isWhiteSpace u = false /\ code u <> 0x40.
Proof.
  unfold notSpaceOrAt.
  rewrite negb_true_iff, orb_false_iff, Z.eqb_neq. reflexivity.
Qed.

Lemma matches_plain s : matches (Plus (Class notSpaceOrAt)) s <-> plain s.
Proof.
  rewrite matches_class_plus. unfold plain.
  split; intros [Hne H]; (split; [exact Hne|]);
    (eapply Forall_impl; [exact H|]); intros u Hu;
    apply notSpaceOrAt_spec; exact Hu.
Qed.

Lemma matches_char c s :
  0 <= c < 65536 -> matches (char c) s <-> s = [unit_of c].
Proof.
  intros Hc. unfold char. split.
  - intros H. apply matches_class_inv in H as (u & -> & Hu).
    apply Z.eqb_eq in Hu. f_equal. apply code_inj.
    rewrite code_unit_of; assumption.
  - intros ->. constructor. apply Z.eqb_eq, code_unit_of, Hc.
Qed.

(** The pattern of the script accepts exactly the strings shaped as the
    specification describes. *)

Lemma emailRegex_spec s : test emailRegex s = true <-> email_shaped s.
Proof.
  rewrite test_spec. unfold emailRegex, email_shaped. split.
  - intros H.
    apply matches_seq_inv in H as (l & s1 & -> & Hl & H).
    apply matches_seq_inv in H as (a & s2 & -> & Ha & H).
    apply matches_seq_inv in H as (d & s3 & -> & Hd & H).
    apply matches_seq_inv in H as (p & t & -> & Hp & Ht).
    apply matches_char in Ha as ->; [|lia].
    apply matches_char in Hp as ->; [|lia].
    exists l, d, t. rewrite matches_plain in Hl, Hd, Ht. auto.
  - intros (l & d & t & -> & Hl & Hd & Ht).
    rewrite <- matches_plain in Hl, Hd, Ht.
    repeat (constructor; try assumption); apply Z.eqb_eq; reflexivity.
Qed.

End RegexFacts.

Example email_accepts : test emailRegex (lit "user@example.com") = true.
Proof. reflexivity. Qed.

Example email_rejects : test emailRegex (lit "not-an-email") = false.
Proof. reflexivity. Qed.

(** ** Running listeners: the store and the monad *)

Ltac mrun :=
  cbv [mbind M_bind mret M_ret gets modify throw lift effect when update deref
       classList_add classList_remove classList_contains getAttribute
       hasAttribute setAttribute setTextContent outcome exec];
  cbn [fst snd].

Section StoreFacts.

Lemma element_updated g e f st :
  element g (updated e f st)
  = if decide (g = e) then f (element e st) else element g st.
Proof.
  unfold updated, element at 1. cbn [store with_store].
  rewrite lookup_insert. destruct (decide (e = g)) as [->|Hne].
  - rewrite decide_True by reflexivity. reflexivity.
  - rewrite decide_False by congruence. reflexivity.
Qed.

Lemma element_updated_eq e f st : element e (updated e f st) = f (element e st).
Proof. rewrite element_updated, decide_True by reflexivity. reflexivity. Qed.

Lemma element_updated_ne g e f st :
  g <> e -> element g (updated e f st) = element g st.
Proof. intros H. rewrite element_updated, decide_False by assumption. reflexivity. Qed.

Lemma element_with_bodyOverflow g v st :
  element g (with_bodyOverflow v st) = element g st.
Proof. reflexivity. Qed.

Lemma element_with_effect g e st : element g (with_effect e st) = element g st.
Proof. reflexivity. Qed.

Lemma element_with_lastScrollY g y st :
  element g (with_lastScrollY y st) = element g st.
Proof. reflexivity. Qed.

Lemma element_with_headerTicking g b st :
  element g (with_headerTicking b st) = element g st.
Proof. reflexivity. Qed.

Lemma element_with_scrollTopTicking g b st :
  element g (with_scrollTopTicking b st) = element g st.
Proof. reflexivity. Qed.

Lemma element_with_observed g f st : element g (with_observed f st) = element g st.
Proof. reflexivity. Qed.

Lemma element_with_notices g f st : element g (with_notices f st) = element g st.
Proof. reflexivity. Qed.

Lemma element_with_frames g f st : element g (with_frames f st) = element g st.
Proof. reflexivity. Qed.

(** A write to the attributes or to the text of any element leaves every
    class list as it was. *)

Lemma classList_updated_attributes g e f st :
  classList (element g (updated e (with_attributes f) st)) = classList (element g st).
Proof. rewrite element_updated. destruct (decide (g = e)) as [->|]; reflexivity. Qed.

Lemma classList_updated_textContent g e t st :
  classList (element g (updated e (with_textContent t) st)) = classList (element g st).
Proof. rewrite element_updated. destruct (decide (g = e)) as [->|]; reflexivity. Qed.

Lemma classList_updated_add g e c st :
  classList (element g (updated e (with_classList (fun cs => cs ∪ {[c]})) st))
  = if decide (g = e) then classList (element g st) ∪ {[c]}
    else classList (element g st).
Proof. rewrite element_updated. destruct (decide (g = e)) as [->|]; reflexivity. Qed.

Lemma classList_updated_remove g e c st :
  classList (element g (updated e (with_classList (fun cs => cs ∖ {[c]})) st))
  = if decide (g = e) then classList (element g st) ∖ {[c]}
    else classList (element g st).
Proof. rewrite element_updated. destruct (decide (g = e)) as [->|]; reflexivity. Qed.

Lemma class_switch (b : bool) (c : string) (cs : gset string) :
  c ∈ (if b then cs ∪ {[c]} else cs ∖ {[c]}) <-> b = true.
Proof.
  destruct b; split; try reflexivity; try discriminate.
  - intros _. apply elem_of_union_r, elem_of_singleton. reflexivity.
  - intros H. apply elem_of_difference in H as [_ H].
    exfalso. apply H, elem_of_singleton. reflexivity.
Qed.

Lemma Qgtb_spec (a b : Q) : Qgtb a b = true <-> (b < a)%Q.
Proof.
  unfold Qgtb. rewrite negb_true_iff. split.
  - intros H. apply Qnot_le_lt. intros Hle.
    apply Qle_bool_iff in Hle. congruence.
  - intros H. destruct (Qle_bool a b) eqn:E; [|reflexivity].
    apply Qle_bool_iff in E. exfalso. exact (Qlt_not_le _ _ H E).
Qed.

End StoreFacts.

Create Rewrite HintDb dom.

#[local] Hint Rewrite element_with_bodyOverflow element_with_effect
  element_with_lastScrollY element_with_headerTicking
  element_with_scrollTopTicking element_with_observed element_with_notices
  element_with_frames classList_updated_attributes
  classList_updated_textContent classList_updated_add
  classList_updated_remove : dom.

(** ** The scroll watchers *)

Section Watchers.

Context (doc : Document).

Lemma updateHeader_run h st :
  header doc = Some h ->
  updateHeader doc st
  = (Normal tt,
     with_headerTicking false (with_lastScrollY (scrollY st)
       (updated h
          (with_classList (fun cs =>
             if Qgtb (scrollY st) 50 then cs ∪ {["header--scrolled"]}
             else cs ∖ {["header--scrolled"]})) st))).
Proof.
  intros H. unfold updateHeader. rewrite H. mrun.
  destruct (Qgtb (scrollY st) 50); reflexivity.
Qed.

Lemma updateScrollTopVisibility_run btn st :
  scrollTopBtn doc = Some btn ->
  updateScrollTopVisibility doc st
  = (Normal tt,
     with_scrollTopTicking false
       (updated btn
          (with_classList (fun cs =>
             if Qgtb (scrollY st) (inject_Z (innerHeight st) * (1 # 2))
             then cs ∪ {["is-visible"]} else cs ∖ {["is-visible"]})) st)).
Proof.
  intros H. unfold updateScrollTopVisibility. rewrite H. mrun.
  destruct (Qgtb (scrollY st) _); reflexivity.
Qed.

End Watchers.

(** C6. After a recomputation of the header watcher the header carries
    the scrolled state exactly when the scroll offset is strictly above
    50 pixels, whatever state it carried before: at or below 50 it is
    unscrolled, above 50 it is scrolled. *)

Theorem header_scrolled_iff (doc : Document) (h : elem) (st : State) :
  header doc = Some h ->
  outcome (updateHeader doc) st = Normal tt
  /\ (hasClass "header--scrolled" h (exec (updateHeader doc) st)
      <-> (50 < scrollY st)%Q)
  /\ ((scrollY st <= 50)%Q ->
      ~ hasClass "header--scrolled" h (exec (updateHeader doc) st)).
Proof.
  intros H. unfold outcome, exec. rewrite (updateHeader_run doc h st H).
  cbn [fst snd]. split; [reflexivity|].
  assert (Hiff : hasClass "header--scrolled" h
                   (with_headerTicking false (with_lastScrollY (scrollY st)
                     (updated h
                        (with_classList (fun cs =>
                           if Qgtb (scrollY st) 50
                           then cs ∪ {["header--scrolled"]}
                           else cs ∖ {["header--scrolled"]})) st)))
                 <-> (50 < scrollY st)%Q).
  { unfold hasClass. autorewrite with dom. rewrite element_updated_eq.
    cbn [classList with_classList]. rewrite <- Qgtb_spec.
    apply class_switch. }
  split; [exact Hiff|].
  intros Hle Hc. apply Hiff in Hc. exact (Qlt_not_le _ _ Hc Hle).
Qed.

Lemma header_scrolled_iff_witness :
  let st := with_scrollY (101 # 2) Sample.loaded in
  header Sample.page = Some 1%nat
  /\ outcome (updateHeader Sample.page) st = Normal tt
  /\ (hasClass "header--scrolled" 1%nat (exec (updateHeader Sample.page) st)
      <-> (50 < scrollY st)%Q)
  /\ ((scrollY st <= 50)%Q ->
      ~ hasClass "header--scrolled" 1%nat (exec (updateHeader Sample.page) st)).
Proof.
  split; [reflexivity|].
  apply (header_scrolled_iff Sample.page 1%nat
           (with_scrollY (101 # 2) Sample.loaded)).
  reflexivity.
Defined.

(** C7. After a recomputation of the scroll-top watcher the button is
    visible exactly when the scroll offset strictly exceeds half of the
    viewport height; at or below half of it the button is hidden. *)

Theorem scroll_top_visible_iff (doc : Document) (btn : elem) (st : State) :
  scrollTopBtn doc = Some btn ->
  outcome (updateScrollTopVisibility doc) st = Normal tt
  /\ (hasClass "is-visible" btn (exec (updateScrollTopVisibility doc) st)
      <-> (inject_Z (innerHeight st) * (1 # 2) < scrollY st)%Q)
  /\ ((scrollY st <= inject_Z (innerHeight st) * (1 # 2))%Q ->
      ~ hasClass "is-visible" btn (exec (updateScrollTopVisibility doc) st)).
Proof.
  intros H. unfold outcome, exec.
  rewrite (updateScrollTopVisibility_run doc btn st H).
  cbn [fst snd]. split; [reflexivity|].
  assert (Hiff : hasClass "is-visible" btn
                   (with_scrollTopTicking false
                     (updated btn
                        (with_classList (fun cs =>
                           if Qgtb (scrollY st) (inject_Z (innerHeight st) * (1 # 2))
                           then cs ∪ {["is-visible"]}
                           else cs ∖ {["is-visible"]})) st))
                 <-> (inject_Z (innerHeight st) * (1 # 2) < scrollY st)%Q).
  { unfold hasClass. autorewrite with dom. rewrite element_updated_eq.
    cbn [classList with_classList]. rewrite <- Qgtb_spec.
    apply class_switch. }
  split; [exact Hiff|].
  intros Hle Hc. apply Hiff in Hc. exact (Qlt_not_le _ _ Hc Hle).
Qed.

Lemma scroll_top_visible_iff_witness :
  let st := with_scrollY 400 Sample.loaded in
  scrollTopBtn Sample.page = Some 4%nat
  /\ outcome (updateScrollTopVisibility Sample.page) st = Normal tt
  /\ (hasClass "is-visible" 4%nat (exec (updateScrollTopVisibility Sample.page) st)
      <-> (inject_Z (innerHeight st) * (1 # 2) < scrollY st)%Q)
  /\ ((scrollY st <= inject_Z (innerHeight st) * (1 # 2))%Q ->
      ~ hasClass "is-visible" 4%nat
          (exec (updateScrollTopVisibility Sample.page) st)).
Proof.
  split; [reflexivity|].
  apply (scroll_top_visible_iff Sample.page 4%nat
           (with_scrollY 400 Sample.loaded)).
  reflexivity.
Defined.

(** ** The mobile menu *)

Section MobileMenu.

Context (doc : Document) (toggle nav : elem).
Hypothesis Htoggle : menuToggle doc = Some toggle.
Hypothesis Hnav : mainNav doc = Some nav.

Lemma closeMobileMenu_spec st :
  exists st',
    closeMobileMenu doc st = (Normal tt, st')
    /\ ~ menuOpen nav st' /\ ~ scrollLocked st'.
Proof.
  unfold closeMobileMenu. rewrite Htoggle, Hnav. mrun.
  eexists. split; [reflexivity|]. split.
  - unfold menuOpen, hasClass. autorewrite with dom.
    rewrite decide_True by reflexivity.
    intros H. apply elem_of_difference in H as [_ H].
    apply H, elem_of_singleton. reflexivity.
  - unfold scrollLocked. cbn [bodyOverflow with_bodyOverflow]. discriminate.
Qed.

Lemma openMobileMenu_spec st :
  exists st',
    openMobileMenu doc st = (Normal tt, st')
    /\ menuOpen nav st' /\ scrollLocked st'.
Proof.
  unfold openMobileMenu. rewrite Htoggle, Hnav. mrun.
  eexists. split; [reflexivity|]. split.
  - unfold menuOpen, hasClass. autorewrite with dom.
    rewrite decide_True by reflexivity.
    apply elem_of_union_r, elem_of_singleton. reflexivity.
  - reflexivity.
Qed.

Lemma toggleMobileMenu_run st :
  toggleMobileMenu doc st
  = if bool_decide ("is-open" ∈ classList (element nav st))
    then closeMobileMenu doc st else openMobileMenu doc st.
Proof.
  unfold toggleMobileMenu. rewrite Hnav. mrun.
  destruct (bool_decide _); reflexivity.
Qed.

Lemma closeIfOpen_run st :
  (n ← deref (mainNav doc);
   isOpen ← classList_contains n "is-open";
   when isOpen (closeMobileMenu doc)) st
  = if bool_decide ("is-open" ∈ classList (element nav st))
    then closeMobileMenu doc st else (Normal tt, st).
Proof. rewrite Hnav. mrun. destruct (bool_decide _); reflexivity. Qed.

(** One input of the menu: the listener returns, the lock follows the
    panel, and the panel moves as the machine says. *)

Lemma menu_step i st :
  (scrollLocked st <-> menuOpen nav st) ->
  exists st',
    menuListener doc i st = (Normal tt, st')
    /\ (scrollLocked st' <-> menuOpen nav st')
    /\ match i with
       | ToggleClick => menuOpen nav st' <-> ~ menuOpen nav st
       | Key key =>
           if decide (key = lit "Escape")
           then ~ menuOpen nav st' /\ (~ menuOpen nav st -> st' = st)
           else st' = st
       | NavLinkClick => ~ menuOpen nav st' /\ (~ menuOpen nav st -> st' = st)
       end.
Proof.
  intros Hinv.
  assert (Hclose :
    exists st',
      (if bool_decide ("is-open" ∈ classList (element nav st))
       then closeMobileMenu doc st else (Normal tt, st)) = (Normal tt, st')
      /\ (scrollLocked st' <-> menuOpen nav st')
      /\ ~ menuOpen nav st' /\ (~ menuOpen nav st -> st' = st)).
  { destruct (bool_decide_reflect ("is-open" ∈ classList (element nav st)))
      as [Ho|Ho].
    - destruct (closeMobileMenu_spec st) as (st' & -> & Hc & Hl).
      exists st'. repeat split; tauto.
    - exists st. repeat split; tauto. }
  destruct i as [|key|]; cbn [menuListener].
  - rewrite toggleMobileMenu_run.
    destruct (bool_decide_reflect ("is-open" ∈ classList (element nav st)))
      as [Ho|Ho].
    + destruct (closeMobileMenu_spec st) as (st' & -> & Hc & Hl).
      exists st'. unfold menuOpen, hasClass in *. repeat split; tauto.
    + destruct (openMobileMenu_spec st) as (st' & -> & Hc & Hl).
      exists st'. unfold menuOpen, hasClass in *. repeat split; tauto.
  - unfold menuKeydown. destruct (decide (key = lit "Escape")) as [_|_].
    + rewrite closeIfOpen_run.
      destruct Hclose as (st' & -> & ? & ? & ?). eauto.
    + exists st. auto.
  - unfold navLinkClick. rewrite closeIfOpen_run.
    destruct Hclose as (st' & -> & ? & ? & ?). eauto.
Qed.



End MobileMenu.

(** C5. The menu starts closed with the page unlocked (the markup, which
    the script does not set).  From there, after any sequence of toggle
    clicks, key presses and navigation-link clicks, no listener has
    thrown and the body scroll lock is engaged exactly when the panel is
    open; and in the state reached, a toggle click flips the panel,
    Escape closes an open panel and changes nothing when it is closed,
    and a navigation-link click closes an open panel. *)



(** ** Field validation *)

Section Validation.

Context (doc : Document).

Lemma updated_keeps {A} (proj : Element -> A) g e f st :
  (forall el, proj (f el) = proj el) ->
  proj (element g (updated e f st)) = proj (element g st).
Proof.
  intros H. rewrite element_updated.
  destruct (decide (g = e)) as [->|]; [apply H | reflexivity].
Qed.

Lemma validateField_run f st :
  validateField doc (Some f) st
  = (Normal (fieldValid (Some f) st),
     let msg := errorMessageOf (element f st) in
     let st1 :=
       updated f (with_classList (fun cs =>
         if truthy msg then cs ∪ {["is-invalid"]} else cs ∖ {["is-invalid"]})) st in
     match errorElementOf doc f with
     | Some e => updated e (with_textContent msg) st1
     | None => st1
     end).
Proof.
  unfold validateField, showFieldError, clearFieldError, fieldValid. mrun.
  destruct (errorMessageOf (element f st)) as [|u msg]; cbn [truthy negb];
    destruct (errorElementOf doc f); reflexivity.
Qed.

Lemma validateField_total input st :
  validateField doc input st
  = (Normal (fieldValid input st), exec (validateField doc input) st).
Proof.
  destruct input as [f|]; [|reflexivity].
  unfold exec. rewrite validateField_run. reflexivity.
Qed.

(** Validation writes class lists and texts only: values and attributes,
    hence the verdict on every field, stay as they were. *)

Lemma errorMessageOf_updated g e f st :
  (forall el, value (f el) = value el) ->
  (forall el, attributes (f el) = attributes el) ->
  errorMessageOf (element g (updated e f st)) = errorMessageOf (element g st).
Proof.
  intros Hv Ha. rewrite element_updated.
  destruct (decide (g = e)) as [->|]; [|reflexivity].
  unfold errorMessageOf. rewrite Hv, Ha. reflexivity.
Qed.

Lemma validateField_keeps_message input g st :
  errorMessageOf (element g (exec (validateField doc input) st))
  = errorMessageOf (element g st).
Proof.
  destruct input as [f|]; [|reflexivity].
  unfold exec. rewrite validateField_run. cbn [snd].
  destruct (errorElementOf doc f) as [e|];
    rewrite !errorMessageOf_updated by reflexivity; reflexivity.
Qed.

Lemma validateField_keeps_valid input other st :
  fieldValid other (exec (validateField doc input) st) = fieldValid other st.
Proof.
  destruct other as [g|]; [|reflexivity].
  unfold fieldValid. rewrite validateField_keeps_message. reflexivity.
Qed.

Lemma validateField_keeps_value input other st :
  valueOf other (exec (validateField doc input) st) = valueOf other st.
Proof.
  destruct other as [g|]; [|reflexivity].
  destruct input as [f|]; [|reflexivity].
  unfold exec, valueOf. rewrite validateField_run. cbn [snd].
  destruct (errorElementOf doc f) as [e|];
    rewrite ?(updated_keeps value g e) by reflexivity;
    rewrite (updated_keeps value g f) by reflexivity; reflexivity.
Qed.

Lemma validateField_keeps_effects input st :
  effects (exec (validateField doc input) st) = effects st
  /\ notices (exec (validateField doc input) st) = notices st.
Proof.
  destruct input as [f|]; [|split; reflexivity].
  unfold exec. rewrite validateField_run. cbn [snd].
  destruct (errorElementOf doc f); split; reflexivity.
Qed.

(** The field just validated carries the marker exactly when it failed,
    and its error container holds its message (empty when it passed). *)

Lemma validateField_marks f st :
  markedInvalid f (exec (validateField doc (Some f)) st)
  <-> fieldValid (Some f) st = false.
Proof.
  unfold exec, markedInvalid, hasClass, fieldValid.
  rewrite validateField_run. cbn [snd].
  rewrite negb_false_iff.
  destruct (errorElementOf doc f) as [e|];
    rewrite ?(updated_keeps classList f e) by reflexivity;
    rewrite element_updated_eq; cbn [classList with_classList];
    apply class_switch.
Qed.

Lemma validateField_displays f e st :
  errorElementOf doc f = Some e ->
  textContent (element e (exec (validateField doc (Some f)) st))
  = errorMessageOf (element f st).
Proof.
  intros He. unfold exec. rewrite validateField_run. cbn [snd].
  rewrite He, element_updated_eq. reflexivity.
Qed.

(** Validating one field leaves the marker of every other field, and
    every container but its own, untouched. *)

Lemma validateField_other_marker input g st :
  input <> Some g ->
  markedInvalid g (exec (validateField doc input) st) <-> markedInvalid g st.
Proof.
  intros Hne. destruct input as [f|]; [|reflexivity].
  assert (g <> f) by congruence.
  unfold exec, markedInvalid, hasClass. rewrite validateField_run. cbn [snd].
  destruct (errorElementOf doc f) as [e|];
    rewrite ?(updated_keeps classList g e) by reflexivity;
    rewrite element_updated_ne by assumption; reflexivity.
Qed.

Lemma validateField_other_text input e st :
  (forall f, input = Some f -> errorElementOf doc f <> Some e) ->
  textContent (element e (exec (validateField doc input) st))
  = textContent (element e st).
Proof.
  intros Hne. destruct input as [f|]; [|reflexivity].
  specialize (Hne f eq_refl).
  unfold exec. rewrite validateField_run. cbn [snd].
  destruct (errorElementOf doc f) as [e'|].
  - rewrite element_updated_ne by congruence.
    apply (updated_keeps textContent). reflexivity.
  - apply (updated_keeps textContent). reflexivity.
Qed.

Lemma clearFieldError_run f st :
  clearFieldError doc f st
  = (Normal tt,
     let st1 := updated f (with_classList (fun cs => cs ∖ {["is-invalid"]})) st in
     match errorElementOf doc f with
     | Some e => updated e (with_textContent []) st1
     | None => st1
     end).
Proof.
  unfold clearFieldError. mrun. destruct (errorElementOf doc f); reflexivity.
Qed.

Lemma showFieldError_run f message st :
  showFieldError doc f message st
  = (Normal tt,
     let st1 := updated f (with_classList (fun cs => cs ∪ {["is-invalid"]})) st in
     match errorElementOf doc f with
     | Some e => updated e (with_textContent message) st1
     | None => st1
     end).
Proof.
  unfold showFieldError. mrun. destruct (errorElementOf doc f); reflexivity.
Qed.

End Validation.

(** C3. For a field named [email] whose trimmed value is not empty,
    validation succeeds exactly when the value has the shape
    local@domain.tld of the specification; a value that has not yields
    the message "Podaj prawidłowy adres e-mail", shown by
    [showFieldError].  So "not-an-email" is invalid with that message and
    "user@example.com" is valid. *)

Theorem email_validation (doc : Document) (f : elem) (st : State) :
  attributes (element f st) !! "name" = Some (lit "email") ->
  trim (value (element f st)) <> [] ->
  (outcome (validateField doc (Some f)) st = Normal true
   <-> email_shaped (trim (value (element f st))))
  /\ (~ email_shaped (trim (value (element f st))) ->
      errorMessageOf (element f st) = lit "Podaj prawidłowy adres e-mail"
      /\ validateField doc (Some f) st
         = (Normal false,
            exec (showFieldError doc f (lit "Podaj prawidłowy adres e-mail")) st))
  /\ errorMessageOf (Sample.field "email" true (lit "not-an-email"))
     = lit "Podaj prawidłowy adres e-mail"
  /\ errorMessageOf (Sample.field "email" true (lit "user@example.com")) = [].
Proof.
  intros Hname Hvalue.
  assert (Hmsg : errorMessageOf (element f st)
                 = if test emailRegex (trim (value (element f st))) then []
                   else lit "Podaj prawidłowy adres e-mail").
  { unfold errorMessageOf. rewrite Hname. cbn [default].
    destruct (trim (value (element f st))) as [|u v]; [congruence|].
    cbn [truthy negb]. rewrite andb_false_r.
    rewrite bool_decide_eq_true_2 by reflexivity. cbn [andb].
    destruct (test emailRegex (u :: v)); reflexivity. }
  rewrite <- emailRegex_spec.
  unfold outcome. rewrite validateField_run. cbn [fst fieldValid].
  split; [|split; [|split; vm_compute; reflexivity]].
  - assert (Ht : truthy (lit "Podaj prawidłowy adres e-mail") = true)
      by (vm_compute; reflexivity).
    rewrite Hmsg. destruct (test emailRegex _); [|rewrite Ht];
      cbn [truthy negb]; split; congruence.
  - intros Hno. apply not_true_is_false in Hno.
    rewrite Hno in Hmsg. split; [exact Hmsg|].
    assert (Ht : truthy (lit "Podaj prawidłowy adres e-mail") = true)
      by (vm_compute; reflexivity).
    unfold exec. rewrite showFieldError_run, Hmsg, Ht. reflexivity.
Qed.

Lemma email_validation_witness :
  let st := Sample.filled [] (lit "not-an-email") [] [] in
  attributes (element 7%nat st) !! "name" = Some (lit "email")
  /\ trim (value (element 7%nat st)) <> []
  /\ (outcome (validateField Sample.page (Some 7%nat)) st = Normal true
      <-> email_shaped (trim (value (element 7%nat st)))).
Proof.
  split; [vm_compute; reflexivity|]. split; [vm_compute; discriminate|].
  apply (email_validation Sample.page 7%nat
           (Sample.filled [] (lit "not-an-email") [] [])).
  - vm_compute. reflexivity.
  - vm_compute. discriminate.
Defined.

(** ** The submit listener *)

Section Submit.

Context (doc : Document).

Lemma validated_effects st :
  effects (validated doc st) = effects st ++ [PreventDefault]
  /\ notices (validated doc st) = notices st.
Proof.
  unfold validated.
  destruct (validateField_keeps_effects doc (messageInput doc)
              (exec (validateField doc (emailInput doc))
                 (exec (validateField doc (nameInput doc))
                    (with_effect PreventDefault st)))) as [-> ->].
  destruct (validateField_keeps_effects doc (emailInput doc)
              (exec (validateField doc (nameInput doc))
                 (with_effect PreventDefault st))) as [-> ->].
  destruct (validateField_keeps_effects doc (nameInput doc)
              (with_effect PreventDefault st)) as [-> ->].
  split; reflexivity.
Qed.

Lemma validated_value input st : valueOf input (validated doc st) = valueOf input st.
Proof.
  unfold validated. rewrite !validateField_keeps_value.
  destruct input; reflexivity.
Qed.

Lemma validated_mailText st : mailText doc (validated doc st) = mailText doc st.
Proof. unfold mailText. rewrite !validated_value. reflexivity. Qed.

Lemma with_effect_valid input e st :
  fieldValid input (with_effect e st) = fieldValid input st.
Proof. destruct input; reflexivity. Qed.

(** The listener validates the three fields in turn, then decides. *)

Lemma submitListener_run st :
  submitListener doc st
  = if fieldValid (nameInput doc) st && fieldValid (emailInput doc) st
       && fieldValid (messageInput doc) st
    then openMailClient doc (validated doc st)
    else (Normal tt, validated doc st).
Proof.
  unfold submitListener, validated.
  cbv [mbind M_bind effect modify].
  rewrite (validateField_total doc (nameInput doc)). cbv beta iota.
  rewrite (validateField_total doc (emailInput doc)). cbv beta iota.
  rewrite (validateField_total doc (messageInput doc)). cbv beta iota.
  rewrite !validateField_keeps_valid, !with_effect_valid.
  destruct (fieldValid (nameInput doc) st), (fieldValid (emailInput doc) st),
    (fieldValid (messageInput doc) st); reflexivity.
Qed.

(** A submit event on the form reaches this listener and no other. *)

Lemma callbacks_submit form st :
  contactForm doc = Some form ->
  callbacks doc (Submit form) st = [submitListener doc].
Proof.
  intros Hform. unfold callbacks, components. cbn [flat_map].
  unfold setupSmoothScroll, setupMobileMenu, setupHeaderScroll,
    setupScrollToTop, setupScrollAnimations, setupContactForm.
  rewrite Hform.
  destruct (menuToggle doc), (mainNav doc), (header doc), (scrollTopBtn doc),
    (prefersReducedMotion doc || (length (animatedElements doc) =? 0)%nat);
    cbn [listeners idle app]; rewrite decide_True by reflexivity; reflexivity.
Qed.

Lemma dispatch_submit form st :
  contactForm doc = Some form ->
  dispatch doc (Submit form) st
  = (match outcome (submitListener doc) st with
     | Normal _ => []
     | Throw e => [e]
     end,
     exec (submitListener doc) st).
Proof.
  intros Hform. unfold dispatch. rewrite (callbacks_submit form st Hform).
  cbn [foldl browser]. unfold runListener, outcome, exec. cbn [fst snd].
  destruct (submitListener doc st) as [[|e] st']; reflexivity.
Qed.

Lemma allValid_spec st :
  allValid doc st
  <-> fieldValid (nameInput doc) st && fieldValid (emailInput doc) st
      && fieldValid (messageInput doc) st = true.
Proof. unfold allValid. rewrite !andb_true_iff. tauto. Qed.

Lemma subject_encoded :
  encodeURIComponent (lit "Zapytanie ze strony ITEasier")
  = Normal (lit "Zapytanie%20ze%20strony%20ITEasier").
Proof. vm_compute. reflexivity. Qed.

Lemma link_prefix body :
  lit "mailto:kontakt@iteasier.pl?subject="
  ++ lit "Zapytanie%20ze%20strony%20ITEasier" ++ lit "&body=" ++ body
  = linkPrefix ++ body.
Proof.
  rewrite !app_assoc. apply (f_equal (fun p => p ++ body)).
  vm_compute. reflexivity.
Qed.

Lemma buildEmailBody_text name email phone message :
  buildEmailBody name email phone message
  = encodeURIComponent (bodyText name email phone message).
Proof.
  unfold buildEmailBody, bodyText. cbv zeta.
  destruct (truthy phone); f_equal; rewrite <- ?app_assoc; reflexivity.
Qed.

(** With an input missing, the mail branch throws at the first missing
    one, before anything else happens. *)


Lemma showFormSuccess_effects st :
  exists tail, effects (exec (showFormSuccess doc) st) = effects st ++ tail.
Proof.
  unfold showFormSuccess, exec.
  destruct (contactForm doc); [|exists []; mrun; rewrite app_nil_r; reflexivity].
  destruct (submitBtn doc); mrun.
  - eexists. reflexivity.
  - exists []. rewrite app_nil_r. reflexivity.
Qed.

(** With the three inputs there, the mail branch encodes the mail text
    and, if that returns, opens the link on it. *)

Lemma openMailClient_run st body :
  allPresent doc ->
  encodeURIComponent (mailText doc st) = Normal body ->
  openMailClient doc st
  = showFormSuccess doc (with_effect (Navigate (linkPrefix ++ body)) st).
Proof.
  intros ([n Hn] & [e He] & [m Hm]) Hbody.
  unfold mailText, valueOf in Hbody. rewrite Hn, He, Hm in Hbody.
  rewrite <- buildEmailBody_text in Hbody.
  unfold openMailClient, trimmedValue. rewrite subject_encoded, Hn, He, Hm.
  destruct (phoneInput doc) as [p|]; mrun; rewrite Hbody, link_prefix;
    reflexivity.
Qed.

Lemma openMailClient_throws st :
  allPresent doc ->
  encodeURIComponent (mailText doc st) = Throw URIError ->
  openMailClient doc st = (Throw URIError, st).
Proof.
  intros ([n Hn] & [e He] & [m Hm]) Hbody.
  unfold mailText, valueOf in Hbody. rewrite Hn, He, Hm in Hbody.
  rewrite <- buildEmailBody_text in Hbody.
  unfold openMailClient, trimmedValue. rewrite subject_encoded, Hn, He, Hm.
  destruct (phoneInput doc) as [p|]; mrun; rewrite Hbody; reflexivity.
Qed.

Lemma mail_opened st :
  allPresent doc -> allValid doc st -> isWellFormed (mailText doc st) = true ->
  opensMail doc st.
Proof.
  intros Hp Hv Hw. apply encode_well_formed in Hw as [body Hbody].
  exists body. split; [|split; [exact Hbody | apply decode_encode, Hbody]].
  unfold navigated, exec. rewrite submitListener_run.
  apply allValid_spec in Hv. rewrite Hv.
  rewrite (openMailClient_run (validated doc st) body Hp)
    by (rewrite validated_mailText; exact Hbody).
  destruct (showFormSuccess_effects
              (with_effect (Navigate (linkPrefix ++ body)) (validated doc st)))
    as [tail Htail].
  unfold exec in Htail. rewrite Htail. cbn [effects with_effect].
  apply in_or_app. left. apply in_or_app. right. left. reflexivity.
Qed.

(** X17. With the three inputs there and valid and an unpaired surrogate
    anywhere in the mail text, the submit listener ends in [URIError]
    after it has prevented the default action and before any other call
    out of the script: no link is opened and no timer is set. *)

Lemma mail_not_opened st :
  allPresent doc -> allValid doc st -> isWellFormed (mailText doc st) = false ->
  outcome (submitListener doc) st = Throw URIError
  /\ effects (exec (submitListener doc) st) = effects st ++ [PreventDefault].
Proof.
  intros Hp Hv Hw. apply encode_throws in Hw.
  unfold outcome, exec. rewrite submitListener_run.
  apply allValid_spec in Hv. rewrite Hv.
  rewrite (openMailClient_throws (validated doc st) Hp)
    by (rewrite validated_mailText; exact Hw).
  cbn [fst snd]. split; [reflexivity | apply validated_effects].
Qed.

(** *** What the fields show after the three validations *)

Section Field.

Context (st : State) (f : elem).

Lemma settled_establish s :
  errorMessageOf (element f s) = errorMessageOf (element f st) ->
  settled doc st f (exec (validateField doc (Some f)) s).
Proof.
  intros Hmsg. split.
  - rewrite validateField_marks. unfold fieldValid. rewrite Hmsg. reflexivity.
  - intros [[e He] _]. exists e. split; [exact He|].
    rewrite (validateField_displays doc f e s He). exact Hmsg.
Qed.

Lemma settled_preserve input s :
  In input [nameInput doc; emailInput doc; messageInput doc] ->
  errorMessageOf (element f s) = errorMessageOf (element f st) ->
  settled doc st f s ->
  settled doc st f (exec (validateField doc input) s).
Proof.
  intros Hin Hmsg [Hmark Htext].
  destruct (decide (input = Some f)) as [->|Hne];
    [apply settled_establish, Hmsg|].
  split.
  - rewrite validateField_other_marker by assumption. exact Hmark.
  - intros Hown. destruct (Htext Hown) as (e & He & Ht).
    exists e. split; [exact He|].
    rewrite validateField_other_text; [exact Ht|].
    intros g -> Hg. destruct Hown as [_ Hown].
    apply (Hown g); [exact Hin | congruence | congruence].
Qed.

Lemma validated_settled :
  In (Some f) [nameInput doc; emailInput doc; messageInput doc] ->
  settled doc st f (validated doc st).
Proof.
  intros Hin. unfold validated.
  set (s0 := with_effect PreventDefault st).
  set (s1 := exec (validateField doc (nameInput doc)) s0).
  set (s2 := exec (validateField doc (emailInput doc)) s1).
  assert (H0 : errorMessageOf (element f s0) = errorMessageOf (element f st))
    by reflexivity.
  assert (H1 : errorMessageOf (element f s1) = errorMessageOf (element f st))
    by (unfold s1; rewrite validateField_keeps_message; exact H0).
  assert (H2 : errorMessageOf (element f s2) = errorMessageOf (element f st))
    by (unfold s2; rewrite validateField_keeps_message; exact H1).
  destruct Hin as [Hin|[Hin|[Hin|[]]]].
  - apply settled_preserve; [right; right; left; reflexivity | exact H2 |].
    apply settled_preserve; [right; left; reflexivity | exact H1 |].
    unfold s1. rewrite Hin. apply settled_establish, H0.
  - apply settled_preserve; [right; right; left; reflexivity | exact H2 |].
    unfold s2. rewrite Hin. apply settled_establish, H1.
  - rewrite Hin. apply settled_establish, H2.
Qed.

End Field.

End Submit.

(** ** The contact form: what the specification states *)

(** C1, as worded, fails: a name that is a lone surrogate validates (it
    is not empty), yet [encodeURIComponent] throws on the mail text and
    no link is opened. *)

Lemma mail_link_lone_surrogate :
  let st := Sample.filled [unit_of 0xD83D] (lit "jan@example.com") [] (lit "Cześć") in
  ~ mailClaim Sample.page st
  /\ outcome (submitListener Sample.page) st = Throw URIError
  /\ effects (exec (submitListener Sample.page) st) = [PreventDefault].
Proof.
  split; [|split; vm_compute; reflexivity].
  intros H. destruct H as (body & _ & Henc & _).
  - repeat split; vm_compute; reflexivity.
  - vm_compute in Henc. discriminate.
Qed.

(** It fails as well where the page lacks one of the three inputs: the
    absent input validates, the other two are valid and the mail text of
    what is there has no surrogate at all, yet the listener throws a
    [TypeError] on reading the absent input and no link is opened. *)

Lemma mail_link_absent_input :
  let st := Sample.filled [] (lit "jan@example.com") [] (lit "Cześć") in
  ~ allPresent Sample.noName
  /\ allValid Sample.noName st
  /\ isWellFormed (mailText Sample.noName st) = true
  /\ ~ mailClaim Sample.noName st
  /\ outcome (submitListener Sample.noName) st = Throw TypeError
  /\ effects (exec (submitListener Sample.noName) st) = [PreventDefault].
Proof.
  assert (Hv : allValid Sample.noName
                 (Sample.filled [] (lit "jan@example.com") [] (lit "Cześć")))
    by (repeat split; vm_compute; reflexivity).
  assert (He : effects (exec (submitListener Sample.noName)
                          (Sample.filled [] (lit "jan@example.com") []
                             (lit "Cześć")))
               = [PreventDefault]) by (vm_compute; reflexivity).
  split; [intros [[n Hn] _]; discriminate|]. split; [exact Hv|].
  split; [vm_compute; reflexivity|].
  split; [|split; [vm_compute; reflexivity | exact He]].
  intros H. destruct (H Hv) as (body & Hnav & _).
  unfold navigated in Hnav. rewrite He in Hnav.
  destruct Hnav as [Hn|[]]. discriminate.
Qed.

(** C1. For every submit on a page that has the name, the e-mail and
    the message input, in which the three validate and the mail text has
    no unpaired surrogate, the listener
    opens [mailto:kontakt@iteasier.pl] with a body that is the
    percent-encoding of the mail text and decodes back to it: the labelled
    name, the labelled e-mail, the labelled phone only when the trimmed
    phone is not empty, and the labelled message, each value trimmed.  For
    Jan Kowalski's message the decoded body holds the name and e-mail
    lines and the message, and no phone line. *)

Theorem mail_link_body :
  (forall doc st,
     allPresent doc -> allValid doc st ->
     isWellFormed (mailText doc st) = true ->
     opensMail doc st)
  /\ (let st := Sample.filled (lit "Jan Kowalski") (lit "jan@example.com") []
                  (lit "Cześć") in
      opensMail Sample.page st
      /\ mailText Sample.page st
         = lit "Imię i nazwisko: Jan Kowalski" ++ nl
           ++ lit "E-mail: jan@example.com" ++ nl
           ++ nl ++ lit "Wiadomość:" ++ nl ++ lit "Cześć"
      /\ includes (mailText Sample.page st) (lit "Imię i nazwisko: Jan Kowalski")
         = true
      /\ includes (mailText Sample.page st) (lit "E-mail: jan@example.com") = true
      /\ includes (mailText Sample.page st) (lit "Cześć") = true
      /\ includes (mailText Sample.page st) (lit "Telefon") = false).
Proof.
  split; [intros doc st; apply mail_opened|].
  split; [|repeat split; vm_compute; reflexivity].
  apply mail_opened.
  - repeat split; eexists; reflexivity.
  - repeat split; vm_compute; reflexivity.
  - vm_compute. reflexivity.
Qed.

Lemma mail_link_body_witness :
  let doc := Sample.page in
  let st := Sample.filled (lit "  Jan Kowalski ") (lit "jan@example.com")
              (lit "600 100 200") (lit "Cześć") in
  allPresent doc /\ allValid doc st /\ isWellFormed (mailText doc st) = true
  /\ opensMail doc st.
Proof.
  assert (Hp : allPresent Sample.page) by (repeat split; eexists; reflexivity).
  assert (Hv : allValid Sample.page
                 (Sample.filled (lit "  Jan Kowalski ") (lit "jan@example.com")
                    (lit "600 100 200") (lit "Cześć")))
    by (repeat split; vm_compute; reflexivity).
  assert (Hw : isWellFormed (mailText Sample.page
                 (Sample.filled (lit "  Jan Kowalski ") (lit "jan@example.com")
                    (lit "600 100 200") (lit "Cześć"))) = true)
    by (vm_compute; reflexivity).
  split; [exact Hp|]. split; [exact Hv|]. split; [exact Hw|].
  exact (proj1 mail_link_body _ _ Hp Hv Hw).
Defined.

(** C2, as worded, fails where a field has no error container: the
    invalid field gets the marker and no message is shown anywhere. *)

Lemma invalid_submit_without_container :
  ~ invalidSubmitClaim Sample.bare
      (Sample.filled [] (lit "not-an-email") [] (lit "Cześć")).
Proof.
  intros H. destruct H as (_ & _ & Hf).
  - intros [Hv _]. vm_compute in Hv. discriminate.
  - specialize (Hf 6%nat (or_introl eq_refl)).
    assert (Hi : fieldValid (Some 6%nat)
                   (Sample.filled [] (lit "not-an-email") [] (lit "Cześć")) = false)
      by (vm_compute; reflexivity).
    rewrite Hi in Hf. destruct Hf as [_ (e & He & _)].
    vm_compute in He. discriminate.
Qed.

(** Where two fields share one container it shows the verdict of the
    field validated last: here the name is invalid, the e-mail and the
    message are valid, and the shared container ends up empty. *)

Lemma invalid_submit_shared_container :
  ~ invalidSubmitClaim Sample.shared
      (Sample.filled [] (lit "jan@example.com") [] (lit "Cześć")).
Proof.
  intros H. destruct H as (_ & _ & Hf).
  - intros [Hv _]. vm_compute in Hv. discriminate.
  - specialize (Hf 6%nat (or_introl eq_refl)).
    assert (Hi : fieldValid (Some 6%nat)
                   (Sample.filled [] (lit "jan@example.com") [] (lit "Cześć")) = false)
      by (vm_compute; reflexivity).
    rewrite Hi in Hf. destruct Hf as [_ (e & He & Ht)].
    vm_compute in He. injection He as <-.
    vm_compute in Ht. discriminate.
Qed.

(** C2. For every submit in which at least one of the three fields is
    invalid the listener returns having only prevented the default
    action: no link, no navigation, no success notice; and after it
    exactly the invalid fields carry the error marker, and every field
    that has an error container of its own shows there its message, which
    is empty when the field is valid. *)

Theorem invalid_submit (doc : Document) (st : State) :
  ~ allValid doc st ->
  let st' := exec (submitListener doc) st in
  outcome (submitListener doc) st = Normal tt
  /\ effects st' = effects st ++ [PreventDefault]
  /\ notices st' = notices st
  /\ forall f,
       In (Some f) [nameInput doc; emailInput doc; messageInput doc] ->
       settled doc st f st'.
Proof.
  intros Hno st'. unfold st', outcome, exec. rewrite submitListener_run.
  rewrite allValid_spec in Hno. apply not_true_is_false in Hno. rewrite Hno.
  cbn [fst snd]. destruct (validated_effects doc st) as [He Hn].
  repeat split; try assumption; apply validated_settled; assumption.
Qed.

Lemma invalid_submit_witness :
  let doc := Sample.page in
  let st := Sample.filled [] (lit "not-an-email") [] (lit "Cześć") in
  ~ allValid doc st
  /\ outcome (submitListener doc) st = Normal tt
  /\ effects (exec (submitListener doc) st) = effects st ++ [PreventDefault]
  /\ notices (exec (submitListener doc) st) = notices st
  /\ forall f,
       In (Some f) [nameInput doc; emailInput doc; messageInput doc] ->
       settled doc st f (exec (submitListener doc) st).
Proof.
  assert (Hno : ~ allValid Sample.page
                    (Sample.filled [] (lit "not-an-email") [] (lit "Cześć")))
    by (intros [Hv _]; vm_compute in Hv; discriminate).
  split; [exact Hno|].
  exact (invalid_submit Sample.page _ Hno).
Defined.

(** C10. [validateField] on an absent field returns true and changes
    nothing; so when one of the three inputs is absent and the others
    validate, the submit listener enters the branch that builds the mail
    and throws a [TypeError] on reading the absent input, before any
    navigation. *)



(** C9, as worded, fails where the field has no error container: the
    blur marks the field and no message is shown. *)


(** C9. When a field that has the [required] attribute and an empty
    trimmed value is blurred, it is marked invalid and its error
    container, if it has one, shows "To pole jest wymagane".  An input
    event on a field removes the marker and empties that container
    without validating again: the field's verdict is what it was,
    even if it is still invalid. *)



(** ** Scroll reveal *)

Section Reveal.

Context (doc : Document).

Lemma observerCallback_keeps entries e st :
  revealed e st ->
  exists st', observerCallback entries st = (Normal tt, st') /\ revealed e st'.
Proof.
  unfold observerCallback. revert st.
  induction entries as [|entry entries IH]; intros st Hr.
  - exists st. split; [reflexivity | exact Hr].
  - cbn [forEach]. cbv [mbind M_bind].
    destruct (isIntersecting entry); mrun.
    + apply IH. unfold revealed, hasClass in *. autorewrite with dom.
      destruct (decide (e = target entry)); [apply elem_of_union_l|]; exact Hr.
    + apply IH, Hr.
Qed.

(** Only the scroll-reveal component listens to intersection events, and
    only when it created its observer. *)

Lemma callbacks_intersect entries st :
  callbacks doc (Intersect entries) st
  = if prefersReducedMotion doc || (length (animatedElements doc) =? 0)%nat
    then [] else [observerCallback entries].
Proof.
  unfold callbacks, components. cbn [flat_map].
  unfold setupSmoothScroll, setupMobileMenu, setupHeaderScroll,
    setupScrollToTop, setupScrollAnimations, setupContactForm.
  destruct (menuToggle doc), (mainNav doc), (header doc), (scrollTopBtn doc),
    (contactForm doc),
    (prefersReducedMotion doc || (length (animatedElements doc) =? 0)%nat);
    reflexivity.
Qed.

Lemma dispatch_intersect_keeps entries e st :
  revealed e st ->
  fst (dispatch doc (Intersect entries) st) = []
  /\ revealed e (snd (dispatch doc (Intersect entries) st)).
Proof.
  intros Hr. unfold dispatch. rewrite callbacks_intersect. cbn [browser].
  destruct (prefersReducedMotion doc || _); cbn [foldl].
  - split; [reflexivity | exact Hr].
  - destruct (observerCallback_keeps entries e st Hr) as (st' & Hrun & Hr').
    unfold runListener. cbn [fst snd]. rewrite Hrun. split; [reflexivity | exact Hr'].
Qed.

Lemma run_snoc evs ev st :
  run doc (evs ++ [ev]) st
  = (fst (run doc evs st) ++ fst (dispatch doc ev (snd (run doc evs st))),
     snd (dispatch doc ev (snd (run doc evs st)))).
Proof. unfold run. rewrite foldl_app. reflexivity. Qed.

End Reveal.

(** C8. Whatever batches of intersection entries the observer delivers,
    in whatever order, an element that is marked revealed stays marked
    after all of them, and the callback never throws. *)

Theorem revealed_is_one_way (doc : Document) (e : elem) (st : State)
    (batches : list (list Entry)) :
  revealed e st ->
  fst (run doc (map Intersect batches) st) = []
  /\ revealed e (snd (run doc (map Intersect batches) st)).
Proof.
  intros Hr. induction batches as [|entries batches IH] using rev_ind.
  - split; [reflexivity | exact Hr].
  - rewrite map_app. cbn [map]. rewrite run_snoc. cbn [fst snd].
    destruct IH as [IHe IHr].
    destruct (dispatch_intersect_keeps doc entries e _ IHr) as [He Hr'].
    rewrite IHe, He. split; [reflexivity | exact Hr'].
Qed.

Lemma revealed_is_one_way_witness :
  let doc := Sample.page in
  let st := snd (dispatch doc (Intersect [mkEntry 40%nat true]) Sample.loaded) in
  let later := [[mkEntry 40%nat false]; [mkEntry 41%nat true; mkEntry 40%nat false]] in
  revealed 40%nat st
  /\ fst (run doc (map Intersect later) st) = []
  /\ revealed 40%nat (snd (run doc (map Intersect later) st)).
Proof.
  assert (Hr : revealed 40%nat
                 (snd (dispatch Sample.page (Intersect [mkEntry 40%nat true])
                         Sample.loaded))).
  { unfold revealed, hasClass. refine (bool_decide_unpack _ _).
    vm_compute. exact I. }
  split; [exact Hr|].
  exact (revealed_is_one_way Sample.page 40%nat _
           [[mkEntry 40%nat false]; [mkEntry 41%nat true; mkEntry 40%nat false]] Hr).
Defined.

(** ** Smooth scroll without its elements *)

Lemma anchorClick_without_panel (doc : Document) (a t : elem) (href : jsstring)
    (st : State) :
  attributes (element a st) !! "href" = Some href ->
  href <> lit "#" ->
  querySelector doc href = Normal (Some t) ->
  mainNav doc = None ->
  anchorClick doc a st = (Throw TypeError, with_effect PreventDefault st).
Proof.
  intros Hhref Hne Hq Hnav. unfold anchorClick. mrun. rewrite Hhref.
  rewrite decide_False by congruence. cbv [default from_option id].
  rewrite Hq, Hnav. reflexivity.
Qed.

(** C4.  On a page that has an in-page link and its target but no
    navigation panel, or no header, a click on the link ends in an
    uncaught [TypeError]; with both elements there it does not.  The
    other components test for their elements first (lines 76, 125, 159,
    226); [setupSmoothScroll] reads [mainNav.classList] and
    [header.offsetHeight] without a test. *)

Theorem anchor_click_throws_without_panel_or_header :
  querySelector Sample.page (lit "#kontakt") = Normal (Some 30%nat)
  /\ fst (dispatch Sample.noPanel (Click 20%nat) Sample.loaded) = [TypeError]
  /\ fst (dispatch Sample.noHeader (Click 20%nat) Sample.loaded) = [TypeError]
  /\ fst (dispatch Sample.page (Click 20%nat) Sample.loaded) = [].
Proof. repeat split; vm_compute; reflexivity. Qed.

(** ** The sample page, run *)

Example submit_sample :
  effects (snd (dispatch Sample.page (Submit 5%nat)
                  (Sample.filled (lit "Jan Kowalski") (lit "jan@example.com") []
                     (lit "Cześć"))))
  = [PreventDefault;
     Navigate (lit "mailto:kontakt@iteasier.pl?subject=Zapytanie%20ze%20strony%20ITEasier&body=Imi%C4%99%20i%20nazwisko%3A%20Jan%20Kowalski%0AE-mail%3A%20jan%40example.com%0A%0AWiadomo%C5%9B%C4%87%3A%0ACze%C5%9B%C4%87");
     SetTimeout 10000 0].
Proof. vm_compute. reflexivity. Qed.

Example anchor_sample :
  dispatch Sample.page (Click 20%nat) Sample.loaded
  = ([], exec (anchorClick Sample.page 20%nat) Sample.loaded)
  /\ effects (exec (anchorClick Sample.page 20%nat) Sample.loaded)
     = [PreventDefault; ScrollTo 1120 BehaviorSmooth; Focus 30%nat].
Proof. split; vm_compute; reflexivity. Qed.

(** Two scroll events before a frame queue one recomputation per
    watcher; the frame runs them and empties the queue. *)

Example scroll_coalesced :
  let st := exec (init Sample.page) Sample.loaded in
  frames (snd (run Sample.page [Scroll 120; Scroll 130] st))
  = [UpdateHeader; UpdateScrollTopVisibility]
  /\ frames (snd (run Sample.page [Scroll 120; Scroll 130; AnimationFrame] st)) = []
  /\ fst (run Sample.page [Scroll 120; Scroll 130; AnimationFrame] st) = [].
Proof. repeat split; vm_compute; reflexivity. Qed.

(** ** The reveal mark across all events of the page

    Beyond intersection events: of all listeners and callbacks of the
    script only the scroll-top watcher removes [is-visible], and only
    from the scroll-top button.  An element that is not that button keeps
    its mark through every event. *)

Section Keeps.

Context (P : State -> Prop).

Lemma keeps_ret {A} (a : A) : keeps P (mret a).
Proof. intros st H. exact H. Qed.

Lemma keeps_throw {A} e : keeps P (@throw A e).
Proof. intros st H. exact H. Qed.

Lemma keeps_gets {A} (f : State -> A) : keeps P (gets f).
Proof. intros st H. exact H. Qed.

Lemma keeps_lift {A} (c : completion A) : keeps P (lift c).
Proof. intros st H. exact H. Qed.

Lemma keeps_deref x : keeps P (deref x).
Proof. destruct x; intros st H; exact H. Qed.

Lemma keeps_modify f : (forall st, P st -> P (f st)) -> keeps P (modify f).
Proof. intros Hf st H. apply Hf, H. Qed.

Lemma keeps_bind {A B} (m : M A) (k : A -> M B) :
  keeps P m -> (forall a, keeps P (k a)) -> keeps P (m ≫= k).
Proof.
  intros Hm Hk st H. specialize (Hm st H).
  cbv [mbind M_bind]. destruct (m st) as [[a|e] st']; cbn [snd] in *.
  - apply Hk, Hm.
  - exact Hm.
Qed.

Lemma keeps_deref_bind {B} x (k : elem -> M B) :
  (forall a, x = Some a -> keeps P (k a)) -> keeps P (deref x ≫= k).
Proof.
  intros Hk. destruct x as [a|].
  - intros st H. apply (Hk a eq_refl), H.
  - intros st H. exact H.
Qed.

Lemma keeps_when b m : keeps P m -> keeps P (when b m).
Proof. intros Hm. destruct b; [exact Hm | apply keeps_ret]. Qed.

Lemma keeps_forEach {A} (l : list A) f :
  (forall a, keeps P (f a)) -> keeps P (forEach l f).
Proof.
  intros Hf. induction l as [|a l IH]; cbn [forEach].
  - apply keeps_ret.
  - apply keeps_bind; [apply Hf | intros _; exact IH].
Qed.

End Keeps.

Ltac keeps_step :=
  match goal with
  | |- keeps _ (mbind _ _) => apply keeps_bind; [|intro]
  | |- keeps _ (mret _) => apply keeps_ret
  | |- keeps _ (throw _) => apply keeps_throw
  | |- keeps _ (gets _) => apply keeps_gets
  | |- keeps _ (lift _) => apply keeps_lift
  | |- keeps _ (deref _) => apply keeps_deref
  | |- keeps _ (when _ _) => apply keeps_when
  | |- keeps _ (forEach _ _) => apply keeps_forEach; intro
  | |- keeps _ (if ?b then _ else _) => destruct b
  | |- keeps _ (match ?x with _ => _ end) => destruct x
  end.

Section RevealKept.

Context (doc : Document) (e : elem).
Hypothesis Hbtn : scrollTopBtn doc <> Some e.

Lemma kept_update_other g f :
  (forall el, "is-visible" ∈ classList el -> "is-visible" ∈ classList (f el)) ->
  keeps (revealed e) (update g f).
Proof.
  intros Hf. apply keeps_modify. intros st H.
  unfold revealed, hasClass in *. rewrite element_updated.
  destruct (decide (e = g)) as [->|]; [apply Hf|]; exact H.
Qed.

Lemma kept_classList_add g c : keeps (revealed e) (classList_add g c).
Proof. apply kept_update_other. intros el H. apply elem_of_union_l, H. Qed.

Lemma kept_classList_remove g c :
  c <> "is-visible" -> keeps (revealed e) (classList_remove g c).
Proof.
  intros Hc. apply kept_update_other. intros el H.
  apply elem_of_difference. split; [exact H|].
  intros Hin. apply elem_of_singleton in Hin. congruence.
Qed.

Lemma kept_setAttribute g k v : keeps (revealed e) (setAttribute g k v).
Proof. apply kept_update_other. intros el H. exact H. Qed.

Lemma kept_setTextContent g t : keeps (revealed e) (setTextContent g t).
Proof. apply kept_update_other. intros el H. exact H. Qed.

Lemma kept_effect x : keeps (revealed e) (effect x).
Proof. apply keeps_modify. intros st H. exact H. Qed.

Lemma kept_state f :
  (forall st, store (f st) = store st) -> keeps (revealed e) (modify f).
Proof.
  intros Hf. apply keeps_modify. intros st H.
  unfold revealed, hasClass, element in *. rewrite Hf. exact H.
Qed.

Ltac kept :=
  repeat first
    [ keeps_step
    | match goal with
      | |- keeps _ (classList_add _ _) => apply kept_classList_add
      | |- keeps _ (classList_remove _ _) =>
          apply kept_classList_remove; discriminate
      | |- keeps _ (setAttribute _ _ _) => apply kept_setAttribute
      | |- keeps _ (setTextContent _ _) => apply kept_setTextContent
      | |- keeps _ (effect _) => apply kept_effect
      | |- keeps _ (modify _) => apply kept_state; reflexivity
      end ].

Lemma kept_closeMobileMenu : keeps (revealed e) (closeMobileMenu doc).
Proof. unfold closeMobileMenu. kept. Qed.

Lemma kept_openMobileMenu : keeps (revealed e) (openMobileMenu doc).
Proof. unfold openMobileMenu. kept. Qed.

Lemma kept_toggleMobileMenu : keeps (revealed e) (toggleMobileMenu doc).
Proof.
  unfold toggleMobileMenu, classList_contains. kept;
    [apply kept_closeMobileMenu | apply kept_openMobileMenu].
Qed.

Lemma kept_closeIfOpen :
  keeps (revealed e)
    (nav ← deref (mainNav doc);
     isOpen ← classList_contains nav "is-open";
     when isOpen (closeMobileMenu doc)).
Proof. unfold classList_contains. kept. apply kept_closeMobileMenu. Qed.

Lemma kept_anchorClick a : keeps (revealed e) (anchorClick doc a).
Proof.
  unfold anchorClick, getAttribute, classList_contains. kept.
  apply kept_closeMobileMenu.
Qed.

Lemma kept_updateHeader : keeps (revealed e) (updateHeader doc).
Proof. unfold updateHeader. kept. Qed.

Lemma kept_updateScrollTopVisibility :
  keeps (revealed e) (updateScrollTopVisibility doc).
Proof.
  unfold updateScrollTopVisibility.
  do 2 (apply keeps_bind; [apply keeps_gets | intro]).
  apply keeps_deref_bind. intros btn Hb. kept.
  apply keeps_modify. intros st H.
  unfold revealed, hasClass in *.
  rewrite element_updated_ne by congruence. exact H.
Qed.

Lemma kept_menuKeydown key : keeps (revealed e) (menuKeydown doc key).
Proof.
  unfold menuKeydown. destruct (decide (key = lit "Escape"));
    [apply kept_closeIfOpen | apply keeps_ret].
Qed.

Lemma kept_navLinkClick : keeps (revealed e) (navLinkClick doc).
Proof. apply kept_closeIfOpen. Qed.

Lemma kept_headerScroll : keeps (revealed e) headerScroll.
Proof. unfold headerScroll. kept. Qed.

Lemma kept_scrollTopScroll : keeps (revealed e) scrollTopScroll.
Proof. unfold scrollTopScroll. kept. Qed.

Lemma kept_observerCallback entries : keeps (revealed e) (observerCallback entries).
Proof. unfold observerCallback. kept. Qed.

Lemma kept_showFieldError f message :
  keeps (revealed e) (showFieldError doc f message).
Proof. unfold showFieldError. kept. Qed.

Lemma kept_clearFieldError f : keeps (revealed e) (clearFieldError doc f).
Proof. unfold clearFieldError. kept. Qed.

Lemma kept_validateField input : keeps (revealed e) (validateField doc input).
Proof.
  unfold validateField. kept;
    [apply kept_showFieldError | apply kept_clearFieldError].
Qed.

Lemma kept_showFormSuccess : keeps (revealed e) (showFormSuccess doc).
Proof. unfold showFormSuccess. kept. Qed.

Lemma kept_openMailClient : keeps (revealed e) (openMailClient doc).
Proof. unfold openMailClient, trimmedValue. kept. apply kept_showFormSuccess. Qed.

Lemma kept_submitListener : keeps (revealed e) (submitListener doc).
Proof.
  unfold submitListener. cbv zeta.
  apply keeps_bind; [apply kept_effect | intros _].
  do 3 (apply keeps_bind; [apply kept_validateField | intro]).
  match goal with
  | |- keeps _ (if ?b then _ else _) =>
      destruct b; [apply kept_openMailClient | apply keeps_ret]
  end.
Qed.

Lemma kept_blurListener f : keeps (revealed e) (blurListener doc f).
Proof. unfold blurListener. kept. apply kept_validateField. Qed.

Lemma kept_removeNotice i : keeps (revealed e) (removeNotice i).
Proof. unfold removeNotice. kept. Qed.

Lemma kept_frameCallback cb : keeps (revealed e) (frameCallback doc cb).
Proof.
  destruct cb; [apply kept_updateHeader | apply kept_updateScrollTopVisibility].
Qed.

Ltac pick :=
  repeat match goal with
    | H : In _ [] |- _ => destruct H
    | H : In _ (_ :: _) |- _ => destruct H as [<-|H]
    | H : In _ (_ ++ _) |- _ => apply in_app_or in H as [H|H]
    | H : In _ (if ?c then _ else _) |- _ => destruct c
    | H : In _ (listeners idle _) |- _ => destruct H
    end.

(** Every listener a component registers keeps the mark. *)

Lemma kept_setupSmoothScroll ev l :
  In l (listeners (setupSmoothScroll doc) ev) -> keeps (revealed e) l.
Proof.
  destruct ev; cbn [listeners setupSmoothScroll]; intros H; pick.
  apply kept_anchorClick.
Qed.

Lemma kept_setupMobileMenu ev l :
  In l (listeners (setupMobileMenu doc) ev) -> keeps (revealed e) l.
Proof.
  unfold setupMobileMenu.
  destruct (menuToggle doc), (mainNav doc), ev; cbn [listeners idle];
    intros H; pick;
    first [ apply kept_toggleMobileMenu | apply kept_navLinkClick
          | apply kept_menuKeydown ].
Qed.

Lemma kept_setupHeaderScroll ev l :
  In l (listeners (setupHeaderScroll doc) ev) -> keeps (revealed e) l.
Proof.
  unfold setupHeaderScroll.
  destruct (header doc), ev; cbn [listeners idle]; intros H; pick.
  apply kept_headerScroll.
Qed.

Lemma kept_setupScrollToTop ev l :
  In l (listeners (setupScrollToTop doc) ev) -> keeps (revealed e) l.
Proof.
  unfold setupScrollToTop.
  case (scrollTopBtn doc); [intros btn|]; destruct ev; cbn [listeners idle];
    intros H; pick; first [apply kept_scrollTopScroll | apply kept_effect].
Qed.

Lemma kept_setupScrollAnimations ev l :
  In l (listeners (setupScrollAnimations doc) ev) -> keeps (revealed e) l.
Proof.
  unfold setupScrollAnimations.
  destruct (prefersReducedMotion doc || _), ev; cbn [listeners];
    intros H; pick.
  apply kept_observerCallback.
Qed.

Lemma kept_setupContactForm ev l :
  In l (listeners (setupContactForm doc) ev) -> keeps (revealed e) l.
Proof.
  unfold setupContactForm.
  destruct (contactForm doc), ev; cbn [listeners idle]; intros H; pick;
    try (apply in_flat_map in H as (input & _ & H); pick);
    first [ apply kept_blurListener | apply kept_clearFieldError
          | apply kept_submitListener ].
Qed.

Lemma kept_callbacks ev st l :
  In l (callbacks doc ev st) -> keeps (revealed e) l.
Proof.
  assert (Hc : In l (flat_map (fun c => listeners c ev) (components doc)) ->
               keeps (revealed e) l).
  { unfold components. cbn [flat_map]. intros H.
    repeat (apply in_app_or in H as [H|H]);
      eauto using kept_setupSmoothScroll, kept_setupMobileMenu,
        kept_setupHeaderScroll, kept_setupScrollToTop,
        kept_setupScrollAnimations, kept_setupContactForm.
    destruct H. }
  destruct ev; try exact Hc; cbn [callbacks]; intros H.
  - apply in_map_iff in H as (cb & <- & _). apply kept_frameCallback.
  - destruct H as [<-|[]]. apply kept_removeNotice.
Qed.

Lemma kept_listeners ls r :
  (forall l, In l ls -> keeps (revealed e) l) ->
  revealed e (snd r) -> revealed e (snd (foldl runListener r ls)).
Proof.
  revert r. induction ls as [|l ls IH]; intros r Hls Hr; [exact Hr|].
  cbn [foldl]. apply IH; [intros l' Hl'; apply Hls; right; exact Hl'|].
  specialize (Hls l (or_introl eq_refl) (snd r) Hr).
  unfold runListener. destruct (l (snd r)) as [[|err] st']; exact Hls.
Qed.

Lemma kept_dispatch ev st :
  revealed e st -> revealed e (snd (dispatch doc ev st)).
Proof.
  intros Hr. unfold dispatch. apply kept_listeners.
  - intros l. apply kept_callbacks.
  - destruct ev; exact Hr.
Qed.

Lemma kept_run evs st : revealed e st -> revealed e (snd (run doc evs st)).
Proof.
  intros Hr. induction evs as [|ev evs IH] using rev_ind; [exact Hr|].
  rewrite run_snoc. cbn [snd]. apply kept_dispatch, IH.
Qed.

End RevealKept.

(** X16. An element other than the scroll-top button, once revealed,
    stays revealed through every sequence of events of the page, not only
    through intersection events: nothing but the scroll-top watcher ever
    removes [is-visible], and it removes it from its button only. *)

Lemma revealed_survives_every_event (doc : Document) (e : elem)
    (evs : list Event) (st : State) :
  scrollTopBtn doc <> Some e ->
  revealed e st -> revealed e (snd (run doc evs st)).
Proof. intros Hbtn. apply kept_run, Hbtn. Qed.

(** ** In-page links beyond the missing elements *)

Section SmoothScroll.

Context (doc : Document).


Lemma anchorClick_query a st :
  attributes (element a st) !! "href" <> Some (lit "#") ->
  anchorClick doc a st
  = match querySelector doc
            (default (lit "null") (attributes (element a st) !! "href")) with
    | Throw err => (Throw err, st)
    | Normal None => (Normal tt, st)
    | Normal (Some t) =>
        (nav ← deref (mainNav doc);
         isOpen ← classList_contains nav "is-open";
         when isOpen (closeMobileMenu doc);;
         h ← deref (header doc);
         headerHeight ← gets (fun s => offsetHeight (element h s));
         targetTop ← gets (fun s => offsetTop (element t s));
         effect (ScrollTo (targetTop - headerHeight) (behavior doc));;
         setAttribute t "tabindex" (lit "-1");;
         effect (Focus t)) (with_effect PreventDefault st)
    end.
Proof.
  intros Hhref. unfold anchorClick.
  cbv [mbind M_bind getAttribute gets lift]. cbn [fst snd].
  rewrite decide_False by assumption.
  destruct (querySelector doc _) as [[t|]|err]; reflexivity.
Qed.

End SmoothScroll.

(** X1. A click on a link to ["#"] prevents the default action and asks
    for a scroll to the top, and that is all: it reads neither the header
    nor the navigation panel, so it returns on every page.  A click on a
    link whose target the document does not have changes nothing and
    leaves the default action to the browser; a selector the document
    rejects is thrown on, with nothing done either. *)



(** X2. On a page that has the header, the panel and the toggle, a click
    on a link whose target exists returns.  It prevents the default
    action, asks for a scroll to the target's offset less the header's
    height, gives the target [tabindex="-1"] and focuses it, in that
    order and nothing else; afterwards the menu is closed, and the body
    lock is released if the menu was open and untouched if it was not. *)



(** ** The menu's accessible state *)

Lemma runListener_normal r (l : M unit) st' :
  l (snd r) = (Normal tt, st') -> runListener r l = (fst r, st').
Proof. intros H. unfold runListener. rewrite H. reflexivity. Qed.

Section MenuAria.

Context (doc : Document) (toggle nav : elem).
Hypothesis Htoggle : menuToggle doc = Some toggle.
Hypothesis Hnav : mainNav doc = Some nav.

Lemma closeMobileMenu_full st :
  exists st',
    closeMobileMenu doc st = (Normal tt, st')
    /\ ~ menuOpen nav st' /\ shownClosed toggle st'.
Proof.
  unfold closeMobileMenu. rewrite Htoggle, Hnav. mrun.
  eexists. split; [reflexivity|]. split; [|split; [|split]].
  - unfold menuOpen, hasClass. autorewrite with dom.
    rewrite decide_True by reflexivity.
    intros H. apply elem_of_difference in H as [_ H].
    apply H, elem_of_singleton. reflexivity.
  - rewrite element_with_bodyOverflow, !element_updated_eq.
    cbn [attributes with_attributes].
    rewrite lookup_insert_ne by discriminate. apply lookup_insert_eq.
  - rewrite element_with_bodyOverflow, !element_updated_eq.
    cbn [attributes with_attributes]. apply lookup_insert_eq.
  - reflexivity.
Qed.

Lemma openMobileMenu_full st :
  exists st',
    openMobileMenu doc st = (Normal tt, st')
    /\ menuOpen nav st' /\ shownOpen toggle st'.
Proof.
  unfold openMobileMenu. rewrite Htoggle, Hnav. mrun.
  eexists. split; [reflexivity|]. split; [|split; [|split]].
  - unfold menuOpen, hasClass. autorewrite with dom.
    rewrite decide_True by reflexivity.
    apply elem_of_union_r, elem_of_singleton. reflexivity.
  - rewrite element_with_bodyOverflow, !element_updated_eq.
    cbn [attributes with_attributes].
    rewrite lookup_insert_ne by discriminate. apply lookup_insert_eq.
  - rewrite element_with_bodyOverflow, !element_updated_eq.
    cbn [attributes with_attributes]. apply lookup_insert_eq.
  - reflexivity.
Qed.

(** Every input returns and keeps the mirror; a toggle click sets it up
    from any state. *)

Lemma menu_step_mirror i st :
  exists st',
    menuListener doc i st = (Normal tt, st')
    /\ (menuMirrored toggle nav st -> menuMirrored toggle nav st')
    /\ (i = ToggleClick -> menuMirrored toggle nav st').
Proof.
  assert (Hclose :
    exists st',
      (if bool_decide ("is-open" ∈ classList (element nav st))
       then closeMobileMenu doc st else (Normal tt, st)) = (Normal tt, st')
      /\ (menuMirrored toggle nav st -> menuMirrored toggle nav st')).
  { destruct (bool_decide _).
    - destruct (closeMobileMenu_full st) as (st' & -> & Hc & Hs).
      exists st'. split; [reflexivity|]. intros _. split; tauto.
    - exists st. split; [reflexivity | tauto]. }
  destruct i as [|key|]; cbn [menuListener].
  - rewrite (toggleMobileMenu_run doc nav Hnav). destruct (bool_decide _).
    + destruct (closeMobileMenu_full st) as (st' & -> & Hc & Hs).
      exists st'. split; [reflexivity|]. split; intros _; split; tauto.
    + destruct (openMobileMenu_full st) as (st' & -> & Ho & Hs).
      exists st'. split; [reflexivity|]. split; intros _; split; tauto.
  - unfold menuKeydown. destruct (decide (key = lit "Escape")).
    + rewrite (closeIfOpen_run doc nav Hnav).
      destruct Hclose as (st' & -> & H). exists st'.
      split; [reflexivity|]. split; [exact H | discriminate].
    + exists st. split; [reflexivity|]. split; [tauto | discriminate].
  - unfold navLinkClick. rewrite (closeIfOpen_run doc nav Hnav).
    destruct Hclose as (st' & -> & H). exists st'.
    split; [reflexivity|]. split; [exact H | discriminate].
Qed.

Lemma menu_listeners_mirror inputs r :
  menuMirrored toggle nav (snd r) ->
  menuMirrored toggle nav
    (snd (foldl runListener r (map (menuListener doc) inputs))).
Proof.
  revert r. induction inputs as [|i inputs IH]; intros r Hr; [exact Hr|].
  cbn [map foldl]. apply IH.
  destruct (menu_step_mirror i (snd r)) as (st' & Hrun & Hkeep & _).
  rewrite (runListener_normal _ _ _ Hrun). apply Hkeep, Hr.
Qed.

End MenuAria.

(** X3. On a page that has the toggle and the panel, from the first
    toggle click on, whatever the page looked like before and whatever
    toggle clicks, key presses and navigation-link clicks follow: when
    the panel is open the toggle says [aria-expanded="true"] and "Zamknij
    menu" and the body's overflow is hidden; when it is closed the toggle
    says [aria-expanded="false"] and "Otwórz menu" and the body's
    overflow is reset. *)

Theorem menu_mirrored_after_toggle (doc : Document) (toggle nav : elem)
    (before after : list MenuInput) (st0 : State) :
  menuToggle doc = Some toggle -> mainNav doc = Some nav ->
  menuMirrored toggle nav
    (snd (menuRun doc (before ++ ToggleClick :: after) st0)).
Proof.
  intros Ht Hn. unfold menuRun. rewrite map_app, foldl_app. cbn [map foldl].
  apply (menu_listeners_mirror doc toggle nav Ht Hn).
  destruct (menu_step_mirror doc toggle nav Ht Hn ToggleClick
              (snd (foldl runListener ([], st0) (map (menuListener doc) before))))
    as (st' & Hrun & _ & Hset).
  rewrite (runListener_normal _ _ _ Hrun). apply Hset. reflexivity.
Qed.

Lemma menu_mirrored_after_toggle_witness :
  let doc := Sample.page in
  menuToggle doc = Some 2%nat /\ mainNav doc = Some 3%nat
  /\ menuMirrored 2%nat 3%nat
       (snd (menuRun doc ([Key (lit "Escape")] ++ ToggleClick :: [NavLinkClick; ToggleClick])
               Sample.loaded)).
Proof.
  split; [reflexivity|]. split; [reflexivity|].
  exact (menu_mirrored_after_toggle Sample.page 2%nat 3%nat [Key (lit "Escape")]
           [NavLinkClick; ToggleClick] Sample.loaded eq_refl eq_refl).
Defined.

(** ** Properties no listener disturbs

    A property of the state that survives every write to the element
    store, to the body's overflow, to the observer's targets and to the
    notices, and every effect the motion preference allows, is kept by
    every listener but those of the scroll watchers; if it also survives
    the writes of the watchers, it is kept by every event. *)

Lemma keeps_listeners (P : State -> Prop) ls r :
  (forall l, In l ls -> keeps P l) ->
  P (snd r) -> P (snd (foldl runListener r ls)).
Proof.
  revert r. induction ls as [|l ls IH]; intros r Hls Hr; [exact Hr|].
  cbn [foldl]. apply IH; [intros l' Hl'; apply Hls; right; exact Hl'|].
  specialize (Hls l (or_introl eq_refl) (snd r) Hr).
  unfold runListener. destruct (l (snd r)) as [[|err] st']; exact Hls.
Qed.

Ltac pick_listener :=
  repeat match goal with
    | H : In _ [] |- _ => destruct H
    | H : In _ (_ :: _) |- _ => destruct H as [<-|H]
    | H : In _ (_ ++ _) |- _ => apply in_app_or in H as [H|H]
    | H : In _ (if ?c then _ else _) |- _ => destruct c
    | H : In _ (listeners idle _) |- _ => destruct H
    end.

Section Quiet.

Context (doc : Document) (P : State -> Prop).
Hypothesis Hstore : forall g f st, P st -> P (updated g f st).
Hypothesis Hbody : forall v st, P st -> P (with_bodyOverflow v st).
Hypothesis Hobserved : forall f st, P st -> P (with_observed f st).
Hypothesis Hnotices : forall f st, P st -> P (with_notices f st).
Hypothesis Heffect : forall x st, allowed doc x -> P st -> P (with_effect x st).

Ltac quiet :=
  repeat first
    [ keeps_step
    | match goal with
      | |- keeps _ (classList_add _ _) =>
          apply keeps_modify; intros ? ?; apply Hstore; assumption
      | |- keeps _ (classList_remove _ _) =>
          apply keeps_modify; intros ? ?; apply Hstore; assumption
      | |- keeps _ (setAttribute _ _ _) =>
          apply keeps_modify; intros ? ?; apply Hstore; assumption
      | |- keeps _ (setTextContent _ _) =>
          apply keeps_modify; intros ? ?; apply Hstore; assumption
      | |- keeps _ (effect _) =>
          apply keeps_modify; intros ? ?;
          apply Heffect; [intros ? ? ?; congruence | assumption]
      | |- keeps _ (modify (with_bodyOverflow _)) =>
          apply keeps_modify; intros ? ?; apply Hbody; assumption
      | |- keeps _ (modify (with_observed _)) =>
          apply keeps_modify; intros ? ?; apply Hobserved; assumption
      | |- keeps _ (modify (with_notices _)) =>
          apply keeps_modify; intros ? ?; apply Hnotices; assumption
      end ].

Lemma quiet_closeMobileMenu : keeps P (closeMobileMenu doc).
Proof. unfold closeMobileMenu. quiet. Qed.

Lemma quiet_openMobileMenu : keeps P (openMobileMenu doc).
Proof. unfold openMobileMenu. quiet. Qed.

Lemma quiet_toggleMobileMenu : keeps P (toggleMobileMenu doc).
Proof.
  unfold toggleMobileMenu, classList_contains. quiet;
    [apply quiet_closeMobileMenu | apply quiet_openMobileMenu].
Qed.

Lemma quiet_closeIfOpen :
  keeps P
    (nav ← deref (mainNav doc);
     isOpen ← classList_contains nav "is-open";
     when isOpen (closeMobileMenu doc)).
Proof. unfold classList_contains. quiet. apply quiet_closeMobileMenu. Qed.

Lemma quiet_menuKeydown key : keeps P (menuKeydown doc key).
Proof.
  unfold menuKeydown. destruct (decide (key = lit "Escape"));
    [apply quiet_closeIfOpen | apply keeps_ret].
Qed.

Lemma quiet_anchorClick a : keeps P (anchorClick doc a).
Proof.
  unfold anchorClick, getAttribute, classList_contains. quiet.
  apply quiet_closeMobileMenu.
Qed.

Lemma quiet_scrollTopClick : keeps P (scrollTopClick doc).
Proof. unfold scrollTopClick. quiet. Qed.

Lemma quiet_observerCallback entries : keeps P (observerCallback entries).
Proof. unfold observerCallback. quiet. Qed.

Lemma quiet_clearFieldError f : keeps P (clearFieldError doc f).
Proof. unfold clearFieldError. quiet. Qed.

Lemma quiet_validateField input : keeps P (validateField doc input).
Proof. unfold validateField, showFieldError, clearFieldError. quiet. Qed.

Lemma quiet_blurListener f : keeps P (blurListener doc f).
Proof. unfold blurListener. quiet. apply quiet_validateField. Qed.

Lemma quiet_openMailClient : keeps P (openMailClient doc).
Proof. unfold openMailClient, trimmedValue, showFormSuccess. quiet. Qed.

Lemma quiet_submitListener : keeps P (submitListener doc).
Proof.
  unfold submitListener. cbv zeta.
  apply keeps_bind; [quiet | intros _].
  do 3 (apply keeps_bind; [apply quiet_validateField | intro]).
  match goal with
  | |- keeps _ (if ?b then _ else _) =>
      destruct b; [apply quiet_openMailClient | apply keeps_ret]
  end.
Qed.

Lemma quiet_removeNotice i : keeps P (removeNotice i).
Proof. unfold removeNotice. quiet. Qed.

(** The listeners of every component but the two watchers. *)

Lemma quiet_setupSmoothScroll ev l :
  In l (listeners (setupSmoothScroll doc) ev) -> keeps P l.
Proof.
  destruct ev; cbn [listeners setupSmoothScroll]; intros H; pick_listener.
  apply quiet_anchorClick.
Qed.

Lemma quiet_setupMobileMenu ev l :
  In l (listeners (setupMobileMenu doc) ev) -> keeps P l.
Proof.
  unfold setupMobileMenu.
  case (menuToggle doc); [intros toggle|]; (case (mainNav doc); [intros nav|]);
    destruct ev; cbn [listeners idle]; intros H; pick_listener;
    first [ apply quiet_toggleMobileMenu | apply quiet_closeIfOpen
          | apply quiet_menuKeydown ].
Qed.

Lemma quiet_setupScrollAnimations ev l :
  In l (listeners (setupScrollAnimations doc) ev) -> keeps P l.
Proof.
  unfold setupScrollAnimations.
  case (prefersReducedMotion doc || _); destruct ev; cbn [listeners];
    intros H; pick_listener.
  apply quiet_observerCallback.
Qed.

Lemma quiet_setupContactForm ev l :
  In l (listeners (setupContactForm doc) ev) -> keeps P l.
Proof.
  unfold setupContactForm.
  case (contactForm doc); [intros form|]; destruct ev; cbn [listeners idle];
    intros H; pick_listener;
    try (apply in_flat_map in H as (input & _ & H); pick_listener);
    first [ apply quiet_blurListener | apply quiet_clearFieldError
          | apply quiet_submitListener ].
Qed.

Lemma quiet_setupScrollToTop_click on l :
  In l (listeners (setupScrollToTop doc) (Click on)) -> keeps P l.
Proof.
  unfold setupScrollToTop.
  case (scrollTopBtn doc); [intros btn|]; cbn [listeners idle];
    intros H; pick_listener.
  apply quiet_scrollTopClick.
Qed.

Lemma watchers_silent ev :
  (forall y, ev <> Scroll y) ->
  listeners (setupHeaderScroll doc) ev = []
  /\ (forall l, In l (listeners (setupScrollToTop doc) ev) ->
      exists on, ev = Click on).
Proof.
  intros Hev. unfold setupHeaderScroll, setupScrollToTop.
  case (header doc); [intros h|]; (case (scrollTopBtn doc); [intros btn|]);
    destruct ev; cbn [listeners idle]; split; try reflexivity;
    try (intros l []); try (exfalso; eapply Hev; reflexivity); eauto.
Qed.

Lemma quiet_callbacks ev st l :
  (forall y, ev <> Scroll y) -> ev <> AnimationFrame ->
  In l (callbacks doc ev st) -> keeps P l.
Proof.
  intros Hscroll Hframe.
  assert (Hc : In l (flat_map (fun c => listeners c ev) (components doc)) ->
               keeps P l).
  { unfold components. cbn [flat_map]. intros H.
    destruct (watchers_silent ev Hscroll) as [Hh Ht]. rewrite Hh in H.
    repeat (apply in_app_or in H as [H|H]);
      eauto using quiet_setupSmoothScroll, quiet_setupMobileMenu,
        quiet_setupScrollAnimations, quiet_setupContactForm.
    - destruct H.
    - destruct (Ht l H) as [on ->]. eapply quiet_setupScrollToTop_click, H.
    - destruct H. }
  destruct ev; try exact Hc; cbn [callbacks]; intros H.
  - congruence.
  - destruct H as [<-|[]]. apply quiet_removeNotice.
Qed.

Lemma quiet_dispatch ev st :
  (forall y, ev <> Scroll y) -> ev <> AnimationFrame ->
  P st -> P (snd (dispatch doc ev st)).
Proof.
  intros Hscroll Hframe Hst. unfold dispatch. apply keeps_listeners.
  - intros l. apply quiet_callbacks; assumption.
  - destruct ev; try exact Hst; [exfalso; eapply Hscroll; reflexivity | congruence].
Qed.

End Quiet.

(** ** The scroll watchers' wiring *)

Section WatcherWiring.

Context (doc : Document).

Lemma callbacks_scroll y st :
  callbacks doc (Scroll y) st
  = match header doc with Some _ => [headerScroll] | None => [] end
    ++ match scrollTopBtn doc with Some _ => [scrollTopScroll] | None => [] end.
Proof.
  unfold callbacks, components. cbn [flat_map].
  unfold setupSmoothScroll, setupMobileMenu, setupHeaderScroll,
    setupScrollToTop, setupScrollAnimations, setupContactForm.
  destruct (menuToggle doc), (mainNav doc), (header doc), (scrollTopBtn doc),
    (contactForm doc),
    (prefersReducedMotion doc || (length (animatedElements doc) =? 0)%nat);
    reflexivity.
Qed.

End WatcherWiring.

(** ** Scrolls and the motion preference *)

Section Gentle.

Context (doc : Document).

Lemma gentle_same st st' :
  effects st' = effects st -> gentle doc st -> gentle doc st'.
Proof. unfold gentle. intros ->. auto. Qed.

Lemma gentle_effect x st :
  allowed doc x -> gentle doc st -> gentle doc (with_effect x st).
Proof.
  intros Hx Hst x' Hin. cbn [effects with_effect] in Hin.
  apply in_app_or in Hin as [Hin|[<-|[]]]; [apply Hst, Hin | exact Hx].
Qed.

Lemma gentle_modify f :
  (forall st, effects (f st) = effects st) -> keeps (gentle doc) (modify f).
Proof. intros Hf. apply keeps_modify. intros st. apply gentle_same, Hf. Qed.

Ltac gentle_kept :=
  repeat first [keeps_step | apply gentle_modify; reflexivity].

Lemma gentle_headerScroll : keeps (gentle doc) headerScroll.
Proof. unfold headerScroll. gentle_kept. Qed.

Lemma gentle_scrollTopScroll : keeps (gentle doc) scrollTopScroll.
Proof. unfold scrollTopScroll. gentle_kept. Qed.

Lemma gentle_frameCallback cb : keeps (gentle doc) (frameCallback doc cb).
Proof.
  destruct cb; cbn [frameCallback];
    unfold updateHeader, updateScrollTopVisibility; gentle_kept.
Qed.

Lemma gentle_dispatch ev st :
  gentle doc st -> gentle doc (snd (dispatch doc ev st)).
Proof.
  intros Hst.
  assert (Hq : (forall y, ev <> Scroll y) -> ev <> AnimationFrame ->
               gentle doc (snd (dispatch doc ev st))).
  { intros H1 H2. apply (quiet_dispatch doc (gentle doc)); try assumption.
    - intros g f s. apply gentle_same. reflexivity.
    - intros v s. apply gentle_same. reflexivity.
    - intros f s. apply gentle_same. reflexivity.
    - intros f s. apply gentle_same. reflexivity.
    - intros x s. apply gentle_effect. }
  destruct ev as [on|key|y| |entries|on|on|on|i];
    try (apply Hq; [intros; discriminate | discriminate]).
  - unfold dispatch. apply keeps_listeners; [|exact Hst].
    intros l. rewrite callbacks_scroll. intros H.
    apply in_app_or in H as [H|H];
      [destruct (header doc) | destruct (scrollTopBtn doc)];
      pick_listener; [apply gentle_headerScroll | apply gentle_scrollTopScroll].
  - unfold dispatch. apply keeps_listeners; [|exact Hst].
    intros l H. cbn [callbacks] in H.
    apply in_map_iff in H as (cb & <- & _). apply gentle_frameCallback.
Qed.

Lemma gentle_run evs st : gentle doc st -> gentle doc (snd (run doc evs st)).
Proof.
  intros Hst. induction evs as [|ev evs IH] using rev_ind; [exact Hst|].
  rewrite run_snoc. cbn [snd]. apply gentle_dispatch, IH.
Qed.

End Gentle.

(** X4. Through every sequence of events, every scroll the script asks
    for has the behaviour the motion preference gives: instant when
    reduced motion is preferred, smooth otherwise.  With reduced motion
    preferred the script never asks for a smooth scroll. *)

Theorem scrolls_follow_motion_preference (doc : Document) (evs : list Event)
    (st : State) :
  gentle doc st ->
  gentle doc (snd (run doc evs st))
  /\ (prefersReducedMotion doc = true ->
      forall top, ~ In (ScrollTo top BehaviorSmooth) (effects (snd (run doc evs st)))).
Proof.
  intros Hst. pose proof (gentle_run doc evs st Hst) as Hrun.
  split; [exact Hrun|]. intros Hred top Hin.
  specialize (Hrun _ Hin top BehaviorSmooth eq_refl).
  unfold behavior in Hrun. rewrite Hred in Hrun. discriminate.
Qed.

Lemma scrolls_follow_motion_preference_witness :
  let evs := [Click 20%nat; Click 4%nat; Scroll 900; AnimationFrame; Click 21%nat] in
  gentle Sample.page Sample.loaded
  /\ gentle Sample.page (snd (run Sample.page evs Sample.loaded)).
Proof.
  assert (H : gentle Sample.page Sample.loaded) by (intros x []).
  split; [exact H|].
  exact (proj1 (scrolls_follow_motion_preference Sample.page
                  [Click 20%nat; Click 4%nat; Scroll 900; AnimationFrame;
                   Click 21%nat] Sample.loaded H)).
Defined.

(** ** Frame coalescing *)

Section Coalescing.

Context (doc : Document).

Lemma coalesced_same st st' :
  frames st' = frames st -> headerTicking st' = headerTicking st ->
  scrollTopTicking st' = scrollTopTicking st ->
  coalesced doc st -> coalesced doc st'.
Proof. unfold coalesced, pending. intros -> -> ->. auto. Qed.

Lemma headerScroll_run st :
  headerScroll st
  = (Normal tt,
     if headerTicking st then st
     else with_headerTicking true (with_frames (fun q => q ++ [UpdateHeader]) st)).
Proof. unfold headerScroll. mrun. destruct (headerTicking st); reflexivity. Qed.

Lemma scrollTopScroll_run st :
  scrollTopScroll st
  = (Normal tt,
     if scrollTopTicking st then st
     else with_scrollTopTicking true
            (with_frames (fun q => q ++ [UpdateScrollTopVisibility]) st)).
Proof. unfold scrollTopScroll. mrun. destruct (scrollTopTicking st); reflexivity. Qed.

Lemma coalesced_headerScroll :
  is_Some (header doc) -> keeps (coalesced doc) headerScroll.
Proof.
  intros Hh st (Hnd & Hht & Hst & Hph & Hps). rewrite headerScroll_run. cbn [snd].
  unfold coalesced, pending in *.
  destruct (headerTicking st) eqn:Ht; [tauto|].
  cbn [frames headerTicking scrollTopTicking with_headerTicking with_frames].
  assert (Hnot : ~ In UpdateHeader (frames st))
    by (intros Hin; apply Hht in Hin; discriminate).
  repeat split; try tauto.
  - apply NoDup_app. split; [exact Hnd|]. split; [|apply NoDup_singleton].
    intros cb Hcb Hin. apply list_elem_of_In in Hcb.
    apply list_elem_of_In in Hin. destruct Hin as [<-|[]]. tauto.
  - intros _. apply in_or_app. right. left. reflexivity.
  - intros Hs. apply in_or_app. left. apply Hst, Hs.
  - intros Hin. apply in_app_or in Hin as [Hin|[Hin|[]]];
      [apply Hst, Hin | discriminate].
  - intros Hin. apply Hps. apply in_app_or in Hin as [Hin|[Hin|[]]];
      [exact Hin | discriminate].
Qed.

Lemma coalesced_scrollTopScroll :
  is_Some (scrollTopBtn doc) -> keeps (coalesced doc) scrollTopScroll.
Proof.
  intros Hb st (Hnd & Hht & Hst & Hph & Hps). rewrite scrollTopScroll_run.
  cbn [snd]. unfold coalesced, pending in *.
  destruct (scrollTopTicking st) eqn:Ht; [tauto|].
  cbn [frames headerTicking scrollTopTicking with_scrollTopTicking with_frames].
  assert (Hnot : ~ In UpdateScrollTopVisibility (frames st))
    by (intros Hin; apply Hst in Hin; discriminate).
  repeat split; try tauto.
  - apply NoDup_app. split; [exact Hnd|]. split; [|apply NoDup_singleton].
    intros cb Hcb Hin. apply list_elem_of_In in Hcb.
    apply list_elem_of_In in Hin. destruct Hin as [<-|[]]. tauto.
  - intros Hs. apply in_or_app. left. apply Hht, Hs.
  - intros Hin. apply in_app_or in Hin as [Hin|[Hin|[]]];
      [apply Hht, Hin | discriminate].
  - intros _. apply in_or_app. right. left. reflexivity.
  - intros Hin. apply Hph. apply in_app_or in Hin as [Hin|[Hin|[]]];
      [exact Hin | discriminate].
Qed.

Lemma coalesced_scroll y st :
  coalesced doc st ->
  fst (dispatch doc (Scroll y) st) = []
  /\ coalesced doc (snd (dispatch doc (Scroll y) st))
  /\ scrollY (snd (dispatch doc (Scroll y) st)) = y
  /\ innerHeight (snd (dispatch doc (Scroll y) st)) = innerHeight st
  /\ (is_Some (header doc) ->
      pending UpdateHeader (snd (dispatch doc (Scroll y) st)))
  /\ (is_Some (scrollTopBtn doc) ->
      pending UpdateScrollTopVisibility (snd (dispatch doc (Scroll y) st))).
Proof.
  intros Hst. unfold dispatch. rewrite callbacks_scroll. cbn [browser].
  assert (H0 : coalesced doc (with_scrollY y st))
    by (eapply coalesced_same; try exact Hst; reflexivity).
  assert (Hy : scrollY (with_scrollY y st) = y) by reflexivity.
  assert (Hi : innerHeight (with_scrollY y st) = innerHeight st) by reflexivity.
  revert H0 Hy Hi. generalize (with_scrollY y st). intros s0 H0 Hy Hi.
  destruct (header doc) as [h|] eqn:Eh, (scrollTopBtn doc) as [btn|] eqn:Eb;
    cbn [app foldl].
  - pose proof (coalesced_headerScroll ltac:(rewrite Eh; eauto) s0 H0) as C1.
    rewrite (runListener_normal _ headerScroll _ (headerScroll_run _)).
    rewrite headerScroll_run in C1. cbn [fst snd] in *.
    pose proof (coalesced_scrollTopScroll ltac:(rewrite Eb; eauto) _ C1) as C2.
    rewrite (runListener_normal _ scrollTopScroll _ (scrollTopScroll_run _)).
    rewrite scrollTopScroll_run in C2. cbn [fst snd] in *.
    split; [reflexivity|]. split; [exact C2|].
    destruct H0 as (_ & Hht & Hsc & _). unfold pending in *.
    destruct (headerTicking s0) eqn:E1;
      cbn [scrollTopTicking with_headerTicking with_frames];
      destruct (scrollTopTicking s0) eqn:E2;
      cbn [frames scrollY innerHeight with_scrollTopTicking with_headerTicking
             with_frames];
      rewrite ?in_app_iff; cbn [In];
      repeat split; auto; intros _; intuition auto.
  - pose proof (coalesced_headerScroll ltac:(rewrite Eh; eauto) s0 H0) as C1.
    rewrite (runListener_normal _ headerScroll _ (headerScroll_run _)).
    rewrite headerScroll_run in C1. cbn [fst snd] in *.
    split; [reflexivity|]. split; [exact C1|].
    destruct H0 as (_ & Hht & Hsc & _). unfold pending in *.
    destruct (headerTicking s0) eqn:E1;
      cbn [frames scrollY innerHeight with_headerTicking with_frames];
      rewrite ?in_app_iff; cbn [In];
      repeat split; auto; try (intros [? ?]; discriminate);
      intros _; intuition auto.
  - pose proof (coalesced_scrollTopScroll ltac:(rewrite Eb; eauto) s0 H0) as C1.
    rewrite (runListener_normal _ scrollTopScroll _ (scrollTopScroll_run _)).
    rewrite scrollTopScroll_run in C1. cbn [fst snd] in *.
    split; [reflexivity|]. split; [exact C1|].
    destruct H0 as (_ & Hht & Hsc & _). unfold pending in *.
    destruct (scrollTopTicking s0) eqn:E1;
      cbn [frames scrollY innerHeight with_scrollTopTicking with_frames];
      rewrite ?in_app_iff; cbn [In];
      repeat split; auto; try (intros [? ?]; discriminate);
      intros _; intuition auto.
  - cbn [fst snd]. split; [reflexivity|]. split; [exact H0|].
    repeat split; auto; intros [? ?]; discriminate.
Qed.

Lemma coalesced_idle st :
  frames st = [] -> headerTicking st = false -> scrollTopTicking st = false ->
  coalesced doc st.
Proof.
  intros Hf Hh Hs. unfold coalesced, pending. rewrite Hf, Hh, Hs.
  repeat split; try (intros H; solve [discriminate H | destruct H]).
  apply NoDup_nil_2.
Qed.

Lemma frames_cases (l : list FrameCallback) :
  NoDup l ->
  l = [] \/ l = [UpdateHeader] \/ l = [UpdateScrollTopVisibility]
  \/ l = [UpdateHeader; UpdateScrollTopVisibility]
  \/ l = [UpdateScrollTopVisibility; UpdateHeader].
Proof.
  intros H.
  destruct l as [|a [|b [|c l]]]; [tauto | destruct a; tauto | |].
  - apply NoDup_cons in H as [Ha _]. apply not_elem_of_cons in Ha as [Ha _].
    destruct a, b; tauto.
  - apply NoDup_cons in H as [Ha H]. apply NoDup_cons in H as [Hb _].
    apply not_elem_of_cons in Ha as [Hab Ha].
    apply not_elem_of_cons in Ha as [Hac _].
    apply not_elem_of_cons in Hb as [Hbc _].
    destruct a, b, c; congruence.
Qed.

Lemma switched_same (b : bool) c e st :
  c ∈ classList (element e
         (updated e (with_classList (fun cs =>
            if b then cs ∪ {[c]} else cs ∖ {[c]})) st))
  <-> b = true.
Proof.
  rewrite element_updated_eq. cbn [classList with_classList]. apply class_switch.
Qed.

Lemma switched_other (b : bool) (c c' : string) g e st :
  c <> c' ->
  c ∈ classList (element g
         (updated e (with_classList (fun cs =>
            if b then cs ∪ {[c']} else cs ∖ {[c']})) st))
  <-> c ∈ classList (element g st).
Proof.
  intros Hc. rewrite element_updated.
  destruct (decide (g = e)) as [->|]; [|reflexivity].
  cbn [classList with_classList]. destruct b.
  - rewrite elem_of_union, elem_of_singleton. tauto.
  - rewrite elem_of_difference, elem_of_singleton. tauto.
Qed.

(** What a recomputation changes and what it leaves. *)

Lemma updateHeader_frame h st :
  header doc = Some h ->
  exists st',
    updateHeader doc st = (Normal tt, st')
    /\ frames st' = frames st /\ headerTicking st' = false
    /\ scrollTopTicking st' = scrollTopTicking st
    /\ scrollY st' = scrollY st /\ innerHeight st' = innerHeight st
    /\ (hasClass "header--scrolled" h st' <-> (50 < scrollY st)%Q)
    /\ (forall c g, c <> "header--scrolled" -> hasClass c g st' <-> hasClass c g st).
Proof.
  intros Hh. rewrite (updateHeader_run doc h st Hh). eexists.
  split; [reflexivity|]. do 5 (split; [reflexivity|]). unfold hasClass. split.
  - autorewrite with dom. rewrite <- Qgtb_spec. apply switched_same.
  - intros c g Hc. autorewrite with dom. apply switched_other, Hc.
Qed.

Lemma updateScrollTopVisibility_frame btn st :
  scrollTopBtn doc = Some btn ->
  exists st',
    updateScrollTopVisibility doc st = (Normal tt, st')
    /\ frames st' = frames st /\ headerTicking st' = headerTicking st
    /\ scrollTopTicking st' = false
    /\ scrollY st' = scrollY st /\ innerHeight st' = innerHeight st
    /\ (hasClass "is-visible" btn st'
        <-> (inject_Z (innerHeight st) * (1 # 2) < scrollY st)%Q)
    /\ (forall c g, c <> "is-visible" -> hasClass c g st' <-> hasClass c g st).
Proof.
  intros Hb. rewrite (updateScrollTopVisibility_run doc btn st Hb). eexists.
  split; [reflexivity|]. do 5 (split; [reflexivity|]). unfold hasClass. split.
  - autorewrite with dom. rewrite <- Qgtb_spec. apply switched_same.
  - intros c g Hc. autorewrite with dom. apply switched_other, Hc.
Qed.

(** A frame runs what is pending, once each, and leaves nothing pending:
    a watcher that was pending has recomputed from the current offset. *)

Lemma coalesced_frame st :
  coalesced doc st ->
  fst (dispatch doc AnimationFrame st) = []
  /\ frames (snd (dispatch doc AnimationFrame st)) = []
  /\ headerTicking (snd (dispatch doc AnimationFrame st)) = false
  /\ scrollTopTicking (snd (dispatch doc AnimationFrame st)) = false
  /\ scrollY (snd (dispatch doc AnimationFrame st)) = scrollY st
  /\ innerHeight (snd (dispatch doc AnimationFrame st)) = innerHeight st
  /\ (forall h, header doc = Some h -> pending UpdateHeader st ->
      hasClass "header--scrolled" h (snd (dispatch doc AnimationFrame st))
      <-> (50 < scrollY st)%Q)
  /\ (forall btn, scrollTopBtn doc = Some btn ->
      pending UpdateScrollTopVisibility st ->
      hasClass "is-visible" btn (snd (dispatch doc AnimationFrame st))
      <-> (inject_Z (innerHeight st) * (1 # 2) < scrollY st)%Q).
Proof.
  intros (Hnd & Hht & Hsc & Hph & Hps). unfold pending in *.
  assert (Ht1 : ~ In UpdateHeader (frames st) -> headerTicking st = false).
  { destruct (headerTicking st); [|reflexivity].
    intros H. exfalso. apply H, Hht. reflexivity. }
  assert (Ht2 : ~ In UpdateScrollTopVisibility (frames st) ->
                scrollTopTicking st = false).
  { destruct (scrollTopTicking st); [|reflexivity].
    intros H. exfalso. apply H, Hsc. reflexivity. }
  unfold dispatch. cbn [callbacks browser].
  set (s0 := with_frames (fun _ => []) st).
  destruct (frames_cases _ Hnd) as [Hf|[Hf|[Hf|[Hf|Hf]]]];
    rewrite Hf in *; cbn [map foldl frameCallback].
  - cbn [fst snd]. split; [reflexivity|]. split; [reflexivity|].
    split; [apply Ht1; intros []|]. split; [apply Ht2; intros []|].
    split; [reflexivity|]. split; [reflexivity|].
    split; intros ? _ [].
  - destruct Hph as [h Hh]; [left; reflexivity|].
    destruct (updateHeader_frame h s0 Hh)
      as (s1 & Hrun & F1 & T1 & S1 & Y1 & I1 & C1 & O1).
    rewrite (runListener_normal _ _ _ Hrun). cbn [fst snd].
    split; [reflexivity|]. split; [exact F1|]. split; [exact T1|].
    split; [rewrite S1; apply Ht2; intros [H|[]]; discriminate|].
    split; [exact Y1|]. split; [exact I1|]. split.
    + intros h' Hh' _. replace h' with h by congruence. exact C1.
    + intros btn _ [H|[]]. discriminate.
  - destruct Hps as [btn Hb]; [left; reflexivity|].
    destruct (updateScrollTopVisibility_frame btn s0 Hb)
      as (s1 & Hrun & F1 & T1 & S1 & Y1 & I1 & C1 & O1).
    rewrite (runListener_normal _ _ _ Hrun). cbn [fst snd].
    split; [reflexivity|]. split; [exact F1|].
    split; [rewrite T1; apply Ht1; intros [H|[]]; discriminate|].
    split; [exact S1|]. split; [exact Y1|]. split; [exact I1|]. split.
    + intros h _ [H|[]]. discriminate.
    + intros btn' Hb' _. replace btn' with btn by congruence. exact C1.
  - destruct Hph as [h Hh]; [left; reflexivity|].
    destruct Hps as [btn Hb]; [right; left; reflexivity|].
    destruct (updateHeader_frame h s0 Hh)
      as (s1 & Hrun1 & F1 & T1 & S1 & Y1 & I1 & C1 & O1).
    destruct (updateScrollTopVisibility_frame btn s1 Hb)
      as (s2 & Hrun2 & F2 & T2 & S2 & Y2 & I2 & C2 & O2).
    rewrite (runListener_normal _ _ _ Hrun1).
    rewrite (runListener_normal _ _ _ Hrun2). cbn [fst snd].
    split; [reflexivity|]. split; [rewrite F2; exact F1|].
    split; [rewrite T2; exact T1|]. split; [exact S2|].
    split; [rewrite Y2; exact Y1|]. split; [rewrite I2; exact I1|]. split.
    + intros h' Hh' _. replace h' with h by congruence.
      rewrite O2 by discriminate. exact C1.
    + intros btn' Hb' _. replace btn' with btn by congruence.
      rewrite C2, Y1, I1. reflexivity.
  - destruct Hph as [h Hh]; [right; left; reflexivity|].
    destruct Hps as [btn Hb]; [left; reflexivity|].
    destruct (updateScrollTopVisibility_frame btn s0 Hb)
      as (s1 & Hrun1 & F1 & T1 & S1 & Y1 & I1 & C1 & O1).
    destruct (updateHeader_frame h s1 Hh)
      as (s2 & Hrun2 & F2 & T2 & S2 & Y2 & I2 & C2 & O2).
    rewrite (runListener_normal _ _ _ Hrun1).
    rewrite (runListener_normal _ _ _ Hrun2). cbn [fst snd].
    split; [reflexivity|]. split; [rewrite F2; exact F1|].
    split; [exact T2|]. split; [rewrite S2; exact S1|].
    split; [rewrite Y2; exact Y1|]. split; [rewrite I2; exact I1|]. split.
    + intros h' Hh' _. replace h' with h by congruence.
      rewrite C2, Y1. reflexivity.
    + intros btn' Hb' _. replace btn' with btn by congruence.
      rewrite O2 by discriminate. exact C1.
Qed.

(** The invariant, with the viewport height, through every event. *)

Lemma coalesced_dispatch n ev st :
  coalesced doc st /\ innerHeight st = n ->
  coalesced doc (snd (dispatch doc ev st))
  /\ innerHeight (snd (dispatch doc ev st)) = n.
Proof.
  intros [Hc Hn].
  assert (Hq : (forall y, ev <> Scroll y) -> ev <> AnimationFrame ->
               coalesced doc (snd (dispatch doc ev st))
               /\ innerHeight (snd (dispatch doc ev st)) = n).
  { intros H1 H2.
    apply (quiet_dispatch doc
             (fun s => coalesced doc s /\ innerHeight s = n)); try assumption.
    - intros g f s [Hs Hi]. split; [|exact Hi].
      exact (coalesced_same s _ eq_refl eq_refl eq_refl Hs).
    - intros v s [Hs Hi]. split; [|exact Hi].
      exact (coalesced_same s _ eq_refl eq_refl eq_refl Hs).
    - intros f s [Hs Hi]. split; [|exact Hi].
      exact (coalesced_same s _ eq_refl eq_refl eq_refl Hs).
    - intros f s [Hs Hi]. split; [|exact Hi].
      exact (coalesced_same s _ eq_refl eq_refl eq_refl Hs).
    - intros x s _ [Hs Hi]. split; [|exact Hi].
      exact (coalesced_same s _ eq_refl eq_refl eq_refl Hs).
    - split; assumption. }
  destruct ev as [on|key|y| |entries|on|on|on|i];
    try (apply Hq; [intros; discriminate | discriminate]).
  - destruct (coalesced_scroll y st Hc) as (_ & H & _ & Hi & _).
    split; [exact H | congruence].
  - destruct (coalesced_frame st Hc) as (_ & Hf & Hh & Hs & _ & Hi & _).
    split; [apply coalesced_idle; assumption | congruence].
Qed.

Lemma coalesced_run n evs st :
  coalesced doc st /\ innerHeight st = n ->
  coalesced doc (snd (run doc evs st)) /\ innerHeight (snd (run doc evs st)) = n.
Proof.
  intros Hst. induction evs as [|ev evs IH] using rev_ind; [exact Hst|].
  rewrite run_snoc. cbn [snd]. apply coalesced_dispatch, IH.
Qed.

End Coalescing.

(** X5. Through every sequence of events the frame queue holds the
    recomputation of a watcher at most once, and exactly while that
    watcher's [ticking] flag is set; a recomputation is only ever queued
    for a watcher whose element the page has.  The queue therefore never
    holds more than two callbacks, however many scroll events arrive
    between two frames. *)

Theorem frame_queue_coalesced (doc : Document) (evs : list Event) (st : State) :
  coalesced doc st ->
  coalesced doc (snd (run doc evs st))
  /\ (length (frames (snd (run doc evs st))) <= 2)%nat.
Proof.
  intros Hst.
  destruct (coalesced_run doc (innerHeight st) evs st (conj Hst eq_refl)) as [Hc _].
  split; [exact Hc|].
  destruct Hc as (Hnd & _).
  destruct (frames_cases _ Hnd) as [->|[->|[->|[->| ->]]]]; cbn [length]; lia.
Qed.

Lemma frame_queue_coalesced_witness :
  let evs := [Scroll 10; Scroll 300; Click 2%nat; Scroll 900] in
  coalesced Sample.page Sample.loaded
  /\ coalesced Sample.page (snd (run Sample.page evs Sample.loaded))
  /\ (length (frames (snd (run Sample.page evs Sample.loaded))) <= 2)%nat.
Proof.
  assert (H : coalesced Sample.page Sample.loaded)
    by (apply coalesced_idle; reflexivity).
  split; [exact H|].
  exact (frame_queue_coalesced Sample.page
           [Scroll 10; Scroll 300; Click 2%nat; Scroll 900] Sample.loaded H).
Defined.

(** X6. A scroll event followed by a frame, after any events whatever,
    adds no error, empties the frame queue and leaves both watchers'
    marks as the last scroll offset says: the header is scrolled exactly
    when that offset is above 50, the scroll-top button is visible
    exactly when it is above half of the viewport height.  This holds
    whether the scroll event queued the recomputation itself or found it
    queued by an earlier scroll. *)

Theorem frame_applies_last_scroll (doc : Document) (evs : list Event) (y : Q)
    (st : State) :
  coalesced doc st ->
  let r := run doc (evs ++ [Scroll y; AnimationFrame]) st in
  fst r = fst (run doc evs st)
  /\ frames (snd r) = []
  /\ (forall h, header doc = Some h ->
      hasClass "header--scrolled" h (snd r) <-> (50 < y)%Q)
  /\ (forall btn, scrollTopBtn doc = Some btn ->
      hasClass "is-visible" btn (snd r)
      <-> (inject_Z (innerHeight st) * (1 # 2) < y)%Q).
Proof.
  intros Hst r. unfold r.
  change (evs ++ [Scroll y; AnimationFrame])
    with (evs ++ [Scroll y] ++ [AnimationFrame]).
  rewrite app_assoc, !run_snoc. cbn [fst snd].
  destruct (coalesced_run doc (innerHeight st) evs st (conj Hst eq_refl))
    as [Hc1 Hi1].
  destruct (coalesced_scroll doc y _ Hc1) as (E2 & Hc2 & Y2 & I2 & Ph & Pb).
  destruct (coalesced_frame doc _ Hc2) as (E3 & F3 & _ & _ & _ & _ & Ch & Cb).
  rewrite E2, E3, !app_nil_r. split; [reflexivity|]. split; [exact F3|]. split.
  - intros h Hh. rewrite (Ch h Hh) by (apply Ph; rewrite Hh; eauto).
    rewrite Y2. reflexivity.
  - intros btn Hb. rewrite (Cb btn Hb) by (apply Pb; rewrite Hb; eauto).
    rewrite Y2, I2, Hi1. reflexivity.
Qed.

Lemma frame_applies_last_scroll_witness :
  let evs := [Scroll 10; Scroll 900; Click 2%nat] in
  coalesced Sample.page Sample.loaded
  /\ (hasClass "header--scrolled" 1%nat
        (snd (run Sample.page (evs ++ [Scroll 120; AnimationFrame]) Sample.loaded))
      <-> (50 < 120)%Q).
Proof.
  assert (H : coalesced Sample.page Sample.loaded)
    by (apply coalesced_idle; reflexivity).
  split; [exact H|].
  exact (proj1 (proj2 (proj2 (frame_applies_last_scroll Sample.page
                                [Scroll 10; Scroll 900; Click 2%nat] 120
                                Sample.loaded H))) 1%nat eq_refl).
Defined.

(** ** Scroll reveal: setting up and revealing *)

Section RevealSteps.

Lemma revealAll_run l st :
  exists st',
    forEach l (fun el => classList_add el "is-visible") st = (Normal tt, st')
    /\ observed st' = observed st /\ effects st' = effects st
    /\ forall e, revealed e st \/ In e l -> revealed e st'.
Proof.
  revert st. induction l as [|a l IH]; intros st.
  - exists st. repeat split. intros e [H|[]]. exact H.
  - cbn [forEach]. mrun.
    destruct (IH (updated a (with_classList (fun cs => cs ∪ {["is-visible"]})) st))
      as (st' & Hrun & Ho & He & Hr).
    exists st'. split; [exact Hrun|]. split; [exact Ho|]. split; [exact He|].
    intros e H. apply Hr. unfold revealed, hasClass in *.
    rewrite classList_updated_add. destruct (decide (e = a)) as [->|Hne].
    + left. apply elem_of_union_r, elem_of_singleton. reflexivity.
    + destruct H as [H|[H|H]]; [left; exact H | congruence | right; exact H].
Qed.

Lemma observeAll_run (l : list elem) st :
  exists st',
    forEach l (fun el => modify (with_observed (fun o => o ∪ {[el]}))) st
    = (Normal tt, st')
    /\ store st' = store st /\ effects st' = effects st
    /\ forall e, e ∈ observed st' <-> e ∈ observed st \/ In e l.
Proof.
  revert st. induction l as [|a l IH]; intros st.
  - exists st. repeat split; try tauto. intros [H|[]]. exact H.
  - cbn [forEach]. mrun.
    destruct (IH (with_observed (fun o => o ∪ {[a]}) st))
      as (st' & Hrun & Hs & He & Ho).
    exists st'. split; [exact Hrun|]. split; [exact Hs|]. split; [exact He|].
    intros e. rewrite Ho. cbn [observed with_observed In].
    rewrite elem_of_union, elem_of_singleton. intuition congruence.
Qed.

(** The observer's callback: the targets reported as visible are
    revealed and no longer observed, every other element is left as it
    was. *)

Lemma observerCallback_run entries st :
  exists st',
    observerCallback entries st = (Normal tt, st')
    /\ effects st' = effects st
    /\ (forall e, In e (intersecting entries) ->
        revealed e st' /\ e ∉ observed st')
    /\ (forall e, ~ In e (intersecting entries) ->
        element e st' = element e st /\ (e ∈ observed st' <-> e ∈ observed st)).
Proof.
  unfold observerCallback. revert st.
  induction entries as [|entry entries IH]; intros st.
  - exists st. split; [reflexivity|]. split; [reflexivity|].
    split; [intros e [] | intros e _; tauto].
  - cbn [forEach]. cbv [mbind M_bind]. unfold intersecting. cbn [List.filter].
    destruct (isIntersecting entry) eqn:Ei; mrun.
    + destruct (IH (with_observed (fun o => o ∖ {[target entry]})
                      (updated (target entry)
                         (with_classList (fun cs => cs ∪ {["is-visible"]})) st)))
        as (st' & Hrun & He & Hin & Hout).
      exists st'. split; [exact Hrun|]. split; [exact He|]. cbn [map In]. split.
      * intros e H.
        destruct (in_dec Nat.eq_dec e (intersecting entries)) as [Hi|Hi];
          [apply Hin, Hi|].
        destruct H as [<-|H]; [|contradiction].
        destruct (Hout _ Hi) as [Hel Hob]. split.
        -- unfold revealed, hasClass. rewrite Hel. autorewrite with dom.
           rewrite decide_True by reflexivity.
           apply elem_of_union_r, elem_of_singleton. reflexivity.
        -- rewrite Hob. cbn [observed with_observed updated with_store].
           rewrite elem_of_difference, elem_of_singleton. tauto.
      * intros e H.
        assert (Hne : e <> target entry) by (intros ->; apply H; left; reflexivity).
        destruct (Hout e) as [Hel Hob]; [intros Hi; apply H; right; exact Hi|].
        split.
        -- rewrite Hel, element_with_observed. apply element_updated_ne, Hne.
        -- rewrite Hob. cbn [observed with_observed updated with_store].
           rewrite elem_of_difference, elem_of_singleton. tauto.
    + destruct (IH st) as (st' & Hrun & He & Hin & Hout).
      exists st'. split; [exact Hrun|]. split; [exact He|]. split; assumption.
Qed.

End RevealSteps.

(** X7. Setting up the scroll reveal never throws and makes no call out
    of the script.  With reduced motion preferred every animated element
    is revealed at once, nothing is observed and no intersection event
    reaches the script afterwards; otherwise no element is changed and
    exactly the animated elements are added to the observer's targets. *)

Theorem scroll_reveal_start (doc : Document) (st : State) :
  let st' := exec (start (setupScrollAnimations doc)) st in
  outcome (start (setupScrollAnimations doc)) st = Normal tt
  /\ effects st' = effects st
  /\ (prefersReducedMotion doc = true ->
      (forall e, In e (animatedElements doc) -> revealed e st')
      /\ observed st' = observed st
      /\ forall entries s, dispatch doc (Intersect entries) s = ([], s))
  /\ (prefersReducedMotion doc = false ->
      store st' = store st
      /\ forall e, e ∈ observed st' <-> e ∈ observed st \/ In e (animatedElements doc)).
Proof.
  unfold outcome, exec, setupScrollAnimations.
  destruct (prefersReducedMotion doc) eqn:Hm; cbn [orb].
  - cbn [start].
    destruct (revealAll_run (animatedElements doc) st) as (st' & -> & Ho & He & Hr).
    cbn [fst snd]. split; [reflexivity|]. split; [exact He|].
    split; [|discriminate]. intros _. split; [|split; [exact Ho|]].
    + intros e H. apply Hr. right. exact H.
    + intros entries s. unfold dispatch. rewrite callbacks_intersect, Hm.
      reflexivity.
  - destruct (length (animatedElements doc) =? 0)%nat eqn:Hl; cbn [start].
    + apply Nat.eqb_eq, length_zero_iff_nil in Hl. rewrite Hl.
      cbn [forEach]. split; [reflexivity|]. split; [reflexivity|].
      split; [discriminate|]. intros _. split; [reflexivity|].
      intros e. cbn [In]. tauto.
    + destruct (observeAll_run (animatedElements doc) st)
        as (st' & -> & Hs & He & Ho).
      cbn [fst snd]. split; [reflexivity|]. split; [exact He|].
      split; [discriminate|]. intros _. split; [exact Hs | exact Ho].
Qed.

(** X8. A batch of intersection entries never makes the observer's
    callback throw or call out of the script.  Every target the batch
    reports as visible ends revealed and is no longer observed; every
    other element, and whether it is observed, is left as it was, so an
    entry that reports its target as not visible changes nothing. *)

Theorem observer_reveals_and_unobserves (entries : list Entry) (st : State) :
  let st' := exec (observerCallback entries) st in
  outcome (observerCallback entries) st = Normal tt
  /\ effects st' = effects st
  /\ (forall e, In e (intersecting entries) -> revealed e st' /\ e ∉ observed st')
  /\ (forall e, ~ In e (intersecting entries) ->
      element e st' = element e st /\ (e ∈ observed st' <-> e ∈ observed st)).
Proof.
  unfold outcome, exec.
  destruct (observerCallback_run entries st) as (st' & -> & H).
  split; [reflexivity | exact H].
Qed.

Lemma scroll_reveal_start_witness :
  let st' := exec (start (setupScrollAnimations Sample.page)) Sample.loaded in
  prefersReducedMotion Sample.page = false
  /\ forall e, e ∈ observed st'
               <-> e ∈ observed Sample.loaded \/ In e (animatedElements Sample.page).
Proof.
  split; [reflexivity|].
  exact (proj2 (proj2 (proj2 (proj2 (scroll_reveal_start Sample.page Sample.loaded)))
                  eq_refl)).
Defined.

Lemma observer_reveals_and_unobserves_witness :
  let entries := [mkEntry 40%nat true; mkEntry 41%nat false] in
  let st' := exec (observerCallback entries) Sample.loaded in
  In 40%nat (intersecting entries)
  /\ revealed 40%nat st' /\ 40%nat ∉ observed st'.
Proof.
  assert (H : In 40%nat (intersecting [mkEntry 40%nat true; mkEntry 41%nat false]))
    by (left; reflexivity).
  split; [exact H|].
  exact (proj1 (proj2 (proj2 (observer_reveals_and_unobserves
                                [mkEntry 40%nat true; mkEntry 41%nat false]
                                Sample.loaded))) 40%nat H).
Defined.

(** ** What the mail link can hold *)

Section UrlSafe.

Lemma hexDigit_safe n : 0 <= n < 16 -> urlSafe (hexDigit n).
Proof.
  intros Hn. left. unfold hexDigit.
  rewrite code_unit_of by (destruct (n <? 10); lia).
  unfold uriUnescaped, isAlpha, isDigit, isMark.
  destruct (n <? 10) eqn:E; arith.
Qed.

Lemma percent_safe b : 0 <= b < 256 -> Forall urlSafe (percent b).
Proof.
  intros Hb. unfold percent.
  apply Forall_cons_2; [|apply Forall_cons_2; [|apply Forall_cons_2; [|apply Forall_nil_2]]].
  - right. apply code_unit_of. lia.
  - apply hexDigit_safe. arith.
  - apply hexDigit_safe. arith.
Qed.

Lemma utf8_bytes cp :
  0 <= cp < 0x110000 -> Forall (fun b => 0 <= b < 256) (utf8 cp).
Proof.
  intros Hcp. unfold utf8.
  destruct (cp <? 0x80) eqn:E1; [repeat constructor; arith|].
  destruct (cp <? 0x800) eqn:E2; [repeat constructor; arith|].
  destruct (cp <? 0x10000) eqn:E3; repeat constructor; arith.
Qed.

Lemma escape_safe cp : 0 <= cp < 0x110000 -> Forall urlSafe (escape cp).
Proof.
  intros Hcp. unfold escape.
  induction (utf8_bytes cp Hcp) as [|b bs Hb _ IH]; cbn [flat_map].
  - constructor.
  - apply Forall_app. split; [apply percent_safe, Hb | exact IH].
Qed.

Lemma pairCodePoint_range h l :
  isHighSurrogate h = true -> isLowSurrogate l = true ->
  0 <= pairCodePoint h l < 0x110000.
Proof. unfold isHighSurrogate, isLowSurrogate, pairCodePoint. intros Hh Hl. arith. Qed.

Lemma code_scalar_range u : 0 <= code u < 0x110000.
Proof. pose proof (code_range u). lia. Qed.

Lemma completion_map_normal {A B} (f : A -> B) c b :
  completion_map f c = Normal b -> exists a, c = Normal a /\ b = f a.
Proof. destruct c as [a|]; [intros [= <-]; eauto | discriminate]. Qed.

Lemma encode_url_safe s e :
  encodeURIComponent s = Normal e -> Forall urlSafe e.
Proof.
  revert e. induction s as [|u|u l s IH1 IH2] using list_pair_ind; intros e.
  - cbn [encodeURIComponent]. intros [= <-]. constructor.
  - cbn [encodeURIComponent completion_map].
    destruct (uriUnescaped (code u)) eqn:Hu.
    + intros [= <-]. apply Forall_cons_2; [left; exact Hu | apply Forall_nil_2].
    + destruct (isHighSurrogate (code u)); [discriminate|].
      destruct (isLowSurrogate (code u)); [discriminate|].
      intros [= <-]. rewrite app_nil_r. apply escape_safe, code_scalar_range.
  - change (encodeURIComponent (u :: l :: s)) with
      (let c := code u in
       if uriUnescaped c then completion_map (cons u) (encodeURIComponent (l :: s))
       else if isHighSurrogate c then
         if isLowSurrogate (code l) then
           completion_map (app (escape (pairCodePoint c (code l))))
             (encodeURIComponent s)
         else Throw URIError
       else if isLowSurrogate c then Throw URIError
       else completion_map (app (escape c)) (encodeURIComponent (l :: s))).
    cbv zeta.
    destruct (uriUnescaped (code u)) eqn:Hu.
    + intros H. apply completion_map_normal in H as (e' & He & ->).
      apply Forall_cons_2; [left; exact Hu | apply IH2, He].
    + destruct (isHighSurrogate (code u)) eqn:Hh.
      * destruct (isLowSurrogate (code l)) eqn:Hl; [|discriminate].
        intros H. apply completion_map_normal in H as (e' & He & ->).
        apply Forall_app. split; [|apply IH1, He].
        apply escape_safe, pairCodePoint_range; assumption.
      * destruct (isLowSurrogate (code u)); [discriminate|].
        intros H. apply completion_map_normal in H as (e' & He & ->).
        apply Forall_app. split; [|apply IH2, He].
        apply escape_safe, code_scalar_range.
Qed.

Lemma urlSafe_plain u :
  urlSafe u -> ~ In (code u) [0x26; 0x3F; 0x23; 0x3D; 0x20; 0x0A; 0x0D].
Proof.
  unfold urlSafe, uriUnescaped, isAlpha, isDigit, isMark. cbn [In].
  intros Hu Hin. arith.
Qed.

End UrlSafe.

(** X11. Whatever the name, the e-mail, the phone and the message hold,
    a body that [buildEmailBody] returns is made of unreserved characters
    and percent escapes only.  It holds no [&], [?], [#], [=], space or
    line break: typed text cannot end the body or add a parameter to the
    link. *)

Theorem email_body_is_url_safe (name email phone message body : jsstring) :
  buildEmailBody name email phone message = Normal body ->
  Forall urlSafe body
  /\ forall u, In u body ->
       ~ In (code u) [0x26; 0x3F; 0x23; 0x3D; 0x20; 0x0A; 0x0D].
Proof.
  unfold buildEmailBody. cbv zeta. intros H. apply encode_url_safe in H.
  split; [exact H|]. intros u Hu. apply urlSafe_plain.
  rewrite Forall_forall in H. apply H, list_elem_of_In, Hu.
Qed.

Lemma email_body_is_url_safe_witness :
  exists body,
    buildEmailBody (lit "Jan & syn") (lit "jan@example.com") []
      (lit "a=b&cc=x@y.pl?") = Normal body
    /\ Forall urlSafe body.
Proof.
  destruct (encodeURIComponent
              (bodyText (lit "Jan & syn") (lit "jan@example.com") []
                 (lit "a=b&cc=x@y.pl?"))) as [body|] eqn:E;
    [|vm_compute in E; discriminate].
  rewrite <- buildEmailBody_text in E.
  exists body. split; [exact E|].
  exact (proj1 (email_body_is_url_safe _ _ _ _ body E)).
Defined.

(** ** The success notice and its timer *)

Section Notice.

Context (doc : Document).

Lemma removeNotice_run i st :
  removeNotice i st
  = (Normal tt,
     match notices st !! i with
     | Some true => with_notices (fun _ => <[i := false]> (notices st)) st
     | _ => st
     end).
Proof.
  unfold removeNotice, modify.
  destruct (notices st !! i) as [[|]|] eqn:E; unfold with_notices; rewrite E;
    destruct st; reflexivity.
Qed.

Lemma dispatch_timeout i st :
  dispatch doc (Timeout i) st = ([], snd (removeNotice i st)).
Proof.
  unfold dispatch. cbn [callbacks browser foldl].
  rewrite (runListener_normal _ _ _ (removeNotice_run i st)).
  rewrite removeNotice_run. reflexivity.
Qed.

Lemma validatedInputs_spec f :
  In f (validatedInputs doc)
  <-> In (Some f) [nameInput doc; emailInput doc; messageInput doc].
Proof.
  unfold validatedInputs.
  destruct (nameInput doc), (emailInput doc), (messageInput doc);
    cbn [omap list_omap id In]; intuition congruence.
Qed.

Lemma showFormSuccess_run form st :
  contactForm doc = Some form ->
  showFormSuccess doc st
  = (Normal tt,
     match submitBtn doc with
     | Some _ =>
         with_effect (SetTimeout 10000 (length (notices st)))
           (with_notices (fun ns => ns ++ [true]) st)
     | None => st
     end).
Proof.
  intros Hform. unfold showFormSuccess. rewrite Hform.
  destruct (submitBtn doc); reflexivity.
Qed.

End Notice.

(** X9. A submit of the form with the three inputs there and valid and a
    mail text that encodes reports no error and makes exactly these
    calls, in this order: prevent the default action, navigate to the
    mail link and, when the form has a submit button, set one timer of
    ten seconds.  With a submit button one notice is inserted, attached,
    and that timer detaches it; without one no notice is inserted and no
    timer is set.  None of the validated inputs is left marked invalid. *)

Theorem valid_submit_complete (doc : Document) (form : elem) (body : jsstring)
    (st : State) :
  contactForm doc = Some form -> allPresent doc -> allValid doc st ->
  encodeURIComponent (mailText doc st) = Normal body ->
  let r := dispatch doc (Submit form) st in
  fst r = []
  /\ effects (snd r)
     = effects st ++ [PreventDefault; Navigate (linkPrefix ++ body)]
       ++ match submitBtn doc with
          | Some _ => [SetTimeout 10000 (length (notices st))]
          | None => []
          end
  /\ notices (snd r)
     = notices st ++ match submitBtn doc with Some _ => [true] | None => [] end
  /\ (is_Some (submitBtn doc) ->
      notices (snd (dispatch doc (Timeout (length (notices st))) (snd r)))
      = notices st ++ [false])
  /\ forall f, In f (validatedInputs doc) -> ~ markedInvalid f (snd r).
Proof.
  intros Hform Hp Hv Hbody r. unfold r.
  rewrite (dispatch_submit doc form st Hform). unfold outcome, exec.
  rewrite submitListener_run.
  pose proof Hv as Hv'. apply allValid_spec in Hv'. rewrite Hv'.
  rewrite (openMailClient_run doc (validated doc st) body Hp)
    by (rewrite validated_mailText; exact Hbody).
  rewrite (showFormSuccess_run doc form _ Hform).
  destruct (validated_effects doc st) as [He Hn].
  assert (Hmark : forall f, In f (validatedInputs doc) ->
                    ~ markedInvalid f (validated doc st)).
  { intros f Hf. apply validatedInputs_spec in Hf.
    destruct (validated_settled doc st f Hf) as [Hm _]. rewrite Hm.
    destruct Hv as (H1 & H2 & H3).
    destruct Hf as [Hf|[Hf|[Hf|[]]]]; rewrite <- Hf; congruence. }
  cbn [fst snd]. split; [reflexivity|].
  destruct (submitBtn doc) as [btn|].
  - cbn [effects notices with_effect with_notices]. rewrite He, Hn.
    split; [rewrite <- !app_assoc; reflexivity|]. split; [reflexivity|].
    split; [|exact Hmark]. intros _.
    rewrite dispatch_timeout, removeNotice_run.
    cbn [fst snd notices with_effect with_notices]. rewrite Hn.
    rewrite lookup_app_r by reflexivity. rewrite Nat.sub_diag.
    cbn [lookup list_lookup notices with_notices].
    replace (length (notices st)) with (length (notices st) + 0)%nat at 1 by lia.
    rewrite insert_app_r. reflexivity.
  - cbn [effects notices with_effect]. rewrite He, Hn, !app_nil_r.
    split; [rewrite <- !app_assoc; reflexivity|]. split; [reflexivity|].
    split; [intros [? [=]] | exact Hmark].
Qed.

Lemma valid_submit_complete_witness :
  let doc := Sample.page in
  let st := Sample.filled (lit "Jan Kowalski") (lit "jan@example.com") []
              (lit "Cześć") in
  exists body,
    contactForm doc = Some 5%nat /\ allPresent doc /\ allValid doc st
    /\ encodeURIComponent (mailText doc st) = Normal body
    /\ fst (dispatch doc (Submit 5%nat) st) = [].
Proof.
  assert (Hp : allPresent Sample.page) by (repeat split; eexists; reflexivity).
  assert (Hv : allValid Sample.page
                 (Sample.filled (lit "Jan Kowalski") (lit "jan@example.com") []
                    (lit "Cześć")))
    by (repeat split; vm_compute; reflexivity).
  destruct (encodeURIComponent
              (mailText Sample.page
                 (Sample.filled (lit "Jan Kowalski") (lit "jan@example.com") []
                    (lit "Cześć")))) as [body|] eqn:E;
    [|vm_compute in E; discriminate].
  exists body. split; [reflexivity|]. split; [exact Hp|]. split; [exact Hv|].
  split; [exact E|].
  exact (proj1 (valid_submit_complete Sample.page 5%nat body _ eq_refl Hp Hv E)).
Defined.

(** X10. The timer of a notice never throws and touches nothing but the
    notices.  It detaches the notice it was set for and leaves every
    other notice as it was; when that notice is already detached, or was
    never inserted, it changes nothing, so a timer that fires twice does
    no more than one that fires once. *)

Theorem notice_timer (doc : Document) (i : nat) (st : State) :
  let r := dispatch doc (Timeout i) st in
  fst r = []
  /\ length (notices (snd r)) = length (notices st)
  /\ (forall j, j <> i -> notices (snd r) !! j = notices st !! j)
  /\ (forall b, notices st !! i = Some b -> notices (snd r) !! i = Some false)
  /\ (notices st !! i <> Some true -> snd r = st)
  /\ store (snd r) = store st /\ effects (snd r) = effects st
  /\ dispatch doc (Timeout i) (snd r) = r.
Proof.
  intros r. unfold r. rewrite !dispatch_timeout, !removeNotice_run.
  cbn [fst snd]. split; [reflexivity|].
  destruct (notices st !! i) as [[|]|] eqn:E.
  - cbn [notices with_notices store effects].
    assert (Hi : (i < length (notices st))%nat)
      by (apply lookup_lt_is_Some; rewrite E; eauto).
    rewrite length_insert, list_lookup_insert_eq by exact Hi.
    split; [reflexivity|].
    split; [intros j Hj; apply list_lookup_insert_ne; congruence|].
    split; [reflexivity|]. split; [congruence|].
    split; [reflexivity|]. split; reflexivity.
  - rewrite E. split; [reflexivity|]. split; [reflexivity|].
    split; [intros b [= <-]; reflexivity|]. repeat split; reflexivity.
  - rewrite E. split; [reflexivity|]. split; [reflexivity|].
    split; [intros b [=]|]. repeat split; reflexivity.
Qed.

Lemma notice_timer_witness :
  let st := with_notices (fun _ => [true; true]) Sample.loaded in
  notices (snd (dispatch Sample.page (Timeout 1) st)) !! 1%nat = Some false
  /\ notices (snd (dispatch Sample.page (Timeout 1) st)) !! 0%nat = Some true.
Proof.
  split.
  - exact (proj1 (proj2 (proj2 (proj2 (notice_timer Sample.page 1
             (with_notices (fun _ => [true; true]) Sample.loaded)))))
             true eq_refl).
  - exact (proj1 (proj2 (proj2 (notice_timer Sample.page 1
             (with_notices (fun _ => [true; true]) Sample.loaded))))
             0%nat ltac:(discriminate)).
Defined.

(** ** Initialisation *)

Section Init.

Context (doc : Document).

Lemma keeps_forEach_in (P : State -> Prop) {A} (l : list A) f :
  (forall a, In a l -> keeps P (f a)) -> keeps P (forEach l f).
Proof.
  induction l as [|a l IH]; intros Hf; cbn [forEach].
  - apply keeps_ret.
  - apply keeps_bind; [apply Hf; left; reflexivity | intros _].
    apply IH. intros b Hb. apply Hf. right. exact Hb.
Qed.

Lemma headerStart_returns st :
  fst (start (setupHeaderScroll doc) st) = Normal tt.
Proof.
  unfold setupHeaderScroll. destruct (header doc) as [h|] eqn:Hh; [|reflexivity].
  cbn [start]. cbv [mbind M_bind gets modify]. cbn [fst snd].
  rewrite (updateHeader_run doc h _ Hh). reflexivity.
Qed.

Lemma scrollTopStart_returns st :
  fst (start (setupScrollToTop doc) st) = Normal tt.
Proof.
  unfold setupScrollToTop. destruct (scrollTopBtn doc) as [btn|] eqn:Hb;
    [|reflexivity].
  cbn [start]. cbv [mbind M_bind gets modify]. cbn [fst snd].
  rewrite (updateScrollTopVisibility_run doc btn _ Hb). reflexivity.
Qed.

Lemma revealStart_returns st :
  fst (start (setupScrollAnimations doc) st) = Normal tt.
Proof.
  unfold setupScrollAnimations.
  destruct (prefersReducedMotion doc || _); cbn [start].
  - destruct (revealAll_run (animatedElements doc) st) as (st' & -> & _).
    reflexivity.
  - destruct (observeAll_run (animatedElements doc) st) as (st' & -> & _).
    reflexivity.
Qed.

Lemma normal_run (m : M unit) st : fst (m st) = Normal tt -> m st = (Normal tt, snd (m st)).
Proof. destruct (m st) as [c s]. cbn [fst snd]. intros ->. reflexivity. Qed.

Lemma init_run st :
  init doc st
  = (Normal tt,
     snd (start (setupScrollAnimations doc)
            (snd (start (setupScrollToTop doc)
                    (snd (start (setupHeaderScroll doc) st)))))).
Proof.
  unfold init, components. cbn [forEach].
  assert (Hm : start (setupMobileMenu doc) = mret tt)
    by (unfold setupMobileMenu; destruct (menuToggle doc), (mainNav doc); reflexivity).
  assert (Hc : start (setupContactForm doc) = mret tt)
    by (unfold setupContactForm; destruct (contactForm doc); reflexivity).
  rewrite Hm, Hc. cbn [start setupSmoothScroll]. cbv [mbind M_bind mret M_ret].
  rewrite (normal_run _ st (headerStart_returns st)).
  rewrite (normal_run _ _ (scrollTopStart_returns _)).
  rewrite (normal_run _ _ (revealStart_returns _)). reflexivity.
Qed.

(** What the three starts leave alone. *)

Lemma headerStart_keeps (P : State -> Prop) :
  (forall g f s, P s -> P (updated g f s)) ->
  (forall y s, P s -> P (with_lastScrollY y s)) ->
  (forall b s, P s -> P (with_headerTicking b s)) ->
  keeps P (start (setupHeaderScroll doc)).
Proof.
  intros Hu Hl Ht. unfold setupHeaderScroll.
  destruct (header doc); cbn [start idle]; [|apply keeps_ret].
  unfold updateHeader.
  repeat first
    [ keeps_step
    | match goal with
      | |- keeps _ (classList_add _ _) => apply keeps_modify; intros ? ?; apply Hu; assumption
      | |- keeps _ (classList_remove _ _) => apply keeps_modify; intros ? ?; apply Hu; assumption
      | |- keeps _ (modify (with_lastScrollY _)) => apply keeps_modify; intros ? ?; apply Hl; assumption
      | |- keeps _ (modify (with_headerTicking _)) => apply keeps_modify; intros ? ?; apply Ht; assumption
      end ].
Qed.

Lemma scrollTopStart_keeps (P : State -> Prop) :
  (forall g (b : bool) s, P s ->
     P (updated g (with_classList (fun cs =>
          if b then cs ∪ {["is-visible"]} else cs ∖ {["is-visible"]})) s)) ->
  (forall b s, P s -> P (with_scrollTopTicking b s)) ->
  keeps P (start (setupScrollToTop doc)).
Proof.
  intros Hu Ht. unfold setupScrollToTop.
  destruct (scrollTopBtn doc); cbn [start idle]; [|apply keeps_ret].
  unfold updateScrollTopVisibility.
  repeat first
    [ keeps_step
    | match goal with
      | |- keeps _ (classList_add _ _) =>
          apply keeps_modify; intros ? ?; apply (Hu _ true); assumption
      | |- keeps _ (classList_remove _ _) =>
          apply keeps_modify; intros ? ?; apply (Hu _ false); assumption
      | |- keeps _ (modify (with_scrollTopTicking _)) =>
          apply keeps_modify; intros ? ?; apply Ht; assumption
      end ].
Qed.

Lemma revealStart_keeps (P : State -> Prop) :
  (forall g s, prefersReducedMotion doc = true -> In g (animatedElements doc) ->
     P s -> P (updated g (with_classList (fun cs => cs ∪ {["is-visible"]})) s)) ->
  (forall f s, P s -> P (with_observed f s)) ->
  keeps P (start (setupScrollAnimations doc)).
Proof.
  intros Hu Ho. unfold setupScrollAnimations.
  destruct (prefersReducedMotion doc) eqn:Hm; cbn [orb].
  - cbn [start]. apply keeps_forEach_in. intros g Hg.
    apply keeps_modify. intros s Hs. apply Hu; [reflexivity | exact Hg | exact Hs].
  - destruct (length (animatedElements doc) =? 0)%nat eqn:Hl; cbn [start].
    + apply Nat.eqb_eq, length_zero_iff_nil in Hl. rewrite Hl. apply keeps_ret.
    + apply keeps_forEach. intros g. apply keeps_modify. intros s Hs.
      apply Ho, Hs.
Qed.

End Init.

(** X12. Initialisation returns on every page, whichever of its
    elements the page lacks, and makes no call out of the script; it
    leaves the body's overflow, the frame queue and the notices alone.
    Afterwards the header is marked scrolled exactly when the page was
    loaded scrolled past 50 pixels, and the scroll-top button is visible
    exactly when it was loaded scrolled past half of the viewport height,
    unless reduced motion is preferred and the button is itself an
    animated element, which the scroll reveal then shows. *)

Theorem init_returns (doc : Document) (st : State) :
  let st' := exec (init doc) st in
  outcome (init doc) st = Normal tt
  /\ effects st' = effects st /\ bodyOverflow st' = bodyOverflow st
  /\ frames st' = frames st /\ notices st' = notices st
  /\ (forall h, header doc = Some h ->
      hasClass "header--scrolled" h st' <-> (50 < scrollY st)%Q)
  /\ (forall btn, scrollTopBtn doc = Some btn ->
      (prefersReducedMotion doc = true -> ~ In btn (animatedElements doc)) ->
      hasClass "is-visible" btn st'
      <-> (inject_Z (innerHeight st) * (1 # 2) < scrollY st)%Q)
  /\ (forall btn, scrollTopBtn doc = Some btn ->
      prefersReducedMotion doc = true -> In btn (animatedElements doc) ->
      hasClass "is-visible" btn st').
Proof.
  unfold outcome, exec. rewrite init_run. cbn [fst snd]. split; [reflexivity|].
  set (s1 := snd (start (setupHeaderScroll doc) st)).
  set (s2 := snd (start (setupScrollToTop doc) s1)).
  set (s3 := snd (start (setupScrollAnimations doc) s2)).
  pose (Pout := fun s : State =>
          effects s = effects st /\ bodyOverflow s = bodyOverflow st
          /\ frames s = frames st /\ notices s = notices st
          /\ scrollY s = scrollY st /\ innerHeight s = innerHeight st).
  assert (H1 : Pout s1).
  { apply (headerStart_keeps doc Pout); try (intros; assumption).
    repeat split. }
  assert (H2 : Pout s2).
  { apply (scrollTopStart_keeps doc Pout); try (intros; assumption). }
  assert (H3 : Pout s3).
  { apply (revealStart_keeps doc Pout); try (intros; assumption). }
  destruct H3 as (E3 & B3 & F3 & N3 & _).
  split; [exact E3|]. split; [exact B3|]. split; [exact F3|]. split; [exact N3|].
  split; [|split].
  - intros h Hh.
    assert (C1 : hasClass "header--scrolled" h s1 <-> (50 < scrollY st)%Q).
    { unfold s1, setupHeaderScroll. rewrite Hh. cbn [start].
      cbv [mbind M_bind gets modify]. cbn [fst snd].
      destruct (updateHeader_frame doc h
                  (with_headerTicking false (with_lastScrollY (scrollY st) st)) Hh)
        as (s & -> & _ & _ & _ & _ & _ & C & _).
      exact C. }
    assert (C2 : hasClass "header--scrolled" h s2 <-> (50 < scrollY st)%Q).
    { apply (scrollTopStart_keeps doc
               (fun s => hasClass "header--scrolled" h s <-> (50 < scrollY st)%Q));
        [| intros; assumption | exact C1].
      intros g b s H. rewrite <- H. unfold hasClass.
      apply switched_other. discriminate. }
    apply (revealStart_keeps doc
             (fun s => hasClass "header--scrolled" h s <-> (50 < scrollY st)%Q));
      [| intros; assumption | exact C2].
    intros g s _ _ H. rewrite <- H. unfold hasClass.
    apply (switched_other true). discriminate.
  - intros btn Hb Hanim.
    destruct H1 as (_ & _ & _ & _ & Y1 & I1).
    assert (C2 : hasClass "is-visible" btn s2
                 <-> (inject_Z (innerHeight st) * (1 # 2) < scrollY st)%Q).
    { unfold s2, setupScrollToTop. rewrite Hb. cbn [start].
      cbv [mbind M_bind gets modify]. cbn [fst snd].
      destruct (updateScrollTopVisibility_frame doc btn
                  (with_scrollTopTicking false s1) Hb)
        as (s & -> & _ & _ & _ & _ & _ & C & _).
      rewrite <- Y1, <- I1. exact C. }
    apply (revealStart_keeps doc
             (fun s => hasClass "is-visible" btn s
                       <-> (inject_Z (innerHeight st) * (1 # 2) < scrollY st)%Q));
      [| intros; assumption | exact C2].
    intros g s Hm Hg H. rewrite <- H. unfold hasClass.
    rewrite element_updated_ne; [reflexivity|].
    intros ->. exact (Hanim Hm Hg).
  - intros btn Hb Hm Hg. unfold s3, setupScrollAnimations. rewrite Hm.
    cbn [orb start].
    destruct (revealAll_run (animatedElements doc) s2) as (s & -> & _ & _ & Hr).
    apply Hr. right. exact Hg.
Qed.

Lemma init_returns_witness :
  header Sample.noPanel = Some 1%nat
  /\ outcome (init Sample.noPanel) (with_scrollY 120 Sample.loaded) = Normal tt
  /\ hasClass "header--scrolled" 1%nat
       (exec (init Sample.noPanel) (with_scrollY 120 Sample.loaded)).
Proof.
  split; [reflexivity|].
  split; [exact (proj1 (init_returns Sample.noPanel (with_scrollY 120 Sample.loaded)))|].
  apply (proj1 (proj2 (proj2 (proj2 (proj2 (proj2
           (init_returns Sample.noPanel (with_scrollY 120 Sample.loaded)))))))
         1%nat eq_refl).
  reflexivity.
Defined.

(** ** Listeners that cannot throw *)

Section Guarded.

Context (doc : Document).

Lemma returns_listeners ls r :
  (forall l : M unit, In l ls -> returns l) ->
  fst (foldl runListener r ls) = fst r.
Proof.
  revert r. induction ls as [|l ls IH]; intros r Hls; [reflexivity|].
  cbn [foldl]. rewrite IH by (intros l' Hl'; apply Hls; right; exact Hl').
  destruct (Hls l (or_introl eq_refl) (snd r)) as [a Ha].
  unfold runListener. destruct (l (snd r)) as [[u|err] s'];
    [reflexivity | discriminate].
Qed.

Lemma returns_eq {A} (m : M A) :
  (forall st, exists a st', m st = (Normal a, st')) -> returns m.
Proof. intros H st. destruct (H st) as (a & st' & ->). exists a. reflexivity. Qed.

Lemma returns_menu toggle nav i :
  menuToggle doc = Some toggle -> mainNav doc = Some nav ->
  returns (menuListener doc i).
Proof.
  intros Ht Hn. apply returns_eq. intros st.
  destruct (menu_step_mirror doc toggle nav Ht Hn i st) as (st' & -> & _).
  eauto.
Qed.

Lemma returns_headerScroll : returns headerScroll.
Proof. apply returns_eq. intros st. rewrite (headerScroll_run st). eauto. Qed.

Lemma returns_scrollTopScroll : returns scrollTopScroll.
Proof. apply returns_eq. intros st. rewrite (scrollTopScroll_run st). eauto. Qed.

Lemma returns_scrollTopClick : returns (scrollTopClick doc).
Proof. apply returns_eq. intros st. unfold scrollTopClick. mrun. eauto. Qed.

Lemma returns_observerCallback entries : returns (observerCallback entries).
Proof.
  apply returns_eq. intros st.
  destruct (observerCallback_run entries st) as (st' & -> & _). eauto.
Qed.

Lemma returns_blurListener f : returns (blurListener doc f).
Proof.
  apply returns_eq. intros st. unfold blurListener. cbv [mbind M_bind].
  rewrite validateField_total. cbv [mret M_ret]. eauto.
Qed.

Lemma returns_inputListener f : returns (inputListener doc f).
Proof.
  apply returns_eq. intros st. unfold inputListener.
  rewrite clearFieldError_run. eauto.
Qed.

Lemma returns_removeNotice i : returns (removeNotice i).
Proof. apply returns_eq. intros st. rewrite removeNotice_run. eauto. Qed.

Lemma guarded_callbacks ev st l :
  guarded doc ev -> ev <> AnimationFrame ->
  In l (callbacks doc ev st) -> returns l.
Proof.
  intros Hg Hframe.
  assert (Hc : In l (flat_map (fun c => listeners c ev) (components doc)) ->
               returns l).
  { unfold components. cbn [flat_map]. rewrite !in_app_iff.
    intros [H|[H|[H|[H|[H|[H|[]]]]]]].
    - destruct ev; cbn [listeners setupSmoothScroll guarded] in *;
        pick_listener. contradiction.
    - unfold setupMobileMenu in H.
      destruct (menuToggle doc) as [toggle|] eqn:Ht;
        [destruct (mainNav doc) as [nav|] eqn:Hn|];
        destruct ev; cbn [listeners idle] in H; pick_listener.
      + exact (returns_menu toggle nav ToggleClick Ht Hn).
      + exact (returns_menu toggle nav NavLinkClick Ht Hn).
      + exact (returns_menu toggle nav (Key _) Ht Hn).
    - unfold setupHeaderScroll in H.
      destruct (header doc), ev; cbn [listeners idle] in H; pick_listener.
      apply returns_headerScroll.
    - unfold setupScrollToTop in H.
      destruct (scrollTopBtn doc), ev; cbn [listeners idle] in H; pick_listener;
        [apply returns_scrollTopClick | apply returns_scrollTopScroll].
    - unfold setupScrollAnimations in H.
      destruct (prefersReducedMotion doc || _), ev; cbn [listeners] in H;
        pick_listener.
      apply returns_observerCallback.
    - unfold setupContactForm in H.
      destruct (contactForm doc) as [form|] eqn:Hf; destruct ev;
        cbn [listeners idle guarded] in *; pick_listener;
        try (apply in_flat_map in H as (input & _ & H); pick_listener);
        first [ apply returns_blurListener | apply returns_inputListener
              | congruence ]. }
  destruct ev; try exact Hc; cbn [callbacks]; intros H.
  - congruence.
  - destruct H as [<-|[]]. apply returns_removeNotice.
Qed.

Lemma guarded_dispatch ev st :
  coalesced doc st -> guarded doc ev -> fst (dispatch doc ev st) = [].
Proof.
  intros Hc Hg.
  assert (Hq : ev <> AnimationFrame -> fst (dispatch doc ev st) = []).
  { intros Hne. unfold dispatch. rewrite returns_listeners; [reflexivity|].
    intros l. apply guarded_callbacks; assumption. }
  destruct ev; try (apply Hq; discriminate).
  apply coalesced_frame, Hc.
Qed.

End Guarded.

(** X13. Apart from clicks on in-page links and submits of the form, no
    event makes a listener of the script throw: clicks on the toggle, on
    navigation links that are not in-page links and on the scroll-top
    button, key presses, scrolls, frames, intersection batches, blurs,
    inputs and timers all run to the end, in any number and order. *)

Theorem guarded_events_never_throw (doc : Document) (evs : list Event)
    (st : State) :
  coalesced doc st -> Forall (guarded doc) evs -> fst (run doc evs st) = [].
Proof.
  intros Hst. induction evs as [|ev evs IH] using rev_ind; intros Hg;
    [reflexivity|].
  apply Forall_app in Hg as [Hevs Hev]. apply Forall_cons_1 in Hev as [Hev _].
  rewrite run_snoc. cbn [fst]. rewrite (IH Hevs). cbn [app].
  apply guarded_dispatch; [|exact Hev].
  apply (coalesced_run doc (innerHeight st) evs st (conj Hst eq_refl)).
Qed.

Lemma guarded_events_never_throw_witness :
  let evs := [Click 2%nat; KeyDown (lit "Escape"); Scroll 300; AnimationFrame;
              Blur 6%nat; Input 6%nat; Click 4%nat;
              Intersect [mkEntry 40%nat true]; Timeout 0] in
  coalesced Sample.page Sample.loaded
  /\ Forall (guarded Sample.page) evs
  /\ fst (run Sample.page evs Sample.loaded) = [].
Proof.
  assert (Hc : coalesced Sample.page Sample.loaded)
    by (apply coalesced_idle; reflexivity).
  assert (Hn : forall on, bool_decide (on ∉ anchors Sample.page) = true ->
               guarded Sample.page (Click on))
    by (intros on H; exact (bool_decide_eq_true_1 _ H)).
  assert (Hg : Forall (guarded Sample.page)
                 [Click 2%nat; KeyDown (lit "Escape"); Scroll 300; AnimationFrame;
                  Blur 6%nat; Input 6%nat; Click 4%nat;
                  Intersect [mkEntry 40%nat true]; Timeout 0]).
  { repeat (apply Forall_cons_2; [first [exact I | apply Hn; reflexivity]|]).
    apply Forall_nil_2. }
  split; [exact Hc|]. split; [exact Hg|].
  exact (guarded_events_never_throw Sample.page _ Sample.loaded Hc Hg).
Defined.

(** ** Elements the form does not validate *)

Section NeverMarked.

Context (doc : Document) (p : elem) (Q : Prop).
Hypothesis Hp : ~ In p (validatedInputs doc).

Local Abbreviation P := (fun s : State => markedInvalid p s <-> Q).

Lemma unmarked_update g f :
  (g = p -> forall el,
     "is-invalid" ∈ classList (f el) <-> "is-invalid" ∈ classList el) ->
  keeps P (update g f).
Proof.
  intros Hf. apply keeps_modify. intros s H. cbv beta in *. rewrite <- H.
  unfold markedInvalid, hasClass. rewrite element_updated.
  destruct (decide (p = g)) as [->|]; [apply Hf; reflexivity | reflexivity].
Qed.

Lemma unmarked_classList_add g c :
  g <> p \/ c <> "is-invalid" -> keeps P (classList_add g c).
Proof.
  intros Hgc. apply unmarked_update. intros -> el.
  cbn [classList with_classList]. rewrite elem_of_union, elem_of_singleton.
  destruct Hgc as [Hg|Hc]; [congruence|]. intuition congruence.
Qed.

Lemma unmarked_classList_remove g c :
  g <> p \/ c <> "is-invalid" -> keeps P (classList_remove g c).
Proof.
  intros Hgc. apply unmarked_update. intros -> el.
  cbn [classList with_classList]. rewrite elem_of_difference, elem_of_singleton.
  destruct Hgc as [Hg|Hc]; [congruence|]. intuition congruence.
Qed.

Lemma unmarked_setAttribute g k v : keeps P (setAttribute g k v).
Proof. apply unmarked_update. intros _ el. reflexivity. Qed.

Lemma unmarked_setTextContent g t : keeps P (setTextContent g t).
Proof. apply unmarked_update. intros _ el. reflexivity. Qed.

Lemma unmarked_state f :
  (forall s, store (f s) = store s) -> keeps P (modify f).
Proof.
  intros Hf. apply keeps_modify. intros s H. cbv beta in *. rewrite <- H.
  unfold markedInvalid, hasClass, element. rewrite Hf. reflexivity.
Qed.

Ltac unmarked :=
  repeat first
    [ keeps_step
    | match goal with
      | |- keeps _ (classList_add _ _) =>
          apply unmarked_classList_add; right; discriminate
      | |- keeps _ (classList_remove _ _) =>
          apply unmarked_classList_remove; right; discriminate
      | |- keeps _ (setAttribute _ _ _) => apply unmarked_setAttribute
      | |- keeps _ (setTextContent _ _) => apply unmarked_setTextContent
      | |- keeps _ (effect _) => apply unmarked_state; reflexivity
      | |- keeps _ (modify _) => apply unmarked_state; reflexivity
      end ].

Lemma unmarked_closeMobileMenu : keeps P (closeMobileMenu doc).
Proof. unfold closeMobileMenu. unmarked. Qed.

Lemma unmarked_openMobileMenu : keeps P (openMobileMenu doc).
Proof. unfold openMobileMenu. unmarked. Qed.

Lemma unmarked_toggleMobileMenu : keeps P (toggleMobileMenu doc).
Proof.
  unfold toggleMobileMenu, classList_contains. unmarked;
    [apply unmarked_closeMobileMenu | apply unmarked_openMobileMenu].
Qed.

Lemma unmarked_closeIfOpen :
  keeps P
    (nav ← deref (mainNav doc);
     isOpen ← classList_contains nav "is-open";
     when isOpen (closeMobileMenu doc)).
Proof. unfold classList_contains. unmarked. apply unmarked_closeMobileMenu. Qed.

Lemma unmarked_menuKeydown key : keeps P (menuKeydown doc key).
Proof.
  unfold menuKeydown. destruct (decide (key = lit "Escape"));
    [apply unmarked_closeIfOpen | apply keeps_ret].
Qed.

Lemma unmarked_anchorClick a : keeps P (anchorClick doc a).
Proof.
  unfold anchorClick, getAttribute, classList_contains. unmarked.
  apply unmarked_closeMobileMenu.
Qed.

Lemma unmarked_frameCallback cb : keeps P (frameCallback doc cb).
Proof.
  destruct cb; cbn [frameCallback];
    unfold updateHeader, updateScrollTopVisibility; unmarked.
Qed.

Lemma unmarked_headerScroll : keeps P headerScroll.
Proof. unfold headerScroll. unmarked. Qed.

Lemma unmarked_scrollTopScroll : keeps P scrollTopScroll.
Proof. unfold scrollTopScroll. unmarked. Qed.

Lemma unmarked_scrollTopClick : keeps P (scrollTopClick doc).
Proof. unfold scrollTopClick. unmarked. Qed.

Lemma unmarked_observerCallback entries : keeps P (observerCallback entries).
Proof. unfold observerCallback. unmarked. Qed.

Lemma unmarked_removeNotice i : keeps P (removeNotice i).
Proof. unfold removeNotice. unmarked. Qed.

(** Validation and clearing write the marker of the field they are
    given, which is one of the validated inputs. *)

Lemma unmarked_clearFieldError f : f <> p -> keeps P (clearFieldError doc f).
Proof.
  intros Hf. unfold clearFieldError.
  apply keeps_bind; [apply unmarked_classList_remove; left; exact Hf | intros _].
  unmarked.
Qed.

Lemma unmarked_validateField input :
  input <> Some p -> keeps P (validateField doc input).
Proof.
  intros Hi. destruct input as [f|]; cbn [validateField]; [|apply keeps_ret].
  assert (Hf : f <> p) by congruence.
  apply keeps_bind; [apply keeps_gets | intros msg].
  destruct (truthy msg).
  - apply keeps_bind; [|intros _; apply keeps_ret]. unfold showFieldError.
    apply keeps_bind; [apply unmarked_classList_add; left; exact Hf | intros _].
    unmarked.
  - apply keeps_bind; [|intros _; apply keeps_ret].
    apply unmarked_clearFieldError, Hf.
Qed.

Lemma not_validated input :
  In input [nameInput doc; emailInput doc; messageInput doc] -> input <> Some p.
Proof. intros Hin ->. apply Hp, validatedInputs_spec, Hin. Qed.

Lemma unmarked_submitListener : keeps P (submitListener doc).
Proof.
  unfold submitListener. cbv zeta.
  apply keeps_bind; [apply unmarked_state; reflexivity | intros _].
  apply keeps_bind;
    [apply unmarked_validateField, not_validated; left; reflexivity | intro].
  apply keeps_bind;
    [apply unmarked_validateField, not_validated; right; left; reflexivity | intro].
  apply keeps_bind;
    [apply unmarked_validateField, not_validated; right; right; left; reflexivity
    | intro].
  match goal with
  | |- keeps _ (if ?b then _ else _) => destruct b; [|apply keeps_ret]
  end.
  unfold openMailClient, trimmedValue, showFormSuccess. unmarked.
Qed.

Lemma unmarked_callbacks ev st l : In l (callbacks doc ev st) -> keeps P l.
Proof.
  assert (Hc : In l (flat_map (fun c => listeners c ev) (components doc)) ->
               keeps P l).
  { unfold components. cbn [flat_map]. rewrite !in_app_iff.
    intros [H|[H|[H|[H|[H|[H|[]]]]]]].
    - destruct ev; cbn [listeners setupSmoothScroll] in H; pick_listener.
      apply unmarked_anchorClick.
    - unfold setupMobileMenu in H.
      destruct (menuToggle doc), (mainNav doc), ev; cbn [listeners idle] in H;
        pick_listener;
        first [ apply unmarked_toggleMobileMenu | apply unmarked_closeIfOpen
              | apply unmarked_menuKeydown ].
    - unfold setupHeaderScroll in H.
      destruct (header doc), ev; cbn [listeners idle] in H; pick_listener.
      apply unmarked_headerScroll.
    - unfold setupScrollToTop in H.
      destruct (scrollTopBtn doc), ev; cbn [listeners idle] in H; pick_listener;
        [apply unmarked_scrollTopClick | apply unmarked_scrollTopScroll].
    - unfold setupScrollAnimations in H.
      destruct (prefersReducedMotion doc || _), ev; cbn [listeners] in H;
        pick_listener.
      apply unmarked_observerCallback.
    - unfold setupContactForm in H.
      destruct (contactForm doc) as [form|]; destruct ev;
        cbn [listeners idle] in H; pick_listener;
        try (apply in_flat_map in H as (input & Hin & H); pick_listener);
        try apply unmarked_submitListener.
      + unfold blurListener.
        apply keeps_bind; [|intros _; apply keeps_ret].
        apply unmarked_validateField. subst input. intros [= ->]. exact (Hp Hin).
      + apply unmarked_clearFieldError. subst input. intros ->. exact (Hp Hin). }
  destruct ev; try exact Hc; cbn [callbacks]; intros H.
  - apply in_map_iff in H as (cb & <- & _). apply unmarked_frameCallback.
  - destruct H as [<-|[]]. apply unmarked_removeNotice.
Qed.

Lemma unmarked_run evs st : P st -> P (snd (run doc evs st)).
Proof.
  intros Hst. induction evs as [|ev evs IH] using rev_ind; [exact Hst|].
  rewrite run_snoc. cbn [snd]. unfold dispatch.
  apply keeps_listeners; [intros l; apply unmarked_callbacks|].
  destruct ev; exact IH.
Qed.

Lemma unwatched_field on st :
  ~ In on (validatedInputs doc) ->
  dispatch doc (Blur on) st = ([], st) /\ dispatch doc (Input on) st = ([], st).
Proof.
  intros Hon.
  assert (Hnone : forall (f : elem -> list (M unit)) l,
            (forall input, In input l -> input <> on) ->
            flat_map (fun input => if decide (input = on) then f input else []) l = []).
  { intros f l. induction l as [|a l IH]; intros Hl; [reflexivity|].
    cbn [flat_map]. rewrite decide_False by (apply Hl; left; reflexivity).
    apply IH. intros input Hi. apply Hl. right. exact Hi. }
  assert (Hne : forall input, In input (validatedInputs doc) -> input <> on)
    by (intros input Hi ->; exact (Hon Hi)).
  unfold dispatch, callbacks, components. cbn [flat_map browser].
  unfold setupSmoothScroll, setupMobileMenu, setupHeaderScroll,
    setupScrollToTop, setupScrollAnimations, setupContactForm.
  destruct (menuToggle doc), (mainNav doc), (header doc), (scrollTopBtn doc),
    (contactForm doc),
    (prefersReducedMotion doc || (length (animatedElements doc) =? 0)%nat);
    cbn [listeners idle app];
    rewrite ?app_nil_r;
    change (omap id [nameInput doc; emailInput doc; messageInput doc])
      with (validatedInputs doc);
    rewrite ?(Hnone (fun _ => [blurListener doc on]) _ Hne),
            ?(Hnone (fun _ => [inputListener doc on]) _ Hne);
    split; reflexivity.
Qed.

End NeverMarked.

(** X14. An element that is not one of the inputs the form validates
    (the name, e-mail and message inputs the page has), such as the phone
    input, is never validated: a blur or an input event on it runs no
    listener and changes nothing, and through every sequence of events,
    submits included, it carries the invalid marker exactly if it carried
    it at the start. *)

Theorem unvalidated_element_never_marked (doc : Document) (p : elem)
    (evs : list Event) (st : State) :
  ~ In p (validatedInputs doc) ->
  dispatch doc (Blur p) st = ([], st)
  /\ dispatch doc (Input p) st = ([], st)
  /\ (markedInvalid p (snd (run doc evs st)) <-> markedInvalid p st).
Proof.
  intros Hp.
  destruct (unwatched_field doc p st Hp) as [Hb Hi].
  split; [exact Hb|]. split; [exact Hi|].
  apply (unmarked_run doc p (markedInvalid p st) Hp). reflexivity.
Qed.

Lemma unvalidated_element_never_marked_witness :
  let st := Sample.filled [] (lit "not-an-email") (lit "abc") [] in
  let evs := [Blur 8%nat; Submit 5%nat; Input 8%nat; Blur 6%nat] in
  ~ In 8%nat (validatedInputs Sample.page)
  /\ (markedInvalid 8%nat (snd (run Sample.page evs st)) <-> markedInvalid 8%nat st).
Proof.
  assert (H : ~ In 8%nat (validatedInputs Sample.page)).
  { intros Hin. vm_compute in Hin. intuition discriminate. }
  split; [exact H|].
  exact (proj2 (proj2 (unvalidated_element_never_marked Sample.page 8%nat
                         [Blur 8%nat; Submit 5%nat; Input 8%nat; Blur 6%nat]
                         (Sample.filled [] (lit "not-an-email") (lit "abc") [])
                         H))).
Defined.

(** ** The verdict of validation *)

Section Verdict.

Lemma trimStart_nil s :
  trimStart s = [] <-> Forall (fun u => isWhiteSpace u = true) s.
Proof.
  induction s as [|u s IH]; cbn [trimStart].
  - split; [intros _; apply Forall_nil_2 | reflexivity].
  - destruct (isWhiteSpace u) eqn:Hu.
    + rewrite IH. split; [intros H; apply Forall_cons_2; assumption|].
      intros H. apply Forall_cons_1 in H as [_ H]. exact H.
    + split; [discriminate|]. intros H. apply Forall_cons_1 in H as [H _].
      congruence.
Qed.

Lemma trimStart_head s u r : trimStart s = u :: r -> isWhiteSpace u = false.
Proof.
  induction s as [|a s IH]; cbn [trimStart]; [discriminate|].
  destruct (isWhiteSpace a) eqn:Ha; [exact IH|]. intros [= <- _]. exact Ha.
Qed.

Lemma trim_nil s : trim s = [] <-> Forall (fun u => isWhiteSpace u = true) s.
Proof.
  unfold trim, trimEnd. rewrite <- trimStart_nil. split.
  - intros H. apply (f_equal (@rev unit16)) in H. rewrite rev_involutive in H.
    cbn [rev] in H. apply trimStart_nil in H. apply Forall_rev in H.
    rewrite rev_involutive in H.
    destruct (trimStart s) as [|u r] eqn:E; [reflexivity|].
    apply trimStart_head in E. apply Forall_cons_1 in H as [H _]. congruence.
  - intros ->. reflexivity.
Qed.

End Verdict.

(** X15. The verdict of [validateField] on a field, in full: the field
    passes exactly when it is not both required and empty and, if it is
    named [email] and not empty, its value has the shape of an address.
    Empty means empty after trimming, which is the case exactly when the
    value holds white space only.  So an optional field left empty
    passes, the e-mail field included, and a field that is not the e-mail
    field passes with any text in it. *)

Theorem validation_verdict (doc : Document) (f : elem) (st : State) :
  let el := element f st in
  let v := trim (value el) in
  (outcome (validateField doc (Some f)) st = Normal true
   <-> (is_Some (attributes el !! "required") -> v <> [])
       /\ (attributes el !! "name" = Some (lit "email") -> v <> [] ->
           email_shaped v))
  /\ (v = [] <-> Forall (fun u => isWhiteSpace u = true) (value el)).
Proof.
  intros el v. split; [|apply trim_nil].
  unfold outcome. rewrite validateField_run. cbn [fst fieldValid].
  fold el. unfold errorMessageOf. fold v.
  assert (Hr : truthy (lit "To pole jest wymagane") = true)
    by (vm_compute; reflexivity).
  assert (He : truthy (lit "Podaj prawidłowy adres e-mail") = true)
    by (vm_compute; reflexivity).
  assert (Hname : default [] (attributes el !! "name") = lit "email"
                  <-> attributes el !! "name" = Some (lit "email")).
  { destruct (attributes el !! "name") as [n|]; cbn [default]; cbv [from_option id].
    - split; congruence.
    - split; [|discriminate]. intros H. vm_compute in H. discriminate. }
  rewrite <- Hname.
  destruct (bool_decide_reflect (is_Some (attributes el !! "required"))) as [Hq|Hq];
    destruct v as [|u r] eqn:Hv; cbn [truthy negb andb].
  - rewrite Hr. cbn [negb]. split; [discriminate|]. intros [H _].
    exfalso. apply (H Hq). reflexivity.
  - destruct (bool_decide_reflect
                (default [] (attributes el !! "name") = lit "email")) as [Hn|Hn];
      cbn [andb].
    + destruct (test emailRegex (u :: r)) eqn:Ht; cbn [negb].
      * cbn [truthy negb]. split; [|reflexivity]. intros _.
        split; [discriminate|]. intros _ _. apply emailRegex_spec, Ht.
      * rewrite He. cbn [negb]. split; [discriminate|]. intros [_ H].
        exfalso. apply emailRegex_spec in H; [congruence | exact Hn | discriminate].
    + cbn [truthy negb]. split; [|reflexivity]. intros _.
      split; [discriminate | contradiction].
  - rewrite andb_false_r. cbn [truthy negb]. split; [|reflexivity]. intros _.
    split; [contradiction | congruence].
  - destruct (bool_decide_reflect
                (default [] (attributes el !! "name") = lit "email")) as [Hn|Hn];
      cbn [andb].
    + destruct (test emailRegex (u :: r)) eqn:Ht; cbn [negb].
      * cbn [truthy negb]. split; [|reflexivity]. intros _.
        split; [contradiction|]. intros _ _. apply emailRegex_spec, Ht.
      * rewrite He. cbn [negb]. split; [discriminate|]. intros [_ H].
        exfalso. apply emailRegex_spec in H; [congruence | exact Hn | discriminate].
    + cbn [truthy negb]. split; [|reflexivity]. intros _.
      split; [contradiction | contradiction].
Qed.

Lemma validation_verdict_witness :
  outcome (validateField Sample.page (Some 8%nat))
    (Sample.filled [] [] (lit "   ") []) = Normal true.
Proof.
  apply (proj1 (validation_verdict Sample.page 8%nat
                  (Sample.filled [] [] (lit "   ") []))).
  split.
  - intros [x H]. vm_compute in H. discriminate.
  - intros H. vm_compute in H. discriminate.
Defined.

Lemma revealed_survives_every_event_witness :
  let st := snd (dispatch Sample.page (Intersect [mkEntry 40%nat true]) Sample.loaded) in
  let evs := [Scroll 900; AnimationFrame; Click 2%nat; Scroll 0; AnimationFrame;
              Submit 5%nat] in
  scrollTopBtn Sample.page <> Some 40%nat
  /\ revealed 40%nat st
  /\ revealed 40%nat (snd (run Sample.page evs st)).
Proof.
  assert (Hb : scrollTopBtn Sample.page <> Some 40%nat) by discriminate.
  assert (Hr : revealed 40%nat
                 (snd (dispatch Sample.page (Intersect [mkEntry 40%nat true])
                         Sample.loaded))).
  { unfold revealed, hasClass. refine (bool_decide_unpack _ _).
    vm_compute. exact I. }
  split; [exact Hb|]. split; [exact Hr|].
  exact (revealed_survives_every_event Sample.page 40%nat
           [Scroll 900; AnimationFrame; Click 2%nat; Scroll 0; AnimationFrame;
            Submit 5%nat] _ Hb Hr).
Defined.

Lemma mail_not_opened_witness :
  let st := Sample.filled (lit "Jan") (lit "jan@example.com") []
              (lit "Cze" ++ [unit_of 0xDC00]) in
  allPresent Sample.page /\ allValid Sample.page st
  /\ isWellFormed (mailText Sample.page st) = false
  /\ outcome (submitListener Sample.page) st = Throw URIError
  /\ effects (exec (submitListener Sample.page) st) = effects st ++ [PreventDefault].
Proof.
  assert (Hp : allPresent Sample.page) by (repeat split; eexists; reflexivity).
  assert (Hv : allValid Sample.page
                 (Sample.filled (lit "Jan") (lit "jan@example.com") []
                    (lit "Cze" ++ [unit_of 0xDC00])))
    by (repeat split; vm_compute; reflexivity).
  assert (Hw : isWellFormed (mailText Sample.page
                 (Sample.filled (lit "Jan") (lit "jan@example.com") []
                    (lit "Cze" ++ [unit_of 0xDC00]))) = false)
    by (vm_compute; reflexivity).
  split; [exact Hp|]. split; [exact Hv|]. split; [exact Hw|].
  exact (mail_not_opened Sample.page _ Hp Hv Hw).
Defined.

(** ** A navigation link that is an in-page link *)

Section MenuLink.

Context (doc : Document) (a t h nav toggle : elem) (href : jsstring).
Hypothesis Hne : href <> lit "#".
Hypothesis Hq : querySelector doc href = Normal (Some t).
Hypothesis Hh : header doc = Some h.
Hypothesis Hnav : mainNav doc = Some nav.
Hypothesis Htoggle : menuToggle doc = Some toggle.

Lemma anchorClick_closes st :
  attributes (element a st) !! "href" = Some href ->
  exists st', anchorClick doc a st = (Normal tt, st') /\ ~ menuOpen nav st'.
Proof.
  intros Hhref.
  assert (Hq' : attributes (element a st) !! "href" <> Some (lit "#"))
    by (rewrite Hhref; congruence).
  rewrite (anchorClick_query doc a st Hq'), Hhref.
  cbv [default from_option id]. rewrite Hq.
  unfold closeMobileMenu. rewrite Hh, Hnav, Htoggle. mrun.
  change (element nav (with_effect PreventDefault st)) with (element nav st).
  destruct (bool_decide_reflect ("is-open" ∈ classList (element nav st)))
    as [Ho|Ho]; cbn [fst snd]; eexists; (split; [reflexivity|]);
    unfold menuOpen, hasClass; autorewrite with dom.
  - rewrite decide_True by reflexivity.
    intros H. apply elem_of_difference in H as [_ H].
    apply H, elem_of_singleton. reflexivity.
  - exact Ho.
Qed.

Lemma callbacks_menu_link st :
  a ∈ anchors doc -> a ∈ navLinks doc -> a <> toggle ->
  scrollTopBtn doc <> Some a ->
  callbacks doc (Click a) st = [anchorClick doc a; navLinkClick doc].
Proof.
  intros Ha Hl Ht Hb. unfold callbacks, components. cbn [flat_map].
  unfold setupSmoothScroll, setupMobileMenu, setupHeaderScroll,
    setupScrollToTop, setupScrollAnimations, setupContactForm.
  rewrite Hh, Hnav, Htoggle. cbn [listeners].
  rewrite (decide_True _ _ Ha), (decide_True _ _ Hl), (decide_False _ _ Ht).
  destruct (scrollTopBtn doc) as [btn|], (contactForm doc),
    (prefersReducedMotion doc || (length (animatedElements doc) =? 0)%nat);
    cbn [listeners idle app];
    rewrite ?decide_False by congruence; reflexivity.
Qed.

End MenuLink.

(** X18. On a page that has the header, the panel and the toggle, a
    click on a navigation link that is also an in-page link whose target
    exists, and that is neither the toggle nor the scroll-top button,
    runs the smooth-scroll listener first and the menu's link listener
    second, and no other.  The first closes the menu, so the second finds
    it closed and changes nothing: the page is left exactly as the
    smooth-scroll listener leaves it, with the menu closed and no error
    reported.  (Without the header or the panel the first listener
    throws; on the toggle or the scroll-top button a third listener
    runs.) *)

Theorem menu_link_click (doc : Document) (a t h nav toggle : elem)
    (href : jsstring) (st : State) :
  attributes (element a st) !! "href" = Some href -> href <> lit "#" ->
  querySelector doc href = Normal (Some t) ->
  header doc = Some h -> mainNav doc = Some nav -> menuToggle doc = Some toggle ->
  a ∈ anchors doc -> a ∈ navLinks doc -> a <> toggle ->
  scrollTopBtn doc <> Some a ->
  dispatch doc (Click a) st = ([], exec (anchorClick doc a) st)
  /\ ~ menuOpen nav (snd (dispatch doc (Click a) st)).
Proof.
  intros Hhref Hne Hq Hh Hnav Htoggle Ha Hl Ht Hb.
  destruct (anchorClick_closes doc a t h nav toggle href Hne Hq Hh Hnav Htoggle
              st Hhref) as (st' & Hrun & Hclosed).
  assert (Hd : dispatch doc (Click a) st = ([], st')).
  { unfold dispatch.
    rewrite (callbacks_menu_link doc a h nav toggle Hh Hnav Htoggle st Ha Hl Ht Hb).
    cbn [browser foldl].
    rewrite (runListener_normal _ _ st' Hrun).
    apply runListener_normal. cbn [snd]. unfold navLinkClick.
    rewrite (closeIfOpen_run doc nav Hnav).
    rewrite bool_decide_eq_false_2 by exact Hclosed. reflexivity. }
  rewrite Hd. unfold exec. rewrite Hrun. split; [reflexivity | exact Hclosed].
Qed.

Lemma menu_link_click_witness :
  let st := snd (menuRun Sample.page [ToggleClick] Sample.loaded) in
  menuOpen 3%nat st
  /\ dispatch Sample.page (Click 20%nat) st
     = ([], exec (anchorClick Sample.page 20%nat) st)
  /\ ~ menuOpen 3%nat (snd (dispatch Sample.page (Click 20%nat) st)).
Proof.
  assert (Ho : menuOpen 3%nat (snd (menuRun Sample.page [ToggleClick] Sample.loaded))).
  { unfold menuOpen, hasClass. refine (bool_decide_unpack _ _).
    vm_compute. exact I. }
  assert (H1 : attributes (element 20%nat
                 (snd (menuRun Sample.page [ToggleClick] Sample.loaded))) !! "href"
               = Some (lit "#kontakt")) by (vm_compute; reflexivity).
  assert (H2 : lit "#kontakt" <> lit "#") by (vm_compute; discriminate).
  assert (H3 : querySelector Sample.page (lit "#kontakt") = Normal (Some 30%nat))
    by (vm_compute; reflexivity).
  assert (Ha : 20%nat ∈ anchors Sample.page)
    by (refine (bool_decide_unpack _ _); vm_compute; exact I).
  assert (Hl : 20%nat ∈ navLinks Sample.page)
    by (refine (bool_decide_unpack _ _); vm_compute; exact I).
  split; [exact Ho|].
  exact (menu_link_click Sample.page 20%nat 30%nat 1%nat 3%nat 2%nat
           (lit "#kontakt") _ H1 H2 H3 eq_refl eq_refl eq_refl Ha Hl
           ltac:(discriminate) ltac:(discriminate)).
Defined.

(** ** The scroll lock through every event *)

Section LockKept.

Context (doc : Document) (toggle nav : elem).
Hypothesis Htoggle : menuToggle doc = Some toggle.
Hypothesis Hnav : mainNav doc = Some nav.

Local Abbreviation L := (fun s : State => scrollLocked s <-> menuOpen nav s).

Lemma lock_update g f :
  (forall el, "is-open" ∈ classList (f el) <-> "is-open" ∈ classList el) ->
  keeps L (update g f).
Proof.
  intros Hf. apply keeps_modify. intros s H. cbv beta in *. rewrite H.
  unfold menuOpen, hasClass. rewrite element_updated.
  destruct (decide (nav = g)) as [->|]; [symmetry; apply Hf | reflexivity].
Qed.

Lemma lock_classList_add g c : c <> "is-open" -> keeps L (classList_add g c).
Proof.
  intros Hc. apply lock_update. intros el. cbn [classList with_classList].
  rewrite elem_of_union, elem_of_singleton. intuition congruence.
Qed.

Lemma lock_classList_remove g c : c <> "is-open" -> keeps L (classList_remove g c).
Proof.
  intros Hc. apply lock_update. intros el. cbn [classList with_classList].
  rewrite elem_of_difference, elem_of_singleton. intuition congruence.
Qed.

Lemma lock_setAttribute g k v : keeps L (setAttribute g k v).
Proof. apply lock_update. intros el. reflexivity. Qed.

Lemma lock_setTextContent g t : keeps L (setTextContent g t).
Proof. apply lock_update. intros el. reflexivity. Qed.

Lemma lock_state f :
  (forall s, store (f s) = store s) ->
  (forall s, bodyOverflow (f s) = bodyOverflow s) ->
  keeps L (modify f).
Proof.
  intros Hs Hb. apply keeps_modify. intros s H. cbv beta in *.
  unfold scrollLocked, menuOpen, hasClass, element in *. rewrite Hs, Hb. exact H.
Qed.

Lemma lock_menu i : keeps L (menuListener doc i).
Proof.
  intros s H. destruct (menu_step doc toggle nav Htoggle Hnav i s H)
    as (s' & -> & H' & _). exact H'.
Qed.

Lemma lock_closeMobileMenu : keeps L (closeMobileMenu doc).
Proof.
  intros s _. destruct (closeMobileMenu_spec doc toggle nav Htoggle Hnav s)
    as (s' & -> & Hc & Hl). cbn [snd]. tauto.
Qed.

Ltac locked :=
  repeat first
    [ keeps_step
    | match goal with
      | |- keeps _ (classList_add _ _) => apply lock_classList_add; discriminate
      | |- keeps _ (classList_remove _ _) =>
          apply lock_classList_remove; discriminate
      | |- keeps _ (setAttribute _ _ _) => apply lock_setAttribute
      | |- keeps _ (setTextContent _ _) => apply lock_setTextContent
      | |- keeps _ (closeMobileMenu _) => apply lock_closeMobileMenu
      | |- keeps _ (effect _) => apply lock_state; reflexivity
      | |- keeps _ (modify _) => apply lock_state; reflexivity
      end ].

Lemma lock_anchorClick a : keeps L (anchorClick doc a).
Proof. unfold anchorClick, getAttribute, classList_contains. locked. Qed.

Lemma lock_frameCallback cb : keeps L (frameCallback doc cb).
Proof.
  destruct cb; cbn [frameCallback];
    unfold updateHeader, updateScrollTopVisibility; locked.
Qed.

Lemma lock_headerScroll : keeps L headerScroll.
Proof. unfold headerScroll. locked. Qed.

Lemma lock_scrollTopScroll : keeps L scrollTopScroll.
Proof. unfold scrollTopScroll. locked. Qed.

Lemma lock_scrollTopClick : keeps L (scrollTopClick doc).
Proof. unfold scrollTopClick. locked. Qed.

Lemma lock_observerCallback entries : keeps L (observerCallback entries).
Proof. unfold observerCallback. locked. Qed.

Lemma lock_removeNotice i : keeps L (removeNotice i).
Proof. unfold removeNotice. locked. Qed.

Lemma lock_clearFieldError f : keeps L (clearFieldError doc f).
Proof. unfold clearFieldError. locked. Qed.

Lemma lock_validateField input : keeps L (validateField doc input).
Proof. unfold validateField, showFieldError, clearFieldError. locked. Qed.

Lemma lock_submitListener : keeps L (submitListener doc).
Proof.
  unfold submitListener. cbv zeta.
  apply keeps_bind; [apply lock_state; reflexivity | intros _].
  do 3 (apply keeps_bind; [apply lock_validateField | intro]).
  match goal with
  | |- keeps _ (if ?b then _ else _) => destruct b; [|apply keeps_ret]
  end.
  unfold openMailClient, trimmedValue, showFormSuccess. locked.
Qed.

Lemma lock_callbacks ev st l : In l (callbacks doc ev st) -> keeps L l.
Proof.
  assert (Hc : In l (flat_map (fun c => listeners c ev) (components doc)) ->
               keeps L l).
  { unfold components. cbn [flat_map]. rewrite !in_app_iff.
    intros [H|[H|[H|[H|[H|[H|[]]]]]]].
    - destruct ev; cbn [listeners setupSmoothScroll] in H; pick_listener.
      apply lock_anchorClick.
    - unfold setupMobileMenu in H. rewrite Htoggle, Hnav in H.
      destruct ev; cbn [listeners] in H; pick_listener.
      + exact (lock_menu ToggleClick).
      + exact (lock_menu NavLinkClick).
      + exact (lock_menu (Key _)).
    - unfold setupHeaderScroll in H.
      revert H. case (header doc); [intros h|]; destruct ev;
        cbn [listeners idle]; intros H; pick_listener.
      apply lock_headerScroll.
    - unfold setupScrollToTop in H.
      revert H. case (scrollTopBtn doc); [intros btn|]; destruct ev;
        cbn [listeners idle]; intros H; pick_listener;
        [apply lock_scrollTopClick | apply lock_scrollTopScroll].
    - unfold setupScrollAnimations in H.
      revert H. case (prefersReducedMotion doc || _); destruct ev;
        cbn [listeners]; intros H; pick_listener.
      apply lock_observerCallback.
    - unfold setupContactForm in H.
      revert H. case (contactForm doc); [intros form|]; destruct ev;
        cbn [listeners idle]; intros H; pick_listener;
        try (apply in_flat_map in H as (input & Hin & H); pick_listener);
        try apply lock_submitListener.
      + unfold blurListener.
        apply keeps_bind; [apply lock_validateField | intros _; apply keeps_ret].
      + apply lock_clearFieldError. }
  destruct ev; try exact Hc; cbn [callbacks]; intros H.
  - apply in_map_iff in H as (cb & <- & _). apply lock_frameCallback.
  - destruct H as [<-|[]]. apply lock_removeNotice.
Qed.

Lemma lock_run evs st : L st -> L (snd (run doc evs st)).
Proof.
  intros Hst. induction evs as [|ev evs IH] using rev_ind; [exact Hst|].
  rewrite run_snoc. cbn [snd]. unfold dispatch.
  apply keeps_listeners; [intros l; apply lock_callbacks|].
  destruct ev; exact IH.
Qed.

End LockKept.

(** X19. On a page that has the toggle and the panel, the body's scroll
    lock follows the menu through every sequence of events of the page,
    not only through the menu's own: if the body is locked exactly when
    the panel is open at the start, it is so after any clicks, key
    presses, scrolls, frames, intersection batches, form events and
    timers, whether or not a listener threw on the way. *)

Theorem scroll_lock_follows_menu (doc : Document) (toggle nav : elem)
    (evs : list Event) (st : State) :
  menuToggle doc = Some toggle -> mainNav doc = Some nav ->
  (scrollLocked st <-> menuOpen nav st) ->
  (scrollLocked (snd (run doc evs st)) <-> menuOpen nav (snd (run doc evs st))).
Proof. intros Ht Hn. exact (lock_run doc toggle nav Ht Hn evs st). Qed.

Lemma scroll_lock_follows_menu_witness :
  let evs := [Click 2%nat; Scroll 300; AnimationFrame; Submit 5%nat;
              Click 20%nat; Click 2%nat; KeyDown (lit "Escape")] in
  menuToggle Sample.page = Some 2%nat /\ mainNav Sample.page = Some 3%nat
  /\ (scrollLocked Sample.loaded <-> menuOpen 3%nat Sample.loaded)
  /\ (scrollLocked (snd (run Sample.page evs Sample.loaded))
      <-> menuOpen 3%nat (snd (run Sample.page evs Sample.loaded))).
Proof.
  assert (H : scrollLocked Sample.loaded <-> menuOpen 3%nat Sample.loaded).
  { split.
    - intros Hl. vm_compute in Hl. discriminate.
    - intros Ho. exfalso. revert Ho. unfold menuOpen, hasClass.
      refine (bool_decide_unpack _ _). vm_compute. exact I. }
  split; [reflexivity|]. split; [reflexivity|]. split; [exact H|].
  exact (scroll_lock_follows_menu Sample.page 2%nat 3%nat
           [Click 2%nat; Scroll 300; AnimationFrame; Submit 5%nat;
            Click 20%nat; Click 2%nat; KeyDown (lit "Escape")]
           Sample.loaded eq_refl eq_refl H).
Defined.
